(** * glide, package [repo]: the installer (repo/installer.go)

    A shallow embedding of [Installer.Install], [Installer.Checkout],
    [Installer.Update], [ConcurrentUpdate], [allPackages], [depsFromPackages]
    and the [MissingPackageHandler], with the properties the design document
    states about them.

    Layout: data model, the dependency aggregator, the effect monad and the
    external collaborators, the missing-package handler, the worker pool as
    an interleaving transition system, the installer operations, and then
    the theorems. *)

From Stdlib Require Import Ascii.
From stdpp Require Import gmap strings list fin_maps.


(** ** Data model (package cfg, as far as installer.go reads and writes it) *)

(** Go's [error] interface; only its message is ever used (formatted by
    [msg.Warn] / [msg.Die]). *)
Definition error := string.

(** [cfg.Dependency]: the fields installer.go touches. *)
Record Dependency := mkDependency {
  Name : string;
  Reference : string;
  Repository : string;
  VcsType : string;
  Subpackages : list string;
  Arch : list string;
  Os : list string
}.

(** [cfg.Lock]: one entry of a lock file. *)
Record Lock := mkLock {
  LName : string;
  LVersion : string;
  LRepository : string;
  LVcsType : string;
  LSubpackages : list string;
  LArch : list string;
  LOs : list string
}.

(** [cfg.Lockfile]. *)
Record Lockfile := mkLockfile {
  LHash : string;
  LImports : list Lock;
  LDevImports : list Lock
}.

(** [cfg.Config]. *)
Record Config := mkConfig {
  CName : string;
  Imports : list Dependency;
  DevImports : list Dependency
}.

(** [Installer]. *)
Record Installer := mkInstaller {
  Force : bool;
  Home : string;
  UseCache : bool;
  UseCacheGopath : bool;
  UseGopath : bool;
  UpdateVendored : bool;
  DeleteUnused : bool
}.

#[global] Instance Dependency_eq_dec : EqDecision Dependency.
Proof. solve_decision. Defined.

(** ** The dependency aggregator: [depsFromPackages]

    The Go code keeps a map [seen] from repository root to a pointer
    [*cfg.Dependency] and a slice [deps] of the same pointers; the second
    branch of the loop mutates a Dependency through the map, and the change
    is visible through the slice.  The embedding keeps that sharing: a heap
    of Dependency cells addressed by their index, [seen] and [deps] both
    holding addresses. *)

(** [&cfg.Dependency{Name: rr, Subpackages: subpkg}]: every other field has
    Go's zero value. *)
Definition new_dep (rr : string) (subpkg : list string) : Dependency :=
  {| Name := rr; Reference := ""; Repository := ""; VcsType := "";
     Subpackages := subpkg; Arch := []; Os := [] |}.

(** [d.Subpackages = append(d.Subpackages, sp)]. *)
Definition append_subpackage (sp : string) (d : Dependency) : Dependency :=
  {| Name := Name d; Reference := Reference d; Repository := Repository d;
     VcsType := VcsType d; Subpackages := Subpackages d ++ [sp];
     Arch := Arch d; Os := Os d |}.

Record agg_state := mkAgg {
  heap : list Dependency;      (* the allocated Dependency cells *)
  seen : gmap string nat;      (* seen : map[string]*cfg.Dependency *)
  deps : list nat              (* deps : []*cfg.Dependency *)
}.

Definition agg_init : agg_state :=
  {| heap := []; seen := ∅; deps := [] |}.

Section Aggregator.
(** [util.NormalizeName] lives in another package of the repository; the
    aggregator is parametric in it. *)
Variable NormalizeName : string → string * string.

(** One iteration of [for _, p := range pkgs]. *)
Definition agg_step (st : agg_state) (p : string) : agg_state :=
  let '(rr, sp) := NormalizeName p in
  match seen st !! rr with
  | None =>
      let subpkg := if decide (sp = "") then [] else [sp] in
      let dd := length (heap st) in
      {| heap := heap st ++ [new_dep rr subpkg];
         seen := <[rr := dd]> (seen st);
         deps := deps st ++ [dd] |}
  | Some ptr =>
      if decide (sp = "") then st
      else {| heap := alter (append_subpackage sp) ptr (heap st);
              seen := seen st;
              deps := deps st |}
  end.

Definition agg_run (pkgs : list string) : agg_state :=
  foldl agg_step agg_init pkgs.

(** The returned slice, read through its pointers. *)
Definition depsFromPackages (pkgs : list string) : list Dependency :=
  let st := agg_run pkgs in
  omap (λ ptr, heap st !! ptr) (deps st).

(** *** Specification-side vocabulary *)

Definition root_of (p : string) : string := (NormalizeName p).1.
Definition suffix_of (p : string) : string := (NormalizeName p).2.

(** The non-empty sub-package suffixes of the paths whose root is [r], in
    input order, repetitions kept. *)
Definition suffixes_for (r : string) (pkgs : list string) : list string :=
  omap (λ p, if decide (root_of p = r)
             then (if decide (suffix_of p = "") then None else Some (suffix_of p))
             else None) pkgs.
End Aggregator.

(** The distinct elements of a list, each at the place of its first
    appearance. *)
Fixpoint first_seen (l : list string) : list string :=
  match l with
  | [] => []
  | x :: l' => x :: filter (λ y, y ≠ x) (first_seen l')
  end.

(** ** Effects

    installer.go acts on the file system and the network (through the VCS
    primitives), writes messages (package msg), may end the process
    ([msg.Die]) and starts goroutines.  A run is a function on a [World]:
    the state of the file system, the trace of observable events so far
    (messages and calls of the VCS primitives, oldest first), and the
    choices the Go scheduler is going to make. *)

Inductive level := LInfo | LWarn | LDebug | LError.

Inductive Event :=
| EvMsg (lv : level) (format : string) (args : list string)
| EvGet (d : Dependency) (dest home : string) (cache cacheGopath useGopath : bool)
| EvUpdate (d : Dependency) (vend : string) (i : Installer).

Record World (FS : Type) := mkWorld {
  w_fs : FS;
  w_trace : list Event;
  w_sched : list nat
}.
Arguments mkWorld {FS} _ _ _.
Arguments w_fs {FS} _.
Arguments w_trace {FS} _.
Arguments w_sched {FS} _.

(** The world [w] after the events [evs]. *)
Definition with_events {FS} (w : World FS) (evs : list Event) : World FS :=
  {| w_fs := w_fs w; w_trace := w_trace w ++ evs; w_sched := w_sched w |}.

(** How a call ends. *)
Inductive Outcome (A : Type) :=
| Returned (a : A)          (* the function returns [a] *)
| Died                      (* msg.Die: the message is written, the process exits *)
| Deadlocked.               (* every goroutine is blocked *)
Arguments Returned {A} _.
Arguments Died {A}.
Arguments Deadlocked {A}.

(** The dependencies handed to [VcsUpdate] / [VcsGet], in call order. *)
Definition updates_of (t : list Event) : list Dependency :=
  omap (λ e, match e with EvUpdate d _ _ => Some d | _ => None end) t.

Definition gets_of (t : list Event) : list (Dependency * string) :=
  omap (λ e, match e with EvGet d dest _ _ _ _ => Some (d, dest) | _ => None end) t.

(** ** The transitive resolver, seen from installer.go

    [dependency.Resolver.ResolveAll] walks the import graph and, while it
    walks, calls back into the handler installed in [res.Handler].  It is a
    strategy: it either answers, or asks the handler about a package and
    goes on from the handler's reply and the file system the handler left. *)

Inductive Walk (FS : Type) :=
| Answer (packages : list string) (err : option error)
| AskNotFound (pkg : string) (k : bool * option error → FS → Walk FS)
| AskOnGopath (pkg : string) (k : bool * option error → FS → Walk FS).
Arguments Answer {FS} _ _.
Arguments AskNotFound {FS} _ _.
Arguments AskOnGopath {FS} _ _.

(** ** External collaborators

    Everything installer.go calls and does not define.  [VcsGet],
    [VcsUpdate] and [concurrentWorkers] belong to other files of package
    repo; the rest to packages util, path, dependency and cfg, and to Go's
    path/filepath and os.  Theorems quantify over all of them. *)

Class Collaborators := {
  FS : Type;
  Resolver : Type;
  (** repo.concurrentWorkers: the number of workers of the pool, and the
      capacity of its two channels *)
  concurrentWorkers : nat;
  (** util.NormalizeName(name) (root, extra), a pure function as the design
      document has it *)
  NormalizeName : string → string * string;
  (** filepath.Join(a, b) *)
  filepath_Join : string → string → string;
  (** os.Stat(path): [true] when it returns a nil error, which installer.go
      takes to mean that the path exists *)
  os_Stat : FS → string → bool;
  (** gpath.Vendor() (string, error) *)
  gpath_Vendor : FS → string * option error;
  (** repo.VcsGet(dep, dest, home, cache, cacheGopath, useGopath) error *)
  VcsGet : Dependency → string → string → bool → bool → bool →
           FS → FS * option error;
  (** repo.VcsUpdate(dep, vend, inst) error; the pool only reads the
      Dependency it is given *)
  VcsUpdate : Dependency → string → Installer → FS → FS * option error;
  (** dependency.NewResolver(basedir): a resolver or an error *)
  NewResolver : string → FS → Resolver + error;
  (** Resolver.ResolveAll(deps) ([]string, error) *)
  ResolveAll : Resolver → list Dependency → FS → Walk FS;
  (** Config.DeDupe(), as the new value of its receiver *)
  DeDupe : Config → Config;
  (** Config.Hash() (string, error) *)
  Hash : Config → string * option error
}.

(** [os.PathSeparator] on the platforms glide targets first. *)
Definition os_PathSeparator : string := "/".

(** [strings.TrimPrefix]. *)
Fixpoint strip_prefix (prefix s : string) : option string :=
  match prefix with
  | EmptyString => Some s
  | String c prefix' =>
      match s with
      | EmptyString => None
      | String c' s' =>
          if Ascii.eqb c c' then strip_prefix prefix' s' else None
      end
  end.

Definition strings_TrimPrefix (s prefix : string) : string :=
  default s (strip_prefix prefix s).

(** Modelled from the spec: cfg.NewLockfile is not part of installer.go.
    The lock record is "the list of resolved Dependencies plus a content
    hash of the originating configuration"; each entry is the Dependency's
    fields under the Lock's names, the inverse of the projection
    [Install] applies, and an update records no dev-imports. *)
Definition lock_of_dep (d : Dependency) : Lock :=
  {| LName := Name d; LVersion := Reference d; LRepository := Repository d;
     LVcsType := VcsType d; LSubpackages := Subpackages d;
     LArch := Arch d; LOs := Os d |}.

Definition NewLockfile (ds : list Dependency) (hash : string) : Lockfile :=
  {| LHash := hash; LImports := lock_of_dep <$> ds; LDevImports := [] |}.

(** [MissingPackageHandler]. *)
Record MissingPackageHandler := mkHandler {
  destination : string;
  home : string;
  cache : bool;
  cacheGopath : bool;
  useGopath : bool
}.

Section Installer.
Context {E : Collaborators}.

(** *** The monad of runs *)

Definition M (A : Type) : Type := World FS → World FS * Outcome A.

Definition ret {A} (a : A) : M A := λ w, (w, Returned a).

Definition bind {A B} (m : M A) (k : A → M B) : M B := λ w,
  match m w with
  | (w', Returned a) => k a w'
  | (w', Died) => (w', Died)
  | (w', Deadlocked) => (w', Deadlocked)
  end.

Definition emit (e : Event) : M unit := λ w,
  (with_events w [e], Returned tt).

(** Package msg. *)
Definition msg_Info (format : string) (args : list string) : M unit :=
  emit (EvMsg LInfo format args).
Definition msg_Warn (format : string) (args : list string) : M unit :=
  emit (EvMsg LWarn format args).
Definition msg_Debug (format : string) (args : list string) : M unit :=
  emit (EvMsg LDebug format args).

(** Modelled from the spec: msg.Die is not part of installer.go.  The
    failures it reports "stop the entire Update/Install call": the message
    is written as an error and nothing after the call is run. *)
Definition msg_Die {A} (format : string) (args : list string) : M A := λ w,
  (with_events w [EvMsg LError format args], Died).

(** Calls of the collaborators that read or change the file system; the
    VCS calls are entered in the trace. *)
Definition call_Stat (path : string) : M bool := λ w,
  (w, Returned (os_Stat (w_fs w) path)).

Definition call_Vendor : M (string * option error) := λ w,
  (w, Returned (gpath_Vendor (w_fs w))).

Definition call_NewResolver (base : string) : M (Resolver + error) := λ w,
  (w, Returned (NewResolver base (w_fs w))).

Definition call_VcsGet (d : Dependency) (dest hm : string)
    (c cg ug : bool) : M (option error) := λ w,
  let '(fs', r) := VcsGet d dest hm c cg ug (w_fs w) in
  ({| w_fs := fs'; w_trace := w_trace w ++ [EvGet d dest hm c cg ug];
      w_sched := w_sched w |}, Returned r).
End Installer.

Notation "'let*' x := m 'in' k" := (bind m (λ x, k))
  (at level 10, x name, m at level 100, k at level 200,
   format "'[v' 'let*'  x  :=  m  'in' '/' k ']'").
Notation "'let*' ' x := m 'in' k" := (bind m (λ x, k))
  (at level 10, x strict pattern, m at level 100, k at level 200,
   format "'[v' 'let*'  ' x  :=  m  'in' '/' k ']'").
Notation "m ;;; k" := (bind m (λ _, k))
  (at level 100, k at level 200, right associativity).

Section Fetching.
Context {E : Collaborators}.

(** *** The missing-package handler *)

Definition NotFound (m : MissingPackageHandler) (pkg : string)
    : M (bool * option error) :=
  msg_Info "Fetching %s into %s" [pkg; destination m] ;;;
  let d := new_dep pkg [] in
  let dest := filepath_Join (destination m) pkg in
  let* err := call_VcsGet d dest (home m) (cache m) (cacheGopath m) (useGopath m) in
  match err with
  | Some e => ret (false, Some e)
  | None => ret (true, None)
  end.

Definition OnGopath (m : MissingPackageHandler) (pkg : string)
    : M (bool * option error) :=
  msg_Info "OnGopath: Package %s is on the GOPATH." [pkg] ;;;
  ret (false, None).

(** The walk of the resolver with [m] installed as its handler. *)
Fixpoint run_walk (m : MissingPackageHandler) (t : Walk FS)
    : M (list string * option error) :=
  match t with
  | Answer pkgs err => ret (pkgs, err)
  | AskNotFound pkg k => λ w,
      match NotFound m pkg w with
      | (w', Returned r) => run_walk m (k r (w_fs w')) w'
      | (w', Died) => (w', Died)
      | (w', Deadlocked) => (w', Deadlocked)
      end
  | AskOnGopath pkg k => λ w,
      match OnGopath m pkg w with
      | (w', Returned r) => run_walk m (k r (w_fs w')) w'
      | (w', Died) => (w', Died)
      | (w', Deadlocked) => (w', Deadlocked)
      end
  end.

Definition call_ResolveAll (res : Resolver) (m : MissingPackageHandler)
    (deps : list Dependency) : M (list string * option error) := λ w,
  run_walk m (ResolveAll res deps (w_fs w)) w.

(** *** [checkoutImports] and [Checkout] *)

Fixpoint checkoutImports (i : Installer) (deps : list Dependency)
    (dest : string) : M (option error) :=
  match deps with
  | [] => ret None
  | c :: deps' =>
      let* found := call_Stat (filepath_Join dest (Name c)) in
      if found : bool then
        msg_Debug "Package %s already found." [Name c] ;;;
        checkoutImports i deps' dest
      else
        let target := filepath_Join dest (Name c) in
        msg_Info "Fetching %s into %s" [Name c; dest] ;;;
        let* err := call_VcsGet c target (Home i) (UseCache i)
                      (UseCacheGopath i) (UseGopath i) in
        match err with
        | Some e => ret (Some e)
        | None => checkoutImports i deps' dest
        end
  end.

Definition Checkout (i : Installer) (conf : Config) (useDev : bool)
    : M (option error) :=
  let dest := "./vendor" in
  let* err := checkoutImports i (Imports conf) dest in
  match err with
  | Some e => ret (Some e)
  | None =>
      if useDev then checkoutImports i (DevImports conf) dest
      else ret None
  end.

(** *** [allPackages] *)

Definition allPackages (deps : list Dependency) (res : Resolver)
    (m : MissingPackageHandler) : M (list string * option error) :=
  if decide (length deps = 0) then ret ([], None)
  else
    let* '(vdir, err) := call_Vendor in
    match err with
    | Some e => ret ([], Some e)
    | None =>
        let vdir := String.append vdir os_PathSeparator in
        let* '(ll, err) := call_ResolveAll res m deps in
        match err with
        | Some e => ret ([], Some e)
        | None => ret ((λ p, strings_TrimPrefix p vdir) <$> ll, None)
        end
    end.
End Fetching.

(** ** The worker pool: [ConcurrentUpdate]

    The goroutines of [ConcurrentUpdate] are run as an interleaving
    transition system.  The caller and each worker have a program counter;
    a step is one of their atomic actions: a channel operation, a WaitGroup
    operation, or one whole call of [VcsUpdate] together with the warning
    that follows when it fails (the VCS primitive is opaque, so its effect
    on the file system is taken as one action).  Which goroutine moves, and
    which ready case a [select] takes, is the scheduler's choice.

    In Go the calls of two workers may overlap in time, and a warning may be
    written after another worker has begun its call; the transition system
    does not tell these runs apart from the ones where each call and its
    warning are one action.  What it decides is which dependencies are
    updated and how often, what goes through the channels and the
    WaitGroup, and which goroutines end; the order in which the events of
    different workers reach the trace is not settled by it. *)

(** Where the caller is. *)
Inductive main_pc :=
| MSpawn (ii : nat)          (* for ii := 0; ii < concurrentWorkers; ii++ { go func... } *)
| MLoop (rest : list Dependency)                      (* for _, dep := range deps *)
| MSend (dep : Dependency) (rest : list Dependency)   (* after wg.Add(1), at: in <- dep *)
| MWait                                               (* wg.Wait() *)
| MStop (ii : nat)           (* for ii := 0; ii < concurrentWorkers; ii++ { done <- struct{}{} } *)
| MReturned.

(** Where a worker is. *)
Inductive worker_pc :=
| WSelect                      (* at the select *)
| WUpdate (dep : Dependency)   (* took dep from ch; at: VcsUpdate(dep, cwd, i) *)
| WDone                        (* at: wg.Done() *)
| WExited.                     (* took a token from done and returned *)

Record pool (FS : Type) := mkPool {
  p_main : main_pc;
  p_workers : list worker_pc;
  p_in : list Dependency;      (* channel in: buffered values, oldest first *)
  p_done : nat;                (* channel done: number of buffered tokens *)
  p_wg : nat;                  (* the WaitGroup counter *)
  p_sent : nat;                (* ghost: sends on done performed so far *)
  p_fs : FS;
  p_trace : list Event
}.
Arguments mkPool {FS} _ _ _ _ _ _ _ _.
Arguments p_main {FS} _.
Arguments p_workers {FS} _.
Arguments p_in {FS} _.
Arguments p_done {FS} _.
Arguments p_wg {FS} _.
Arguments p_sent {FS} _.
Arguments p_fs {FS} _.
Arguments p_trace {FS} _.

(** What the scheduler can pick. *)
Inductive action :=
| AMain                (* the caller's next action *)
| ARecv (w : nat)      (* worker w's select takes: case dep := <-ch *)
| AStop (w : nat)      (* worker w's select takes: case <-done *)
| AWork (w : nat).     (* worker w's next action outside the select *)

#[global] Instance action_eq_dec : EqDecision action.
Proof. solve_decision. Defined.

Section Pool.
Context {E : Collaborators}.
Variable deps : list Dependency.
Variable cwd : string.
Variable i : Installer.

Definition with_main (pc : main_pc) (s : pool FS) : pool FS :=
  mkPool pc (p_workers s) (p_in s) (p_done s) (p_wg s) (p_sent s)
         (p_fs s) (p_trace s).

Definition with_worker (w : nat) (pc : worker_pc) (s : pool FS) : pool FS :=
  mkPool (p_main s) (<[w := pc]> (p_workers s)) (p_in s) (p_done s) (p_wg s)
         (p_sent s) (p_fs s) (p_trace s).

(** The caller's next action; [None] while it is blocked, and after it has
    returned. *)
Definition main_step (s : pool FS) : option (pool FS) :=
  match p_main s with
  | MSpawn ii =>
      if decide (ii < concurrentWorkers)
      then Some (mkPool (MSpawn (S ii)) (p_workers s ++ [WSelect]) (p_in s)
                        (p_done s) (p_wg s) (p_sent s) (p_fs s) (p_trace s))
      else Some (with_main (MLoop deps) s)
  | MLoop [] => Some (with_main MWait s)
  | MLoop (dep :: rest) =>
      (* wg.Add(1) *)
      Some (mkPool (MSend dep rest) (p_workers s) (p_in s) (p_done s)
                   (S (p_wg s)) (p_sent s) (p_fs s) (p_trace s))
  | MSend dep rest =>
      (* in <- dep: blocks while the buffer holds concurrentWorkers values *)
      if decide (length (p_in s) < concurrentWorkers)
      then Some (mkPool (MLoop rest) (p_workers s) (p_in s ++ [dep]) (p_done s)
                        (p_wg s) (p_sent s) (p_fs s) (p_trace s))
      else None
  | MWait =>
      (* wg.Wait(): blocks until the counter is zero *)
      if decide (p_wg s = 0) then Some (with_main (MStop 0) s) else None
  | MStop ii =>
      if decide (ii < concurrentWorkers)
      then (* done <- struct{}{} *)
        if decide (p_done s < concurrentWorkers)
        then Some (mkPool (MStop (S ii)) (p_workers s) (p_in s) (S (p_done s))
                          (p_wg s) (S (p_sent s)) (p_fs s) (p_trace s))
        else None
      else Some (with_main MReturned s)
  | MReturned => None
  end.

(** [VcsUpdate(dep, cwd, i)] and the warning on failure. *)
Definition update_events (dep : Dependency) (r : option error) : list Event :=
  EvUpdate dep cwd i ::
  match r with
  | Some err => [EvMsg LWarn "Update failed for %s: %s\n" [Name dep; err]]
  | None => []
  end.

Definition step (a : action) (s : pool FS) : option (pool FS) :=
  match a with
  | AMain => main_step s
  | ARecv w =>
      match p_workers s !! w, p_in s with
      | Some WSelect, dep :: rest =>
          Some (mkPool (p_main s) (<[w := WUpdate dep]> (p_workers s)) rest
                       (p_done s) (p_wg s) (p_sent s) (p_fs s) (p_trace s))
      | _, _ => None
      end
  | AStop w =>
      match p_workers s !! w, p_done s with
      | Some WSelect, S n =>
          Some (mkPool (p_main s) (<[w := WExited]> (p_workers s)) (p_in s)
                       n (p_wg s) (p_sent s) (p_fs s) (p_trace s))
      | _, _ => None
      end
  | AWork w =>
      match p_workers s !! w with
      | Some (WUpdate dep) =>
          let '(fs', r) := VcsUpdate dep cwd i (p_fs s) in
          Some (mkPool (p_main s) (<[w := WDone]> (p_workers s)) (p_in s)
                       (p_done s) (p_wg s) (p_sent s) fs'
                       (p_trace s ++ update_events dep r))
      | Some WDone =>
          (* wg.Done(); a counter below zero is a panic *)
          match p_wg s with
          | S n =>
              Some (mkPool (p_main s) (<[w := WSelect]> (p_workers s)) (p_in s)
                           (p_done s) n (p_sent s) (p_fs s) (p_trace s))
          | 0 => None
          end
      | _ => None
      end
  end.

(** A run along a given list of actions. *)
Fixpoint exec (acts : list action) (s : pool FS) : option (pool FS) :=
  match acts with
  | [] => Some s
  | a :: acts' =>
      match step a s with
      | Some s' => exec acts' s'
      | None => None
      end
  end.

(** The actions that can be taken in [s]. *)
Definition candidates (s : pool FS) : list action :=
  AMain :: (seq 0 (length (p_workers s)) ≫= λ w, [ARecv w; AStop w; AWork w]).

Definition enabled (s : pool FS) : list action :=
  filter (λ a, is_Some (step a s)) (candidates s).

(** A run under a scheduler: [sched] lists its choices among the enabled
    actions; the run stops when nothing is enabled (or the fuel is used up;
    [pool_fuel] is enough).  Returns the choices left over. *)
Fixpoint run (fuel : nat) (sched : list nat) (s : pool FS)
    : list nat * pool FS :=
  match fuel with
  | 0 => (sched, s)
  | S fuel' =>
      let en := enabled s in
      match en !! (hd 0 sched mod length en) with
      | Some a =>
          match step a s with
          | Some s' => run fuel' (tl sched) s'
          | None => (sched, s)
          end
      | None => (sched, s)
      end
  end.

Definition pool_init (fs : FS) (t : list Event) : pool FS :=
  mkPool (MSpawn 0) [] [] 0 0 0 fs t.

Definition pool_fuel : nat := 5 * length deps + 3 * concurrentWorkers + 4.

(** Every goroutine is gone. *)
Definition quiescent (s : pool FS) : Prop :=
  p_main s = MReturned ∧ Forall (λ pc, pc = WExited) (p_workers s).

(** [ConcurrentUpdate(deps, cwd, i)]: it has no result; it returns when the
    caller reaches the end of the function.  The run is taken on to the
    point where no goroutine can move: workers still at their select when
    the caller returns take their stop token afterwards, which changes
    neither the file system nor the trace. *)
Definition ConcurrentUpdate : M unit := λ w,
  let '(sched', s) := run pool_fuel (w_sched w) (pool_init (w_fs w) (w_trace w)) in
  ({| w_fs := p_fs s; w_trace := p_trace s; w_sched := sched' |},
   match p_main s with
   | MReturned => Returned tt
   | _ => Deadlocked
   end).
End Pool.

Section Operations.
Context {E : Collaborators}.

(** *** [Install] *)

(** The Dependency [Install] builds from a lock entry. *)
Definition dep_of_lock (v : Lock) : Dependency :=
  {| Name := LName v; Reference := LVersion v; Repository := LRepository v;
     VcsType := LVcsType v; Subpackages := LSubpackages v;
     Arch := LArch v; Os := LOs v |}.

(** [newConf] before [newConf.DeDupe()]. *)
Definition conf_of_lock (lock : Lockfile) (conf : Config) : Config :=
  {| CName := CName conf;
     Imports := dep_of_lock <$> LImports lock;
     DevImports := dep_of_lock <$> LDevImports lock |}.

Definition Install (i : Installer) (lock : Lockfile) (conf : Config)
    : M (Config * option error) :=
  let* '(cwd, err) := call_Vendor in
  match err with
  | Some e => ret (conf, Some e)
  | None =>
      let newConf := DeDupe (conf_of_lock lock conf) in
      if decide (length (Imports newConf) = 0) then
        msg_Info "No dependencies found. Nothing installed.\n" [] ;;;
        ret (newConf, None)
      else
        ConcurrentUpdate (Imports newConf) cwd i ;;;
        ConcurrentUpdate (DevImports newConf) cwd i ;;;
        ret (newConf, None)
  end.

(** *** [Update] *)

Definition Update (i : Installer) (conf : Config)
    : M (option Lockfile * option error) :=
  let base := "." in
  let m := {| destination := filepath_Join base "vendor";
              cache := UseCache i;
              cacheGopath := UseCacheGopath i;
              useGopath := UseGopath i;
              home := Home i |} in
  let* r := call_NewResolver base in
  let* res := match r with
              | inr err => msg_Die "Failed to create a resolver: %s" [err]
              | inl res => ret res
              end in
  msg_Info "Resolving imports" [] ;;;
  let* '(packages, err) := allPackages (Imports conf) res m in
  (match err with
   | Some e => msg_Die "Failed to retrieve a list of dependencies: %s" [e]
   | None => ret tt
   end) ;;;
  msg_Warn "devImports not resolved." [] ;;;
  let deps := depsFromPackages NormalizeName packages in
  ConcurrentUpdate deps base i ;;;
  let '(hash, err) := Hash conf in
  match err with
  | Some e => ret (None, Some e)
  | None => ret (Some (NewLockfile deps hash), None)
  end.
End Operations.

(** The collaborators [E] with another [VcsUpdate]. *)
Definition with_VcsUpdate (E : Collaborators)
    (u : Dependency → string → Installer → @FS E → @FS E * option error)
    : Collaborators :=
  {| FS := @FS E;
     Resolver := @Resolver E;
     concurrentWorkers := @concurrentWorkers E;
     NormalizeName := @NormalizeName E;
     filepath_Join := @filepath_Join E;
     os_Stat := @os_Stat E;
     gpath_Vendor := @gpath_Vendor E;
     VcsGet := @VcsGet E;
     VcsUpdate := u;
     NewResolver := @NewResolver E;
     ResolveAll := @ResolveAll E;
     DeDupe := @DeDupe E;
     Hash := @Hash E |}.

(** ** Vocabulary of the pool's invariant *)

Definition busy1 (pc : worker_pc) : nat :=
  match pc with WUpdate _ | WDone => 1 | _ => 0 end.
Definition exited1 (pc : worker_pc) : nat :=
  match pc with WExited => 1 | _ => 0 end.
Definition selecting1 (pc : worker_pc) : nat :=
  match pc with WSelect => 1 | _ => 0 end.
Definition held1 (pc : worker_pc) : list Dependency :=
  match pc with WUpdate dep => [dep] | _ => [] end.

(** Workers between taking a dependency and [wg.Done()]. *)
Definition n_busy (ws : list worker_pc) : nat := sum_list_with busy1 ws.
(** Workers that have returned. *)
Definition n_exited (ws : list worker_pc) : nat := sum_list_with exited1 ws.
(** Workers waiting at the select. *)
Definition n_selecting (ws : list worker_pc) : nat := sum_list_with selecting1 ws.
(** Dependencies taken from the channel and not yet updated. *)
Definition held (ws : list worker_pc) : list Dependency := ws ≫= held1.

(** Steps a worker has left before it returns, counting one for the
    select that takes its stop token. *)
Definition worker_weight (pc : worker_pc) : nat :=
  match pc with WSelect => 1 | WUpdate _ => 3 | WDone => 2 | WExited => 0 end.

Section PoolInvariant.
Context {E : Collaborators}.
Variable deps : list Dependency.
Variable cwd : string.
Variable i : Installer.

(** The events a pool run writes: calls of [VcsUpdate] with the pool's own
    [cwd] and [i], and warnings. *)
Definition pool_event (e : Event) : Prop :=
  match e with
  | EvUpdate _ vend inst => vend = cwd ∧ inst = i
  | EvMsg LWarn _ _ => True
  | _ => False
  end.

(** Dependencies the caller has not yet put on the channel. *)
Definition main_rest (pc : main_pc) : list Dependency :=
  match pc with
  | MSpawn _ => deps
  | MLoop rest => rest
  | MSend dep rest => dep :: rest
  | _ => []
  end.

(** The caller's share of the WaitGroup counter. *)
Definition main_added (pc : main_pc) : nat :=
  match pc with MSend _ _ => 1 | _ => 0 end.

Definition spawned (pc : main_pc) : nat :=
  match pc with MSpawn ii => ii | _ => concurrentWorkers end.

Definition main_phase (s : pool FS) : Prop :=
  match p_main s with
  | MSpawn ii => ii ≤ concurrentWorkers ∧ p_sent s = 0 ∧ p_wg s = 0
  | MLoop _ | MSend _ _ | MWait => p_sent s = 0
  | MStop ii => ii ≤ concurrentWorkers ∧ p_sent s = ii ∧ p_wg s = 0
  | MReturned => p_sent s = concurrentWorkers ∧ p_wg s = 0
  end.

(** The invariant of a pool started with trace [t0]. *)
Record pool_inv (t0 : list Event) (s : pool FS) : Prop := {
  inv_trace : ∃ evs,
    p_trace s = t0 ++ evs ∧ Forall pool_event evs ∧
    updates_of evs ++ held (p_workers s) ++ p_in s ++ main_rest (p_main s)
      ≡ₚ deps;
  inv_wg : p_wg s = main_added (p_main s) + length (p_in s) + n_busy (p_workers s);
  inv_done : p_done s + n_exited (p_workers s) = p_sent s;
  inv_workers : length (p_workers s) = spawned (p_main s);
  inv_phase : main_phase s
}.

(** The number of steps left in any run from [s]. *)
Definition main_weight (pc : main_pc) : nat :=
  match pc with
  | MSpawn ii => 2 * (concurrentWorkers - ii) + 5 * length deps + concurrentWorkers + 4
  | MLoop rest => 5 * length rest + concurrentWorkers + 3
  | MSend _ rest => 5 * length rest + concurrentWorkers + 7
  | MWait => concurrentWorkers + 2
  | MStop ii => (concurrentWorkers - ii) + 1
  | MReturned => 0
  end.

Definition measure (s : pool FS) : nat :=
  main_weight (p_main s) + sum_list_with worker_weight (p_workers s)
  + 3 * length (p_in s).

(** The part of a pool state that decides which actions are enabled. *)
Definition control (s : pool FS)
    : main_pc * list worker_pc * list Dependency * nat * nat * nat :=
  (p_main s, p_workers s, p_in s, p_done s, p_wg s, p_sent s).
End PoolInvariant.

(** ** A concrete world for closed examples

    The theorems below hold for all collaborators.  To evaluate the model
    on concrete inputs, here is one small instance: the file system is the
    list of paths that exist, and the VCS primitives fail exactly for the
    repository [example.com/broken]. *)

Module Sample.

(** Splits [s] at its ([n]+1)-th slash. *)
Fixpoint split_at_slash (n : nat) (s : string) : string * string :=
  match s with
  | EmptyString => (EmptyString, EmptyString)
  | String c s' =>
      if Ascii.eqb c "/"%char then
        match n with
        | 0 => (EmptyString, s')
        | S n' => let '(r, x) := split_at_slash n' s' in (String c r, x)
        end
      else let '(r, x) := split_at_slash n s' in (String c r, x)
  end.

(** Modelled from the spec: util.NormalizeName is not part of
    installer.go.  It returns (repository-root, sub-package-suffix), "the
    suffix is whatever remains (possibly empty)", and the root of
    example.com/a/sub1 is example.com/a: here, the host and one more
    segment. *)
Definition normalize (name : string) : string * string :=
  split_at_slash 1 name.

(** [filepath.Join] on the shapes installer.go passes: the two parts with
    a separator, and a leading "./" cleaned away. *)
Definition join (a b : string) : string :=
  let p := a +:+ "/" +:+ b in
  default p (strip_prefix "./" p).

Definition broken : string := "example.com/broken".

Definition get (d : Dependency) (dest hm : string) (c cg ug : bool)
    (fs : list string) : list string * option error :=
  if decide (Name d = broken) then (fs, Some "unable to get repository")
  else (dest :: fs, None).

Definition update (d : Dependency) (vend : string) (i : Installer)
    (fs : list string) : list string * option error :=
  if decide (Name d = broken) then (fs, Some "unable to update repository")
  else (fs, None).

Definition vendor (fs : list string) : string * option error :=
  if decide ("vendor" ∈ fs) then ("vendor", None)
  else (EmptyString, Some "no vendor directory").

Definition new_resolver (base : string) (fs : list string) : unit + error :=
  if decide (base ∈ fs) then inl tt else inr "basedir does not exist".

(** A walk that reports one package per dependency, [NotFound] first for
    those without a working copy. *)
Fixpoint walk (ds : list Dependency) (acc : list string) (fs : list string)
    : Walk (list string) :=
  match ds with
  | [] => Answer acc None
  | d :: ds' =>
      let found := acc ++ ["vendor/" +:+ Name d +:+ "/pkg"] in
      if decide (("vendor/" +:+ Name d) ∈ fs) then walk ds' found fs
      else AskNotFound (Name d) (λ r fs',
             match r with
             | (true, _) => walk ds' found fs'
             | (false, Some e) => Answer [] (Some e)
             | (false, None) => walk ds' acc fs'
             end)
  end.

Definition env : Collaborators := {|
  FS := list string;
  Resolver := unit;
  concurrentWorkers := 2;
  NormalizeName := normalize;
  filepath_Join := join;
  os_Stat := λ fs p, bool_decide (p ∈ fs);
  gpath_Vendor := vendor;
  VcsGet := get;
  VcsUpdate := update;
  NewResolver := new_resolver;
  ResolveAll := λ _ ds fs, walk ds [] fs;
  DeDupe := λ c, c;
  Hash := λ c, ("sha256:" +:+ CName c, None)
|}.

Definition inst : Installer :=
  {| Force := false; Home := "/home/user/.glide"; UseCache := false;
     UseCacheGopath := false; UseGopath := false; UpdateVendored := false;
     DeleteUnused := false |}.

Definition handler : MissingPackageHandler :=
  {| destination := "vendor"; home := "/home/user/.glide"; cache := false;
     cacheGopath := false; useGopath := false |}.

Definition dep_a : Dependency := new_dep "example.com/a" [].
Definition dep_b : Dependency := new_dep "example.com/b" [].
Definition dep_broken : Dependency := new_dep broken [].

Definition lock_a : Lock := lock_of_dep dep_a.

(** A project directory with a vendor directory and nothing in it. *)
Definition fresh : World (list string) :=
  {| w_fs := ["."; "vendor"]; w_trace := []; w_sched := [] |}.

(** A directory without a vendor directory. *)
Definition bare : World (list string) :=
  {| w_fs := ["."]; w_trace := []; w_sched := [] |}.

(** An empty directory tree: not even the base directory resolves. *)
Definition nowhere : World (list string) :=
  {| w_fs := []; w_trace := []; w_sched := [] |}.

End Sample.

(** ** The contract of the VCS fetch

    What [VcsGet] is taken to do as an external collaborator ("clones or
    creates a working copy for a dependency at a target directory"): a
    fetch that succeeds leaves the target in place, and no fetch removes a
    path that exists. *)

Definition VcsGet_creates_target {E : Collaborators} : Prop :=
  ∀ d dest hm c cg ug fs fs',
    VcsGet d dest hm c cg ug fs = (fs', None) → os_Stat fs' dest = true.

Definition VcsGet_keeps_paths {E : Collaborators} : Prop :=
  ∀ d dest hm c cg ug fs fs' r p,
    VcsGet d dest hm c cg ug fs = (fs', r) →
    os_Stat fs p = true → os_Stat fs' p = true.

(** ** Two readings that the code does not bear out

    Stated as predicates so that they can be refuted on the sample world. *)

(** "[NotFound] fetches the package's repository root": the one fetch it
    makes is of a Dependency named by the root the normalizer computes. *)
Definition NotFound_fetches_root {E : Collaborators} : Prop :=
  ∀ (m : MissingPackageHandler) (pkg : string) (w : World FS),
    ∃ d dest,
      gets_of (w_trace (NotFound m pkg w).1) = gets_of (w_trace w) ++ [(d, dest)] ∧
      Name d = (NormalizeName pkg).1.

(** "[Install] on a lock file without imports returns a nil error",
    whatever else holds of the world. *)
Definition Install_nothing_returns_nil {E : Collaborators} : Prop :=
  ∀ (i : Installer) (lock : Lockfile) (conf : Config) (w : World FS),
    Imports (DeDupe (conf_of_lock lock conf)) = [] →
    ∃ w' c, Install i lock conf w = (w', Returned (c, None)).

(** ** Vocabulary of the further properties *)

Section Further.
Context {E : Collaborators}.

(** Updating the dependencies of a list one after the other, in the order
    of the list, as one goroutine would: the file system this leaves and
    the events it writes. *)
Fixpoint sequential_update (cwd : string) (i : Installer)
    (ds : list Dependency) (fs : FS) : FS * list Event :=
  match ds with
  | [] => (fs, [])
  | d :: ds' =>
      let '(fs1, r) := VcsUpdate d cwd i fs in
      let '(fs2, evs) := sequential_update cwd i ds' fs1 in
      (fs2, update_events cwd i d r ++ evs)
  end.

(** The events [checkoutImports] may write for the list [deps]: debug and
    info messages, and fetches of members of the list into their own
    directory under [dest] with the installer's settings. *)
Definition checkout_event (i : Installer) (dest : string)
    (deps : list Dependency) (e : Event) : Prop :=
  match e with
  | EvMsg lv _ _ => lv = LInfo ∨ lv = LDebug
  | EvGet d target hm c cg ug =>
      d ∈ deps ∧ target = filepath_Join dest (Name d) ∧ hm = Home i ∧
      c = UseCache i ∧ cg = UseCacheGopath i ∧ ug = UseGopath i
  | EvUpdate _ _ _ => False
  end.

(** The events of the resolution phase with the handler [m]: messages, and
    fetches of a bare Dependency into its own directory under the handler's
    destination with the handler's settings. *)
Definition walk_event (m : MissingPackageHandler) (e : Event) : Prop :=
  match e with
  | EvMsg _ _ _ => True
  | EvGet d target hm c cg ug =>
      d = new_dep (Name d) [] ∧
      target = filepath_Join (destination m) (Name d) ∧ hm = home m ∧
      c = cache m ∧ cg = cacheGopath m ∧ ug = useGopath m
  | EvUpdate _ _ _ => False
  end.

(** The names [checkoutImports] reports as already found. *)
Definition found_of (t : list Event) : list string :=
  omap (λ e, match e with
             | EvMsg LDebug _ [name] => Some name
             | _ => None
             end) t.

(** What [checkoutImports] dealt with, in the order of the trace: a
    dependency reported as already found, by the name in the debug message,
    and a dependency fetched, by its name and itself. *)
Definition handled_of (t : list Event) : list (string * option Dependency) :=
  omap (λ e, match e with
             | EvMsg LDebug _ [name] => Some (name, None)
             | EvGet d _ _ _ _ _ => Some (Name d, Some d)
             | _ => None
             end) t.

(** The entry [h] of such a list is for the dependency [c]: [c] was
    reported as found by its name, or [c] itself was fetched. *)
Definition handles (h : string * option Dependency) (c : Dependency) : Prop :=
  h = (Name c, None) ∨ h = (Name c, Some c).

(** The fetches recorded in a trace made again, one after the other, from
    the file system [fs]: the file system they leave and what each call of
    [VcsGet] returned. *)
Fixpoint fetch_results (fs : FS) (t : list Event) : FS * list (option error) :=
  match t with
  | [] => (fs, [])
  | EvGet d target hm c cg ug :: t' =>
      let '(fs1, r) := VcsGet d target hm c cg ug fs in
      let '(fs2, rs) := fetch_results fs1 t' in
      (fs2, r :: rs)
  | _ :: t' => fetch_results fs t'
  end.

(** The course of a call of [checkoutImports], read off its trace.  When it
    returns nil it has dealt with the dependencies of the list one by one in
    their order, each reported as found or fetched, and every fetch returned
    nil.  When it returns an error, it has dealt in this way with the
    dependencies before some dependency [d] of the list, every fetch for
    them returned nil, the fetch of [d] came last and returned this error:
    nothing that follows [d] in the list was looked at. *)
Definition checkout_course (i : Installer) (dest : string)
    (deps : list Dependency) (fs fs' : FS) (evs : list Event)
    (r : option error) : Prop :=
  match r with
  | None =>
      Forall2 handles (handled_of evs) deps ∧
      ∃ oks, fetch_results fs evs = (fs', oks) ∧ Forall (λ x, x = None) oks
  | Some e =>
      ∃ evs' pre d post fs0 oks,
        evs = evs' ++ [EvGet d (filepath_Join dest (Name d)) (Home i)
                         (UseCache i) (UseCacheGopath i) (UseGopath i)] ∧
        deps = pre ++ d :: post ∧
        Forall2 handles (handled_of evs') pre ∧
        fetch_results fs evs' = (fs0, oks) ∧
        Forall (λ x, x = None) oks ∧
        os_Stat fs0 (filepath_Join dest (Name d)) = false ∧
        VcsGet d (filepath_Join dest (Name d)) (Home i) (UseCache i)
          (UseCacheGopath i) (UseGopath i) fs0 = (fs', Some e)
  end.
End Further.

(** The collaborators [E] with a pool of [n] workers. *)
Definition with_workers (E : Collaborators) (n : nat) : Collaborators :=
  {| FS := @FS E;
     Resolver := @Resolver E;
     concurrentWorkers := n;
     NormalizeName := @NormalizeName E;
     filepath_Join := @filepath_Join E;
     os_Stat := @os_Stat E;
     gpath_Vendor := @gpath_Vendor E;
     VcsGet := @VcsGet E;
     VcsUpdate := @VcsUpdate E;
     NewResolver := @NewResolver E;
     ResolveAll := @ResolveAll E;
     DeDupe := @DeDupe E;
     Hash := @Hash E |}.
(** ** Lemmas on [first_seen] *)

Lemma first_seen_elem_of (l : list string) (x : string) :
  x ∈ first_seen l ↔ x ∈ l.
Proof.
  induction l as [|y l IH]; simpl; [done|].
  rewrite !elem_of_cons, list_elem_of_filter, IH.
  destruct (decide (x = y)) as [->|Hne]; [by split; [left|left]|].
  split; [intros [?|[_ ?]]; [done|by right]|intros [?|?]; [done|by right]].
Qed.

Lemma first_seen_NoDup (l : list string) : NoDup (first_seen l).
Proof.
  induction l as [|y l IH]; simpl; [constructor|].
  constructor.
  - rewrite list_elem_of_filter. intros [Hne _]. by apply Hne.
  - by apply NoDup_filter.
Qed.

Lemma first_seen_snoc (l : list string) (x : string) :
  first_seen (l ++ [x]) =
  if decide (x ∈ l) then first_seen l else first_seen l ++ [x].
Proof.
  induction l as [|y l IH]; simpl.
  - destruct (decide (x ∈ [])) as [Hin|_]; [by apply elem_of_nil in Hin|done].
  - rewrite IH. destruct (decide (x ∈ l)) as [Hin|Hin].
    + destruct (decide (x ∈ y :: l)) as [_|Hn]; [done|].
      exfalso. apply Hn. by right.
    + rewrite filter_app. destruct (decide (x = y)) as [->|Hne].
      * destruct (decide (y ∈ y :: l)) as [_|Hn]; [|exfalso; apply Hn; by left].
        rewrite (filter_cons_False _ y) by (intros Hc; by apply Hc).
        rewrite filter_nil. by rewrite app_nil_r.
      * destruct (decide (x ∈ y :: l)) as [Hc|_].
        { apply elem_of_cons in Hc as [?|?]; done. }
        by rewrite (filter_cons_True _ x) by done.
Qed.

(** In [first_seen l], [x] before [y] means: [x] occurs in [l] at a place
    before which [y] has not occurred. *)
Lemma first_seen_order (l : list string) (i j : nat) (x y : string) :
  first_seen l !! i = Some x → first_seen l !! j = Some y → i < j →
  ∃ k, l !! k = Some x ∧ y ∉ take (S k) l.
Proof.
  induction l as [|z l IH] using rev_ind; [done|].
  rewrite first_seen_snoc. destruct (decide (z ∈ l)) as [Hz|Hz].
  - intros Hi Hj Hlt. destruct (IH Hi Hj Hlt) as (k & Hk & Hy).
    exists k. pose proof (lookup_lt_Some _ _ _ Hk) as Hklt. split.
    + by rewrite lookup_app_l.
    + rewrite take_app_le by lia. done.
  - intros Hi Hj Hlt.
    destruct (decide (j < length (first_seen l))) as [Hjl|Hjl].
    + rewrite lookup_app_l in Hi by lia. rewrite lookup_app_l in Hj by lia.
      destruct (IH Hi Hj Hlt) as (k & Hk & Hy).
      exists k. pose proof (lookup_lt_Some _ _ _ Hk) as Hklt. split.
      * by rewrite lookup_app_l.
      * rewrite take_app_le by lia. done.
    + pose proof (lookup_lt_Some _ _ _ Hj) as Hjlt.
      rewrite length_app in Hjlt. simpl in Hjlt.
      assert (j = length (first_seen l)) as -> by lia.
      rewrite lookup_app_l in Hi by lia.
      rewrite list_lookup_middle in Hj by done. simplify_eq.
      assert (x ∈ l) as Hxl.
      { apply first_seen_elem_of. by eapply list_elem_of_lookup_2. }
      apply list_elem_of_lookup in Hxl as [k Hk].
      exists k. pose proof (lookup_lt_Some _ _ _ Hk) as Hklt. split.
      * by rewrite lookup_app_l.
      * rewrite take_app_le by lia. intros Hin. apply Hz.
        by eapply (subseteq_take (S k)).
Qed.

(** ** The aggregator loop invariant *)

Section AggregatorProofs.
Variable NormalizeName : string → string * string.

Abbreviation root := (root_of NormalizeName).
Abbreviation suffix := (suffix_of NormalizeName).
Abbreviation step := (agg_step NormalizeName).

(** What holds of the loop state after the paths [seen_pkgs] have been
    processed. *)
Record agg_inv (seen_pkgs : list string) (st : agg_state) : Prop := {
  inv_deps : deps st = seq 0 (length (heap st));
  inv_names : Name <$> heap st = first_seen (root <$> seen_pkgs);
  inv_seen : ∀ r ptr,
    seen st !! r = Some ptr ↔ (Name <$> heap st) !! ptr = Some r;
  inv_cells : ∀ ptr d,
    heap st !! ptr = Some d →
    d = new_dep (Name d) (suffixes_for NormalizeName (Name d) seen_pkgs)
}.

Lemma agg_inv_init : agg_inv [] agg_init.
Proof. split; simpl; done. Qed.

Lemma suffixes_for_snoc (r p : string) (l : list string) :
  suffixes_for NormalizeName r (l ++ [p]) =
  suffixes_for NormalizeName r l ++
  (if decide (root p = r)
   then (if decide (suffix p = "") then [] else [suffix p]) else []).
Proof.
  unfold suffixes_for. rewrite omap_app. f_equal. simpl.
  destruct (decide (root p = r)); [|done].
  by destruct (decide (suffix p = "")).
Qed.

Lemma suffixes_for_not_in (r : string) (l : list string) :
  r ∉ (root <$> l) → suffixes_for NormalizeName r l = [].
Proof.
  induction l as [|p l IH]; [done|]. rewrite fmap_cons, not_elem_of_cons.
  intros [Hne Hr]. unfold suffixes_for in *. simpl.
  destruct (decide (root p = r)) as [Heq|_]; [by rewrite Heq in Hne|].
  by apply IH.
Qed.

Lemma alter_append_names (sp : string) (ptr : nat) (h : list Dependency) :
  Name <$> alter (append_subpackage sp) ptr h = Name <$> h.
Proof.
  apply list_eq. intros i. rewrite !list_lookup_fmap.
  destruct (decide (ptr = i)) as [->|Hne].
  - rewrite list_lookup_alter_eq. by destruct (h !! i).
  - by rewrite list_lookup_alter_ne.
Qed.

Lemma agg_inv_step (seen_pkgs : list string) (st : agg_state) (p : string) :
  agg_inv seen_pkgs st → agg_inv (seen_pkgs ++ [p]) (step st p).
Proof.
  intros [Hdeps Hnames Hseen Hcells].
  unfold agg_step. destruct (NormalizeName p) as [rr sp] eqn:Hp.
  assert (root p = rr) as Hroot by (unfold root_of; by rewrite Hp).
  assert (suffix p = sp) as Hsuf by (unfold suffix_of; by rewrite Hp).
  destruct (seen st !! rr) as [ptr|] eqn:Hlook.
  - (* root already seen *)
    assert ((Name <$> heap st) !! ptr = Some rr) as Hptr by by apply Hseen.
    assert (rr ∈ root <$> seen_pkgs) as Hin.
    { apply first_seen_elem_of. rewrite <- Hnames.
      by eapply list_elem_of_lookup_2. }
    assert (first_seen (root <$> (seen_pkgs ++ [p])) = first_seen (root <$> seen_pkgs))
      as Hfs.
    { rewrite fmap_app. simpl. rewrite first_seen_snoc, Hroot.
      by rewrite decide_True. }
    destruct (decide (sp = "")) as [Hsp|Hsp].
    + split; try done; [by rewrite Hfs|].
      intros q d Hq. rewrite suffixes_for_snoc, Hsuf.
      rewrite (Hcells q d Hq) at 1. simpl. f_equal.
      destruct (decide (root p = Name d)); [|by rewrite app_nil_r].
      rewrite decide_True by done. by rewrite app_nil_r.
    + split; simpl.
      * by rewrite length_alter.
      * by rewrite alter_append_names, Hfs.
      * intros r q. rewrite alter_append_names. apply Hseen.
      * intros q d. rewrite suffixes_for_snoc, Hsuf, Hroot.
        rewrite (decide_False (P := sp = "")) by done.
        destruct (decide (ptr = q)) as [->|Hne].
        -- rewrite list_lookup_alter_eq.
           destruct (heap st !! q) as [d0|] eqn:Hq; [|done].
           simpl. intros [= <-]. simpl.
           rewrite list_lookup_fmap, Hq in Hptr. simpl in Hptr.
           injection Hptr as Hn. rewrite Hn, decide_True by done.
           rewrite (Hcells q d0 Hq) at 1. unfold append_subpackage, new_dep.
           simpl. by rewrite Hn.
        -- rewrite list_lookup_alter_ne by done. intros Hq.
           assert (rr ≠ Name d) as Hnd.
           { intros ->. apply Hne.
             assert (seen st !! Name d = Some q) as Hsq.
             { apply Hseen. by rewrite list_lookup_fmap, Hq. }
             congruence. }
           rewrite decide_False by done. rewrite app_nil_r. by apply (Hcells q d).
  - (* first appearance of the root *)
    assert (rr ∉ root <$> seen_pkgs) as Hnin.
    { rewrite <- first_seen_elem_of, <- Hnames.
      intros [q Hq]%list_elem_of_lookup. apply (Hseen rr q) in Hq. congruence. }
    split; simpl.
    + rewrite length_app. simpl. rewrite Nat.add_1_r, seq_S. by rewrite Hdeps.
    + rewrite !fmap_app. simpl. rewrite first_seen_snoc, Hroot.
      rewrite decide_False by done. by rewrite Hnames.
    + intros r q. rewrite fmap_app. simpl.
      destruct (decide (rr = r)) as [<-|Hne].
      * rewrite lookup_insert_eq. split.
        -- intros [= <-]. rewrite <- (length_fmap Name).
           by rewrite list_lookup_middle.
        -- intros Hq. f_equal.
           destruct (decide (q < length (Name <$> heap st))) as [Hlt|Hge].
           ++ rewrite lookup_app_l in Hq by done. apply (Hseen rr q) in Hq. congruence.
           ++ apply lookup_lt_Some in Hq. rewrite length_app in Hq.
              simpl in Hq. rewrite length_fmap in *. lia.
      * rewrite lookup_insert_ne by done. rewrite Hseen. split.
        -- intros Hq. rewrite lookup_app_l; [done|]. by eapply lookup_lt_Some.
        -- intros Hq.
           destruct (decide (q < length (Name <$> heap st))) as [Hlt|Hge].
           ++ by rewrite lookup_app_l in Hq.
           ++ apply lookup_lt_Some in Hq as Hq'. rewrite length_app in Hq'.
              simpl in Hq'.
              assert (q = length (Name <$> heap st)) as -> by lia.
              rewrite list_lookup_middle in Hq by done. congruence.
    + intros q d. rewrite suffixes_for_snoc, Hsuf, Hroot.
      destruct (decide (q < length (heap st))) as [Hlt|Hge].
      * rewrite lookup_app_l by done. intros Hq.
        assert (rr ≠ Name d) as Hnd.
        { intros ->. apply Hnin. apply first_seen_elem_of. rewrite <- Hnames.
          apply list_elem_of_lookup. exists q. by rewrite list_lookup_fmap, Hq. }
        rewrite decide_False by done. rewrite app_nil_r. by apply (Hcells q d).
      * intros Hq. apply lookup_lt_Some in Hq as Hq'. rewrite length_app in Hq'.
        simpl in Hq'. assert (q = length (heap st)) as -> by lia.
        rewrite list_lookup_middle in Hq by done. injection Hq as <-. simpl.
        rewrite (decide_True (P := rr = rr)) by done.
        rewrite suffixes_for_not_in by done.
        by destruct (decide (sp = "")).
Qed.

Lemma agg_inv_run (pkgs : list string) :
  agg_inv pkgs (agg_run NormalizeName pkgs).
Proof.
  unfold agg_run. induction pkgs as [|p pkgs IH] using rev_ind.
  - apply agg_inv_init.
  - rewrite foldl_snoc. by apply agg_inv_step.
Qed.

Lemma deref_all {A} (l : list A) :
  omap (λ ptr, l !! ptr) (seq 0 (length l)) = l.
Proof.
  induction l as [|x l IH] using rev_ind; [done|].
  rewrite length_app. simpl. rewrite Nat.add_1_r, seq_S, omap_app. simpl.
  rewrite list_lookup_middle by done. f_equal.
  rewrite <- IH at 2. apply list_omap_ext. apply Forall2_same_length_lookup_2; [done|].
  intros i a b Ha Hb. assert (a = b) as <- by congruence.
  apply lookup_seq in Ha as [-> Hlt]. simpl. by rewrite lookup_app_l.
Qed.

(** Closed form of the aggregator: one fresh Dependency per distinct root,
    at the place of the root's first appearance, carrying the suffixes
    collected for that root. *)
Lemma depsFromPackages_closed_form (pkgs : list string) :
  depsFromPackages NormalizeName pkgs =
  (λ r, new_dep r (suffixes_for NormalizeName r pkgs)) <$>
    first_seen (root <$> pkgs).
Proof.
  destruct (agg_inv_run pkgs) as [Hdeps Hnames Hseen Hcells].
  unfold depsFromPackages. simpl. rewrite Hdeps, deref_all.
  rewrite <- Hnames. apply list_eq. intros i.
  rewrite <- list_fmap_compose, list_lookup_fmap.
  destruct (heap (agg_run NormalizeName pkgs) !! i) as [d|] eqn:Hi; [|done].
  simpl. f_equal. by apply (Hcells i d).
Qed.
End AggregatorProofs.

(** ** Counting over the list of workers *)

Lemma sum_list_insert {A} (f : A → nat) (l : list A) (k : nat) (x y : A) :
  l !! k = Some x →
  sum_list_with f (<[k := y]> l) + f x = sum_list_with f l + f y.
Proof.
  revert k. induction l as [|z l IH]; intros [|k] Hk; simplify_eq/=.
  - lia.
  - specialize (IH k Hk). lia.
Qed.

Lemma sum_list_lookup_le {A} (f : A → nat) (l : list A) (k : nat) (x : A) :
  l !! k = Some x → f x ≤ sum_list_with f l.
Proof.
  revert k. induction l as [|z l IH]; intros [|k] Hk; simplify_eq/=.
  - lia.
  - specialize (IH k Hk). lia.
Qed.

Lemma sum_list_pos_lookup {A} (f : A → nat) (l : list A) :
  0 < sum_list_with f l → ∃ k x, l !! k = Some x ∧ 0 < f x.
Proof.
  induction l as [|z l IH]; csimpl; [lia|]. intros Hpos.
  destruct (decide (0 < f z)) as [Hz|Hz].
  - by exists 0, z.
  - destruct (IH ltac:(lia)) as (k & x & Hk & Hx). by exists (S k), x.
Qed.

Lemma held_insert (ws : list worker_pc) (k : nat) (x y : worker_pc) :
  ws !! k = Some x →
  held (<[k := y]> ws) ++ held1 x ≡ₚ held ws ++ held1 y.
Proof.
  unfold held. revert k. induction ws as [|z ws IH]; intros [|k] Hk; simplify_eq/=.
  - rewrite <- !app_assoc. rewrite (Permutation_app_comm (held1 x) _).
    rewrite !app_assoc. apply Permutation_app_tail, Permutation_app_comm.
  - rewrite <- !app_assoc. apply Permutation_app_head. by apply IH.
Qed.

Lemma held_nil_of_not_busy (ws : list worker_pc) : n_busy ws = 0 → held ws = [].
Proof.
  unfold n_busy, held. induction ws as [|z ws IH]; csimpl; [done|].
  intros Hz. destruct z; simpl in *; try lia; by apply IH.
Qed.

Lemma exited_lt_length (ws : list worker_pc) (k : nat) (pc : worker_pc) :
  ws !! k = Some pc → pc ≠ WExited → n_exited ws < length ws.
Proof.
  unfold n_exited. revert k. induction ws as [|z ws IH]; intros k Hk Hpc; [done|].
  assert (sum_list_with exited1 ws ≤ length ws) as Hle.
  { clear. induction ws as [|z ws IH]; csimpl; [lia|]. destruct z; simpl; lia. }
  destruct k as [|k]; simplify_eq/=.
  - destruct pc; simpl; try done; lia.
  - specialize (IH k Hk Hpc). destruct z; simpl; lia.
Qed.

Lemma all_exited_or_not (ws : list worker_pc) :
  Forall (λ pc, pc = WExited) ws ∨ ∃ k pc, ws !! k = Some pc ∧ pc ≠ WExited.
Proof.
  induction ws as [|z ws [IH|(k & pc & Hk & Hpc)]].
  - left. constructor.
  - destruct z; [right; by exists 0, WSelect|right; eexists 0, _; by split
                |right; by exists 0, WDone|left; by constructor].
  - right. by exists (S k), pc.
Qed.

Lemma selecting_exited_length (ws : list worker_pc) :
  n_busy ws = 0 → n_selecting ws + n_exited ws = length ws.
Proof.
  unfold n_busy, n_selecting, n_exited.
  induction ws as [|z ws IH]; csimpl; [done|].
  destruct z; simpl; intros Hb; try lia; specialize (IH ltac:(lia)); lia.
Qed.

Lemma updates_of_app (t1 t2 : list Event) :
  updates_of (t1 ++ t2) = updates_of t1 ++ updates_of t2.
Proof. apply omap_app. Qed.

Lemma gets_of_app (t1 t2 : list Event) :
  gets_of (t1 ++ t2) = gets_of t1 ++ gets_of t2.
Proof. apply omap_app. Qed.

(** ** The pool: termination measure, invariant, progress *)

Section PoolProofs.
Context {E : Collaborators}.
Variable deps : list Dependency.
Variable cwd : string.
Variable i : Installer.

Abbreviation pstep := (step deps cwd i).
Abbreviation pinv := (pool_inv deps cwd i).
Abbreviation pmeasure := (measure deps).

Lemma update_events_updates (dep : Dependency) (r : option error) :
  updates_of (update_events cwd i dep r) = [dep].
Proof. by destruct r. Qed.

Lemma update_events_pool (dep : Dependency) (r : option error) :
  Forall (pool_event cwd i) (update_events cwd i dep r).
Proof. destruct r; repeat constructor. Qed.

(** Every step uses up exactly one unit of the measure: no run is longer
    than the measure of the state it starts in. *)
Lemma step_measure (a : action) (s s' : pool FS) :
  pstep a s = Some s' → pmeasure s = S (pmeasure s').
Proof.
  destruct s as [pc ws inq dn wg sent fs t]. unfold step, main_step, measure.
  destruct a as [|w|w|w]; simpl.
  - destruct pc as [ii|[|dep rest]|dep rest| |ii|]; simpl;
      repeat case_decide; intros; simplify_eq/=;
      rewrite ?sum_list_with_app, ?length_app; simpl; lia.
  - destruct (ws !! w) as [[| | |]|] eqn:Hw; try done.
    destruct inq as [|dep rest]; [done|]. intros; simplify_eq/=.
    pose proof (sum_list_insert worker_weight ws w WSelect (WUpdate dep) Hw).
    simpl in *. lia.
  - destruct (ws !! w) as [[| | |]|] eqn:Hw; try done.
    destruct dn as [|n]; [done|]. intros; simplify_eq/=.
    pose proof (sum_list_insert worker_weight ws w WSelect WExited Hw).
    simpl in *. lia.
  - destruct (ws !! w) as [[|dep| |]|] eqn:Hw; try done.
    + destruct (VcsUpdate dep cwd i fs) as [fs' r]. intros; simplify_eq/=.
      pose proof (sum_list_insert worker_weight ws w (WUpdate dep) WDone Hw).
      simpl in *. lia.
    + destruct wg as [|n]; [done|]. intros; simplify_eq/=.
      pose proof (sum_list_insert worker_weight ws w WDone WSelect Hw).
      simpl in *. lia.
Qed.

Lemma exec_measure (acts : list action) (s s' : pool FS) :
  exec deps cwd i acts s = Some s' → pmeasure s = length acts + pmeasure s'.
Proof.
  revert s. induction acts as [|a acts IH]; intros s; simpl.
  - by intros [= ->].
  - destruct (pstep a s) as [s1|] eqn:Hs; [|done]. intros Hex.
    rewrite (step_measure _ _ _ Hs), (IH _ Hex). lia.
Qed.

Lemma pool_inv_init (fs : FS) (t0 : list Event) :
  pinv t0 (pool_init fs t0).
Proof.
  split; simpl; try done.
  - exists []. rewrite app_nil_r. repeat split; [constructor|done].
  - repeat split; lia.
Qed.
(** The facts about a worker's change of program counter that the
    invariant needs. *)
Lemma worker_change (ws : list worker_pc) (w : nat) (x y : worker_pc) :
  ws !! w = Some x →
  n_busy (<[w := y]> ws) + busy1 x = n_busy ws + busy1 y ∧
  n_exited (<[w := y]> ws) + exited1 x = n_exited ws + exited1 y ∧
  held (<[w := y]> ws) ++ held1 x ≡ₚ held ws ++ held1 y ∧
  length (<[w := y]> ws) = length ws.
Proof.
  intros Hw. repeat split.
  - by apply sum_list_insert.
  - by apply sum_list_insert.
  - by apply held_insert.
  - apply length_insert.
Qed.

Lemma main_step_inv (t0 : list Event) (s s' : pool FS) :
  pinv t0 s → main_step deps s = Some s' → pinv t0 s'.
Proof.
  destruct s as [pc ws inq dn wg sent fs t].
  intros [(evs & Ht & Hev & Hperm) Hwg Hdone Hws Hph]. simpl in *.
  unfold main_step, main_phase in *. simpl in *.
  destruct pc as [ii|[|dep rest]|dep rest| |ii|]; simpl in *;
    repeat case_decide; intros; simplify_eq/=;
    (split; simpl; unfold main_phase, n_busy, n_exited, held in *; simpl in *;
     rewrite ?sum_list_with_app, ?bind_app, ?length_app; simpl;
     rewrite ?app_nil_r in *; try done; try lia; try (by exists evs)).
  (* in <- dep *)
  exists evs. repeat split; try done.
  rewrite <- Hperm. by rewrite <- (app_assoc inq [dep] rest).
Qed.

Lemma step_inv (t0 : list Event) (a : action) (s s' : pool FS) :
  pinv t0 s → pstep a s = Some s' → pinv t0 s'.
Proof.
  destruct a as [|w|w|w]; [apply main_step_inv| | |];
    destruct s as [pc ws inq dn wg sent fs t];
    intros [(evs & Ht & Hev & Hperm) Hwg Hdone Hws Hph]; simpl in *.
  - (* case dep := <-ch *)
    destruct (ws !! w) as [[| | |]|] eqn:Hw; try done.
    destruct inq as [|dep rest]; [done|]. intros; simplify_eq/=.
    destruct (worker_change ws w WSelect (WUpdate dep) Hw) as (Hb & He & Hh & Hl).
    simpl in *. rewrite app_nil_r in Hh.
    split; simpl.
    + exists evs. repeat split; try done.
      etrans; [|apply Hperm]. apply Permutation_app_head. rewrite Hh.
      by rewrite <- app_assoc.
    + lia.
    + lia.
    + by rewrite Hl.
    + unfold main_phase in *. simpl in *. destruct pc; simpl in *; lia.
  - (* case <-done *)
    destruct (ws !! w) as [[| | |]|] eqn:Hw; try done.
    destruct dn as [|n]; [done|]. intros; simplify_eq/=.
    destruct (worker_change ws w WSelect WExited Hw) as (Hb & He & Hh & Hl).
    simpl in *. rewrite !app_nil_r in Hh.
    split; simpl.
    + exists evs. repeat split; try done.
      etrans; [|apply Hperm]. apply Permutation_app_head.
      by apply Permutation_app_tail.
    + lia.
    + lia.
    + by rewrite Hl.
    + unfold main_phase in *. simpl in *. destruct pc; simpl in *; lia.
  - destruct (ws !! w) as [[|dep| |]|] eqn:Hw; try done.
    + (* VcsUpdate(dep, cwd, i), and the warning if it fails *)
      destruct (VcsUpdate dep cwd i fs) as [fs' r]. intros; simplify_eq/=.
      destruct (worker_change ws w (WUpdate dep) WDone Hw) as (Hb & He & Hh & Hl).
      simpl in *. rewrite app_nil_r in Hh.
      split; simpl.
      * exists (evs ++ update_events cwd i dep r). repeat split.
        -- by rewrite app_assoc.
        -- apply Forall_app. split; [done|apply update_events_pool].
        -- rewrite updates_of_app, update_events_updates.
           etrans; [|apply Hperm]. rewrite <- !app_assoc.
           apply Permutation_app_head. rewrite <- Hh, <- !app_assoc. simpl.
           apply Permutation_middle.
      * lia.
      * lia.
      * by rewrite Hl.
      * unfold main_phase in *. simpl in *. destruct pc; simpl in *; lia.
    + (* wg.Done() *)
      destruct wg as [|n]; [done|]. intros; simplify_eq/=.
      destruct (worker_change ws w WDone WSelect Hw) as (Hb & He & Hh & Hl).
      simpl in *. rewrite !app_nil_r in Hh.
      split; simpl.
      * exists evs. repeat split; try done.
        etrans; [|apply Hperm]. apply Permutation_app_head.
        by apply Permutation_app_tail.
      * lia.
      * lia.
      * by rewrite Hl.
      * unfold main_phase in *. simpl in *. destruct pc; simpl in *; lia.
Qed.

Lemma exec_inv (t0 : list Event) (acts : list action) (s s' : pool FS) :
  pinv t0 s → exec deps cwd i acts s = Some s' → pinv t0 s'.
Proof.
  revert s. induction acts as [|a acts IH]; intros s Hinv; simpl.
  - by intros [= <-].
  - destruct (pstep a s) as [s1|] eqn:Hs; [|done].
    apply IH. by eapply step_inv.
Qed.
(** Once the caller is past [wg.Wait()], nothing is in flight: every
    update has been made, and the workers are at their select or gone. *)
Lemma inv_after_wait (t0 : list Event) (s : pool FS) :
  pinv t0 s → p_wg s = 0 →
  p_in s = [] ∧ n_busy (p_workers s) = 0 ∧ held (p_workers s) = [] ∧
  Forall (λ pc, pc = WSelect ∨ pc = WExited) (p_workers s).
Proof.
  intros [_ Hwg _ _ _] Hz. rewrite Hz in Hwg.
  assert (n_busy (p_workers s) = 0) as Hb by lia.
  repeat split; [|done|by apply held_nil_of_not_busy|].
  - apply length_zero_iff_nil. lia.
  - apply Forall_forall. intros pc Hpc.
    apply list_elem_of_lookup in Hpc as [k Hk].
    pose proof (sum_list_lookup_le busy1 _ _ _ Hk) as Hle.
    unfold n_busy in Hb. destruct pc; simpl in *; auto; lia.
Qed.

(** No deadlock: with at least one worker, in every state the invariant
    allows either all goroutines are gone or some action is enabled. *)
Lemma progress (t0 : list Event) (s : pool FS) :
  0 < concurrentWorkers → pinv t0 s →
  quiescent s ∨ ∃ a, is_Some (pstep a s).
Proof.
  intros HW Hinv. pose proof Hinv as [_ Hwg Hdone Hws Hph].
  destruct s as [pc ws inq dn wg sent fs t]. unfold main_phase in Hph.
  simpl in *. destruct pc as [ii|[|dep rest]|dep rest| |ii|]; simpl in *.
  - right. exists AMain. unfold step, main_step. simpl. by case_decide.
  - right. by exists AMain.
  - right. by exists AMain.
  - (* at the send *)
    destruct (decide (length inq < concurrentWorkers)) as [Hlt|Hge].
    { right. exists AMain. unfold step, main_step. simpl. by rewrite decide_True. }
    right. destruct (lookup_lt_is_Some_2 ws 0) as [wpc Hw]; [lia|].
    destruct inq as [|d0 inq]; [simpl in Hge; lia|].
    destruct wpc as [|d1| |].
    + exists (ARecv 0). unfold step. simpl. by rewrite Hw.
    + exists (AWork 0). unfold step. simpl. rewrite Hw.
      by destruct (VcsUpdate d1 cwd i fs).
    + exists (AWork 0). unfold step. simpl. rewrite Hw. by rewrite Hwg.
    + pose proof (sum_list_lookup_le exited1 _ _ _ Hw). unfold n_exited in *.
      simpl in *. lia.
  - (* at wg.Wait() *)
    destruct (decide (wg = 0)) as [Hz|Hnz].
    { right. exists AMain. unfold step, main_step. simpl. by rewrite decide_True. }
    right. destruct (decide (0 < n_busy ws)) as [Hb|Hb].
    + apply sum_list_pos_lookup in Hb as (w & wpc & Hw & Hpos).
      exists (AWork w). unfold step. simpl. rewrite Hw.
      destruct wpc as [|d1| |]; simpl in Hpos; try lia.
      * by destruct (VcsUpdate d1 cwd i fs).
      * destruct wg; [done|]. done.
    + destruct inq as [|d0 inq]; [simpl in *; lia|].
      destruct (lookup_lt_is_Some_2 ws 0) as [wpc Hw]; [lia|].
      pose proof (sum_list_lookup_le busy1 _ _ _ Hw) as Hle1.
      pose proof (sum_list_lookup_le exited1 _ _ _ Hw) as Hle2.
      unfold n_busy, n_exited in *.
      exists (ARecv 0). unfold step. simpl. rewrite Hw.
      destruct wpc; simpl in *; try lia. done.
  - (* sending the stop tokens *)
    right. exists AMain. unfold step, main_step. simpl.
    destruct (decide (ii < concurrentWorkers)); [|done].
    rewrite decide_True by lia. done.
  - (* the caller has returned *)
    destruct (all_exited_or_not ws) as [Hall|(w & wpc & Hw & Hne)].
    { by left. }
    right. exists (AStop w). unfold step. simpl. rewrite Hw.
    pose proof (exited_lt_length _ _ _ Hw Hne) as Hlt.
    pose proof (sum_list_lookup_le busy1 _ _ _ Hw) as Hle1.
    unfold n_busy in *.
    destruct wpc; simpl in *; try lia; try done.
    destruct dn; [lia|done].
Qed.

Lemma enabled_spec (a : action) (s : pool FS) :
  a ∈ enabled deps cwd i s ↔ is_Some (pstep a s).
Proof.
  unfold enabled. rewrite list_elem_of_filter. split; [by intros [? _]|].
  intros Hs. split; [done|]. unfold candidates.
  assert (∀ w, is_Some (p_workers s !! w) →
    ∀ a', a' ∈ [ARecv w; AStop w; AWork w] →
    a' ∈ AMain :: (seq 0 (length (p_workers s)) ≫= λ w, [ARecv w; AStop w; AWork w]))
    as Hin.
  { intros w Hw a' Ha'. right. apply list_elem_of_bind. exists w. split; [done|].
    apply elem_of_seq. apply lookup_lt_is_Some in Hw. lia. }
  destruct a as [|w|w|w]; [by left| | |]; unfold step in Hs;
    (apply (Hin w); [|set_solver]);
    destruct (p_workers s !! w); try done; by destruct Hs.
Qed.

Lemma enabled_nil_measure (s : pool FS) :
  pmeasure s = 0 → enabled deps cwd i s = [].
Proof.
  intros Hz. destruct (enabled deps cwd i s) as [|a en] eqn:Hen; [done|].
  assert (a ∈ enabled deps cwd i s) as Ha by (rewrite Hen; by left).
  apply enabled_spec in Ha as [s' Hs']. apply step_measure in Hs'. lia.
Qed.

(** A scheduled run is a run, and with fuel for the whole measure it ends
    where nothing is enabled. *)
Lemma run_spec (fuel : nat) (sched : list nat) (s : pool FS) :
  ∃ acts, exec deps cwd i acts s = Some (run deps cwd i fuel sched s).2 ∧
          (pmeasure s ≤ fuel → enabled deps cwd i (run deps cwd i fuel sched s).2 = []).
Proof.
  revert sched s. induction fuel as [|fuel IH]; intros sched s; simpl.
  - exists []. split; [done|]. intros Hle. apply enabled_nil_measure. lia.
  - destruct (enabled deps cwd i s !! _) as [a|] eqn:Hlook.
    + assert (is_Some (pstep a s)) as [s' Hs'].
      { apply enabled_spec. by eapply list_elem_of_lookup_2. }
      rewrite Hs'. destruct (IH (tl sched) s') as (acts & Hex & Hen).
      exists (a :: acts). simpl. rewrite Hs'. split; [done|].
      intros Hle. apply Hen. apply step_measure in Hs'. lia.
    + exists []. split; [done|]. intros _. simpl.
      apply lookup_ge_None in Hlook.
      destruct (enabled deps cwd i s) as [|a en]; [done|]. exfalso.
      pose proof (Nat.mod_upper_bound (hd 0 sched) (length (a :: en))) as Hb.
      simpl in *. lia.
Qed.

Lemma pool_fuel_measure (fs : FS) (t0 : list Event) :
  pmeasure (pool_init fs t0) = pool_fuel deps.
Proof. unfold measure, pool_fuel. simpl. lia. Qed.
End PoolProofs.

(** ** The aggregator *)

(** C1. For every list of package paths, [depsFromPackages] returns exactly
    one Dependency per distinct repository root (the first component of
    util.NormalizeName), in the order in which the roots first appear in the
    input: the names of the output are the roots at their first
    appearances, no name occurs twice, a name is in the output exactly when
    it is the root of some input path, and if one name precedes another in
    the output then it occurs in the input before the other occurs at all. *)
Theorem depsFromPackages_one_per_root
    (NormalizeName : string → string * string) (pkgs : list string) :
  let out := depsFromPackages NormalizeName pkgs in
  let roots := root_of NormalizeName <$> pkgs in
  Name <$> out = first_seen roots ∧
  NoDup (Name <$> out) ∧
  (∀ r, r ∈ (Name <$> out) ↔ r ∈ roots) ∧
  (∀ j k rj rk,
     (Name <$> out) !! j = Some rj → (Name <$> out) !! k = Some rk → j < k →
     ∃ n, roots !! n = Some rj ∧ rk ∉ take (S n) roots).
Proof.
  intros out roots.
  assert (Name <$> out = first_seen roots) as Hnames.
  { unfold out. rewrite depsFromPackages_closed_form.
    rewrite <- list_fmap_compose. apply list_fmap_id. }
  rewrite Hnames. split; [done|]. split; [apply first_seen_NoDup|].
  split; [apply first_seen_elem_of|]. apply first_seen_order.
Qed.

(** C1 on a concrete input: two roots, each seen twice; example.com/b
    comes first in the output because it appears first in the input. *)
Lemma depsFromPackages_one_per_root_witness :
  Name <$> depsFromPackages Sample.normalize
    ["example.com/b/x"; "example.com/a/sub1"; "example.com/b"; "example.com/a"]
  = ["example.com/b"; "example.com/a"] ∧
  ∃ n, (root_of Sample.normalize <$>
          ["example.com/b/x"; "example.com/a/sub1"; "example.com/b"; "example.com/a"])
         !! n = Some "example.com/b" ∧
       "example.com/a" ∉
         take (S n) (root_of Sample.normalize <$>
           ["example.com/b/x"; "example.com/a/sub1"; "example.com/b"; "example.com/a"]).
Proof.
  destruct (depsFromPackages_one_per_root Sample.normalize
    ["example.com/b/x"; "example.com/a/sub1"; "example.com/b"; "example.com/a"])
    as (Hnames & _ & _ & Horder).
  split; [rewrite Hnames; reflexivity|].
  apply (Horder 0 1); [rewrite Hnames; reflexivity|rewrite Hnames; reflexivity|lia].
Defined.

Lemma depsFromPackages_subpackages
    (NormalizeName : string → string * string) (pkgs : list string)
    (d : Dependency) :
  d ∈ depsFromPackages NormalizeName pkgs →
  d = new_dep (Name d) (suffixes_for NormalizeName (Name d) pkgs).
Proof.
  rewrite depsFromPackages_closed_form.
  intros (r & -> & _)%list_elem_of_fmap. done.
Qed.

(** C3. The aggregator appends sub-package suffixes without removing
    repetitions: the Subpackages of every returned Dependency are the
    non-empty suffixes of all input paths with its root, in input order;
    and when the normalizer splits example.com/a/sub1 and
    example.com/a/sub2 at example.com/a, the input
    [example.com/a/sub1; example.com/a/sub2; example.com/a/sub1] yields the
    single Dependency example.com/a with Subpackages [sub1; sub2; sub1]. *)
Theorem depsFromPackages_keeps_repeated_subpackages
    (NormalizeName : string → string * string) :
  (∀ pkgs d, d ∈ depsFromPackages NormalizeName pkgs →
     Subpackages d = suffixes_for NormalizeName (Name d) pkgs) ∧
  (NormalizeName "example.com/a/sub1" = ("example.com/a", "sub1") →
   NormalizeName "example.com/a/sub2" = ("example.com/a", "sub2") →
   depsFromPackages NormalizeName
     ["example.com/a/sub1"; "example.com/a/sub2"; "example.com/a/sub1"]
   = [new_dep "example.com/a" ["sub1"; "sub2"; "sub1"]]).
Proof.
  split.
  - intros pkgs d Hd. apply depsFromPackages_subpackages in Hd.
    rewrite Hd at 1. done.
  - intros H1 H2. rewrite depsFromPackages_closed_form.
    unfold suffixes_for, root_of, suffix_of. simpl. rewrite !H1, !H2. simpl.
    reflexivity.
Qed.

Lemma depsFromPackages_keeps_repeated_subpackages_witness :
  depsFromPackages Sample.normalize
    ["example.com/a/sub1"; "example.com/a/sub2"; "example.com/a/sub1"]
  = [new_dep "example.com/a" ["sub1"; "sub2"; "sub1"]].
Proof.
  apply (depsFromPackages_keeps_repeated_subpackages Sample.normalize);
    reflexivity.
Defined.

Lemma depsFromPackages_reference
    (NormalizeName : string → string * string) (pkgs : list string) :
  Forall (λ d, Reference d = "") (depsFromPackages NormalizeName pkgs).
Proof.
  apply Forall_forall. intros d Hd.
  apply depsFromPackages_subpackages in Hd. by rewrite Hd.
Qed.

(** ** The missing-package handler *)

Section HandlerProofs.
Context {E : Collaborators}.

(** C5. For every package path, [OnGopath] returns (false, nil): it writes
    its one informational message and does nothing else; in particular it
    fetches nothing and leaves the file system as it was. *)
Theorem OnGopath_reports_not_handled
    (m : MissingPackageHandler) (pkg : string) (w : World FS) :
  OnGopath m pkg w =
    ({| w_fs := w_fs w;
        w_trace := w_trace w ++
          [EvMsg LInfo "OnGopath: Package %s is on the GOPATH." [pkg]];
        w_sched := w_sched w |},
     Returned (false, None)) ∧
  gets_of (w_trace (OnGopath m pkg w).1) = gets_of (w_trace w).
Proof.
  split; [reflexivity|]. simpl. rewrite gets_of_app. simpl. by rewrite app_nil_r.
Qed.

Lemma NotFound_eq (m : MissingPackageHandler) (pkg : string) (w : World FS) :
  let d := new_dep pkg [] in
  let dest := filepath_Join (destination m) pkg in
  let got := VcsGet d dest (home m) (cache m) (cacheGopath m) (useGopath m) (w_fs w) in
  NotFound m pkg w =
    ({| w_fs := got.1;
        w_trace := w_trace w ++
          [EvMsg LInfo "Fetching %s into %s" [pkg; destination m];
           EvGet d dest (home m) (cache m) (cacheGopath m) (useGopath m)];
        w_sched := w_sched w |},
     Returned (match got.2 with
               | None => (true, None)
               | Some e => (false, Some e)
               end)).
Proof.
  intros d dest got.
  unfold NotFound, bind, msg_Info, emit, call_VcsGet, with_events. simpl.
  fold d dest. unfold got.
  destruct (VcsGet d dest (home m) (cache m) (cacheGopath m) (useGopath m) (w_fs w))
    as [fs' [e|]]; simpl; by rewrite <- app_assoc.
Qed.

(** C4, as the code has it.  For every package path, [NotFound] makes
    exactly one fetch: of a Dependency named by the package path as given
    (not by its repository root), into filepath.Join(destination, path); it
    returns (true, nil) when the fetch succeeds and (false, err) when the
    fetch fails with err. *)
Theorem NotFound_fetches_the_path_once
    (m : MissingPackageHandler) (pkg : string) (w : World FS) :
  let d := new_dep pkg [] in
  let dest := filepath_Join (destination m) pkg in
  let got := VcsGet d dest (home m) (cache m) (cacheGopath m) (useGopath m) (w_fs w) in
  NotFound m pkg w =
    ({| w_fs := got.1;
        w_trace := w_trace w ++
          [EvMsg LInfo "Fetching %s into %s" [pkg; destination m];
           EvGet d dest (home m) (cache m) (cacheGopath m) (useGopath m)];
        w_sched := w_sched w |},
     Returned (match got.2 with
               | None => (true, None)
               | Some e => (false, Some e)
               end)) ∧
  gets_of (w_trace (NotFound m pkg w).1) = gets_of (w_trace w) ++ [(d, dest)].
Proof.
  intros d dest got. pose proof (NotFound_eq m pkg w) as Heq. simpl in Heq.
  split; [done|]. rewrite Heq. simpl. rewrite gets_of_app. simpl. done.
Qed.

(** The walk of the resolver: it returns, and whatever it fetches through
    the handler, it updates nothing and does not involve the scheduler. *)
Lemma run_walk_spec (m : MissingPackageHandler) (t : Walk FS) (w : World FS) :
  ∃ fs' evs r,
    run_walk m t w =
      ({| w_fs := fs'; w_trace := w_trace w ++ evs; w_sched := w_sched w |},
       Returned r) ∧
    updates_of evs = [].
Proof.
  revert w. induction t as [pkgs err|pkg k IH|pkg k IH]; intros w; simpl.
  - exists (w_fs w), [], (pkgs, err). rewrite app_nil_r. by destruct w.
  - rewrite NotFound_eq.
    match goal with
    | |- context [run_walk m (k ?r ?fs) ?w1] =>
        destruct (IH r fs w1) as (fs' & evs & r' & -> & Hu)
    end.
    simpl. eexists fs', (_ ++ evs), r'. rewrite <- app_assoc. split; [done|].
    rewrite updates_of_app. by rewrite Hu.
  - unfold OnGopath, bind, msg_Info, emit, ret, with_events. simpl.
    match goal with
    | |- context [run_walk m (k ?r ?fs) ?w1] =>
        destruct (IH r fs w1) as (fs' & evs & r' & -> & Hu)
    end.
    simpl. eexists fs', (_ ++ evs), r'. rewrite <- app_assoc. split; [done|].
    rewrite updates_of_app. by rewrite Hu.
Qed.

Lemma allPackages_spec (deps : list Dependency) (res : Resolver)
    (m : MissingPackageHandler) (w : World FS) :
  ∃ fs' evs r,
    allPackages deps res m w =
      ({| w_fs := fs'; w_trace := w_trace w ++ evs; w_sched := w_sched w |},
       Returned r) ∧
    updates_of evs = [].
Proof.
  unfold allPackages. case_decide.
  - exists (w_fs w), [], ([], None). rewrite app_nil_r. by destruct w.
  - unfold bind, call_Vendor, call_ResolveAll, ret.
    destruct (gpath_Vendor (w_fs w)) as [vdir [e|]].
    + exists (w_fs w), [], ([], Some e). rewrite app_nil_r. by destruct w.
    + destruct (run_walk_spec m (ResolveAll res deps (w_fs w)) w)
        as (fs' & evs & [ll [e|]] & -> & Hu); by eexists fs', evs, _.
Qed.

(** A failing walk makes [allPackages] fail with the walk's error. *)
Lemma allPackages_walk_error (deps : list Dependency) (res : Resolver)
    (m : MissingPackageHandler) (w w1 : World FS) (vdir : string)
    (ll : list string) (e : error) :
  deps ≠ [] → gpath_Vendor (w_fs w) = (vdir, None) →
  call_ResolveAll res m deps w = (w1, Returned (ll, Some e)) →
  allPackages deps res m w = (w1, Returned ([], Some e)).
Proof.
  intros Hne Hv Hwalk. unfold allPackages.
  rewrite decide_False by (by destruct deps).
  unfold bind, call_Vendor. rewrite Hv, Hwalk. done.
Qed.
End HandlerProofs.

(** C4, as stated, fails: for the path example.com/a/sub1, whose repository
    root is example.com/a, the Dependency [NotFound] fetches is named
    example.com/a/sub1. *)
Lemma NotFound_does_not_fetch_the_root : ¬ @NotFound_fetches_root Sample.env.
Proof.
  intros Hclaim.
  destruct (Hclaim Sample.handler "example.com/a/sub1" Sample.fresh)
    as (d & dest & Hgets & Hname).
  vm_compute in Hgets. vm_compute in Hname.
  injection Hgets as Hd _. rewrite <- Hd in Hname. discriminate Hname.
Qed.

(** ** [ConcurrentUpdate] as a whole *)

Section ConcurrentUpdateProofs.
Context {E : Collaborators}.

Lemma pool_events_no_gets (cwd : string) (i : Installer) (evs : list Event) :
  Forall (pool_event cwd i) evs → gets_of evs = [].
Proof.
  induction 1 as [|e evs He _ IH]; [done|].
  destruct e as [[] ? ?| |]; simpl in *; done.
Qed.

(** What a call of [ConcurrentUpdate] does, under every scheduler: it adds
    calls of [VcsUpdate] and warnings to the trace and nothing else; if it
    returns, the dependencies updated are those of the input, each as often
    as it occurs there; and with at least one worker it returns. *)
Lemma ConcurrentUpdate_spec (deps : list Dependency) (cwd : string)
    (i : Installer) (w : World FS) :
  ∃ fs' evs sched' o,
    ConcurrentUpdate deps cwd i w =
      ({| w_fs := fs'; w_trace := w_trace w ++ evs; w_sched := sched' |}, o) ∧
    Forall (pool_event cwd i) evs ∧
    (o = Returned tt ∨ o = Deadlocked) ∧
    (o = Returned tt → updates_of evs ≡ₚ deps) ∧
    (0 < concurrentWorkers → o = Returned tt).
Proof.
  unfold ConcurrentUpdate.
  destruct (run_spec deps cwd i (pool_fuel deps) (w_sched w)
              (pool_init (w_fs w) (w_trace w))) as (acts & Hex & Hen).
  destruct (run deps cwd i (pool_fuel deps) (w_sched w)
              (pool_init (w_fs w) (w_trace w))) as [sched' s].
  simpl in *.
  pose proof (exec_inv deps cwd i _ _ _ _ (pool_inv_init deps cwd i _ _) Hex) as Hinv.
  pose proof Hinv as [(evs & Ht & Hev & Hperm) Hwg Hdone Hws Hph].
  exists (p_fs s), evs, sched', (match p_main s with MReturned => Returned tt | _ => Deadlocked end).
  rewrite Ht. split; [done|]. split; [done|]. split; [by destruct (p_main s); auto|].
  split.
  - intros Hret. destruct (p_main s) eqn:Hpc; try done.
    unfold main_phase in Hph. rewrite Hpc in Hph. destruct Hph as [_ Hz].
    destruct (inv_after_wait deps cwd i _ _ Hinv Hz) as (Hin & _ & Hheld & _).
    rewrite Hin, Hheld in Hperm. simpl in Hperm. by rewrite app_nil_r in Hperm.
  - intros HW.
    destruct (progress deps cwd i _ _ HW Hinv) as [[Hq _]|[a Ha]].
    + by rewrite Hq.
    + apply enabled_spec in Ha. rewrite Hen in Ha.
      * by apply elem_of_nil in Ha.
      * by rewrite pool_fuel_measure.
Qed.
End ConcurrentUpdateProofs.

(** ** The scheduler does not see what [VcsUpdate] returns

    Two pools that differ only in their [VcsUpdate], in the file system and
    in the trace enable the same actions and move to the same control
    state. *)

Section Absorb.
Context (E : Collaborators).
Variable u : Dependency → string → Installer → @FS E → @FS E * option error.
Variable deps : list Dependency.
Variable cwd : string.
Variable i : Installer.

Abbreviation E' := (with_VcsUpdate E u).

Lemma step_control (a : action) (s1 s2 : pool (@FS E)) :
  control s1 = control s2 →
  match @step E deps cwd i a s1, @step E' deps cwd i a s2 with
  | Some s1', Some s2' => control s1' = control s2'
  | None, None => True
  | _, _ => False
  end.
Proof.
  destruct s1 as [pc ws inq dn wg sent fs1 t1].
  destruct s2 as [pc2 ws2 inq2 dn2 wg2 sent2 fs2 t2].
  unfold control. simpl. intros [= <- <- <- <- <- <-].
  destruct a as [|w|w|w]; unfold step, main_step; simpl.
  - destruct pc as [ii|[|dep rest]|dep rest| |ii|]; simpl;
      repeat case_decide; done.
  - destruct (ws !! w) as [[| | |]|]; try done. by destruct inq.
  - destruct (ws !! w) as [[| | |]|]; try done. by destruct dn.
  - destruct (ws !! w) as [[|dep| |]|]; try done.
    + destruct (@VcsUpdate E dep cwd i fs1), (u dep cwd i fs2). done.
    + by destruct wg.
Qed.

Lemma enabled_control (s1 s2 : pool (@FS E)) :
  control s1 = control s2 →
  @enabled E deps cwd i s1 = @enabled E' deps cwd i s2.
Proof.
  intros Hc.
  assert (@candidates E s1 = @candidates E' s2) as Hcand.
  { destruct s1, s2. unfold control in Hc. simpl in Hc. unfold candidates. simpl.
    congruence. }
  unfold enabled. rewrite <- Hcand.
  apply list_filter_iff. intros a.
  pose proof (step_control a s1 s2 Hc) as Hs.
  destruct (@step E deps cwd i a s1), (@step E' deps cwd i a s2); done.
Qed.

Lemma run_control (fuel : nat) (sched : list nat) (s1 s2 : pool (@FS E)) :
  control s1 = control s2 →
  (@run E deps cwd i fuel sched s1).1 = (@run E' deps cwd i fuel sched s2).1 ∧
  control (@run E deps cwd i fuel sched s1).2 =
  control (@run E' deps cwd i fuel sched s2).2.
Proof.
  revert sched s1 s2. induction fuel as [|fuel IH]; intros sched s1 s2 Hc; simpl.
  - done.
  - rewrite <- (enabled_control s1 s2 Hc).
    destruct (@enabled E deps cwd i s1 !! _) as [a|]; [|done].
    pose proof (step_control a s1 s2 Hc) as Hs.
    destruct (@step E deps cwd i a s1), (@step E' deps cwd i a s2); try done.
    by apply IH.
Qed.

(** The outcome of [ConcurrentUpdate], and the scheduler choices it leaves,
    do not depend on [VcsUpdate], on the file system or on the trace. *)
Lemma ConcurrentUpdate_absorbs (w1 w2 : World (@FS E)) :
  w_sched w1 = w_sched w2 →
  (@ConcurrentUpdate E deps cwd i w1).2 = (@ConcurrentUpdate E' deps cwd i w2).2 ∧
  w_sched (@ConcurrentUpdate E deps cwd i w1).1 =
  w_sched (@ConcurrentUpdate E' deps cwd i w2).1.
Proof.
  intros Hs. unfold ConcurrentUpdate. rewrite Hs.
  change (@pool_fuel E' deps) with (@pool_fuel E deps).
  destruct (run_control (@pool_fuel E deps) (w_sched w2)
              (@pool_init E (w_fs w1) (w_trace w1))
              (@pool_init E' (w_fs w2) (w_trace w2))) as [Hsched Hctl]; [done|].
  destruct (@run E deps cwd i _ _ _) as [sch1 s1].
  destruct (@run E' deps cwd i _ _ _) as [sch2 s2].
  destruct s1, s2. unfold control in Hctl. simpl in *.
  injection Hctl as -> _ _ _ _ _. done.
Qed.
End Absorb.

(** ** The contract of the worker pool *)

Section PoolContract.
Context {E : Collaborators}.

(** A call of [ConcurrentUpdate] is a run of the pool from its initial
    state, taken on to a state where no goroutine can move. *)
Lemma ConcurrentUpdate_is_a_run (deps : list Dependency) (cwd : string)
    (i : Installer) (w : World FS) :
  ∃ acts s sched',
    exec deps cwd i acts (pool_init (w_fs w) (w_trace w)) = Some s ∧
    (∀ a, step deps cwd i a s = None) ∧
    ConcurrentUpdate deps cwd i w =
      ({| w_fs := p_fs s; w_trace := p_trace s; w_sched := sched' |},
       match p_main s with
       | MReturned => Returned tt
       | _ => Deadlocked
       end) ∧
    (0 < concurrentWorkers →
       quiescent s ∧
       ∃ evs, w_trace (ConcurrentUpdate deps cwd i w).1 = w_trace w ++ evs ∧
              updates_of evs ≡ₚ deps ∧
              p_sent s = concurrentWorkers).
Proof.
  unfold ConcurrentUpdate.
  destruct (run_spec deps cwd i (pool_fuel deps) (w_sched w)
              (pool_init (w_fs w) (w_trace w))) as (acts & Hex & Hen).
  destruct (run deps cwd i (pool_fuel deps) (w_sched w)
              (pool_init (w_fs w) (w_trace w))) as [sched' s].
  simpl in *.
  specialize (Hen ltac:(by rewrite pool_fuel_measure)).
  assert (∀ a, step deps cwd i a s = None) as Hstuck.
  { intros a. destruct (step deps cwd i a s) as [s1|] eqn:Hs; [|done].
    assert (a ∈ enabled deps cwd i s) as Ha by (apply enabled_spec; by rewrite Hs).
    rewrite Hen in Ha. by apply elem_of_nil in Ha. }
  exists acts, s, sched'. split; [done|]. split; [done|]. split; [done|].
  intros HW.
  pose proof (exec_inv deps cwd i _ _ _ _ (pool_inv_init deps cwd i _ _) Hex) as Hinv.
  pose proof Hinv as [(evs & Ht & Hev & Hperm) Hwg Hdone Hws Hph].
  destruct (progress deps cwd i _ _ HW Hinv) as [Hq|[a Ha]].
  - split; [done|]. exists evs. split; [done|].
    destruct Hq as [Hret _]. unfold main_phase in Hph. rewrite Hret in Hph.
    destruct Hph as [Hsent Hz]. simpl in *.
    destruct (inv_after_wait deps cwd i _ _ Hinv Hz) as (Hin & _ & Hheld & _).
    rewrite Hin, Hheld, Hret in Hperm. simpl in Hperm.
    rewrite app_nil_r in Hperm. done.
  - rewrite Hstuck in Ha. by destruct Ha.
Qed.

(** C2. For every list of N dependencies and every interleaving of the
    caller and the workers: no dependency is updated more often than it
    occurs in the input; once the caller has returned, [VcsUpdate] has been
    applied to each of the N dependencies exactly once (the updates made are
    a permutation of the input) whether or not they succeeded, exactly
    [concurrentWorkers] stop signals have been sent, nothing is left in the
    work channel, and every worker is either gone or waiting at its select
    with one stop signal buffered for it; no stop signal is sent before all
    N updates are complete.  Every run uses up the same finite
    number of steps, and with at least one worker no run gets stuck before
    the caller has returned and all workers are gone: no goroutine is
    leaked, and [ConcurrentUpdate] returns under every scheduler.  A call of
    [ConcurrentUpdate] on a world is such a run, from the initial pool on
    the file system and the trace of that world and on to a state where no
    goroutine can move: the world it gives back has the file system and the
    trace of that state, and it returns exactly when the caller of that run
    has returned; with at least one worker every goroutine is gone in that
    state, the trace of the world given back is the trace it was given
    followed by the events of the run, in which each of the N dependencies
    is updated exactly once, and [concurrentWorkers] stop signals were
    sent. *)
Theorem ConcurrentUpdate_attempts_each_once
    (deps : list Dependency) (cwd : string) (i : Installer)
    (fs : FS) (t0 : list Event) (acts : list action) (s : pool FS) :
  exec deps cwd i acts (pool_init fs t0) = Some s →
  (∃ evs, p_trace s = t0 ++ evs ∧
          updates_of evs ⊆+ deps ∧
          (p_sent s ≠ 0 → updates_of evs ≡ₚ deps) ∧
          (p_main s = MReturned →
             updates_of evs ≡ₚ deps ∧
             p_sent s = concurrentWorkers ∧
             p_in s = [] ∧
             length (p_workers s) = concurrentWorkers ∧
             Forall (λ pc, pc = WSelect ∨ pc = WExited) (p_workers s) ∧
             p_done s = n_selecting (p_workers s))) ∧
  length acts + measure deps s = pool_fuel deps ∧
  (0 < concurrentWorkers →
     (quiescent s ∨ ∃ a, is_Some (step deps cwd i a s)) ∧
     ∀ w : World FS, (ConcurrentUpdate deps cwd i w).2 = Returned tt) ∧
  (∀ w : World FS, ∃ acts' s' sched',
     exec deps cwd i acts' (pool_init (w_fs w) (w_trace w)) = Some s' ∧
     (∀ a, step deps cwd i a s' = None) ∧
     ConcurrentUpdate deps cwd i w =
       ({| w_fs := p_fs s'; w_trace := p_trace s'; w_sched := sched' |},
        match p_main s' with
        | MReturned => Returned tt
        | _ => Deadlocked
        end) ∧
     (0 < concurrentWorkers →
        quiescent s' ∧
        ∃ evs, w_trace (ConcurrentUpdate deps cwd i w).1 = w_trace w ++ evs ∧
               updates_of evs ≡ₚ deps ∧
               p_sent s' = concurrentWorkers)).
Proof.
  intros Hex.
  pose proof (exec_inv deps cwd i _ _ _ _ (pool_inv_init deps cwd i _ _) Hex) as Hinv.
  pose proof Hinv as [(evs & Ht & Hev & Hperm) Hwg Hdone Hws Hph].
  split; [|split; [|split]]; [| | |apply ConcurrentUpdate_is_a_run].
  - exists evs. split; [done|]. split; [|split].
    + etrans; [|apply Permutation_submseteq, Hperm].
      apply submseteq_inserts_r. done.
    + intros Hsent. unfold main_phase in Hph.
      assert (p_wg s = 0) as Hz by (destruct (p_main s); simpl in *; lia).
      assert (main_rest deps (p_main s) = []) as Hrest
        by (destruct (p_main s); simpl in *; try done; lia).
      destruct (inv_after_wait deps cwd i _ _ Hinv Hz) as (Hin & _ & Hheld & _).
      rewrite Hin, Hheld, Hrest in Hperm. simpl in Hperm.
      by rewrite app_nil_r in Hperm.
    + intros Hret. unfold main_phase in Hph. rewrite Hret in *.
      destruct Hph as [Hsent Hz]. simpl in *.
      destruct (inv_after_wait deps cwd i _ _ Hinv Hz) as (Hin & Hb & Hheld & Hall).
      rewrite Hin, Hheld in Hperm. simpl in Hperm. rewrite app_nil_r in Hperm.
      repeat split; try done.
      pose proof (selecting_exited_length _ Hb). lia.
  - pose proof (exec_measure deps cwd i _ _ _ Hex) as Hm.
    rewrite pool_fuel_measure in Hm. lia.
  - intros HW. split; [by eapply progress|].
    intros w. destruct (ConcurrentUpdate_spec deps cwd i w)
      as (fs' & evs' & sched' & o & -> & _ & _ & _ & Ho).
    simpl. by apply Ho.
Qed.
End PoolContract.

(** C2 on a run of the sample world: two workers, two dependencies, one of
    which cannot be updated; the run goes on until every goroutine is
    gone. *)
Lemma ConcurrentUpdate_attempts_each_once_witness :
  ∃ s,
    exec (E := Sample.env) [Sample.dep_a; Sample.dep_broken] "vendor" Sample.inst
      [AMain; AMain; AMain; AMain; AMain; ARecv 0; AMain; AMain; ARecv 1;
       AWork 1; AWork 0; AWork 0; AWork 1; AMain; AMain; AMain; AMain; AMain;
       AStop 0; AStop 1]
      (pool_init (E := Sample.env) (w_fs Sample.fresh) []) = Some s ∧
    updates_of (p_trace s) ≡ₚ [Sample.dep_a; Sample.dep_broken] ∧
    p_sent s = 2 ∧
    quiescent s ∧
    (ConcurrentUpdate (E := Sample.env) [Sample.dep_a; Sample.dep_broken]
       "vendor" Sample.inst Sample.fresh).2 = Returned tt ∧
    updates_of
      (w_trace (ConcurrentUpdate (E := Sample.env)
                  [Sample.dep_a; Sample.dep_broken] "vendor" Sample.inst
                  Sample.fresh).1)
    ≡ₚ [Sample.dep_a; Sample.dep_broken].
Proof.
  eexists.
  split; [vm_compute; reflexivity|].
  match goal with
  | |- updates_of (p_trace ?s) ≡ₚ _ ∧ _ =>
      pose proof (ConcurrentUpdate_attempts_each_once (E := Sample.env)
        [Sample.dep_a; Sample.dep_broken] "vendor" Sample.inst
        (w_fs Sample.fresh) []
        [AMain; AMain; AMain; AMain; AMain; ARecv 0; AMain; AMain; ARecv 1;
         AWork 1; AWork 0; AWork 0; AWork 1; AMain; AMain; AMain; AMain; AMain;
         AStop 0; AStop 1] s eq_refl)
        as [(evs & Ht & _ & _ & Hret) (_ & Hlive & Htie)]
  end.
  destruct (Hret eq_refl) as (Hperm & Hsent & _).
  destruct Hlive as [_ Hreturns]; [simpl; lia|].
  simpl in Ht. rewrite <- Ht in Hperm.
  split; [exact Hperm|]. split; [exact Hsent|].
  split; [split; [reflexivity|repeat constructor]|].
  split; [apply Hreturns|].
  destruct (Htie Sample.fresh) as (acts' & s' & sched' & _ & _ & _ & Hrun).
  destruct Hrun as (_ & evs' & Ht' & Hperm' & _); [simpl; lia|].
  rewrite Ht'. exact Hperm'.
Defined.

(** ** [Update] *)

Section UpdateProofs.
Context {E : Collaborators}.

(** The handler [Update] installs in the resolver. *)
Abbreviation update_handler i :=
  {| destination := filepath_Join "." "vendor"; home := Home i;
     cache := UseCache i; cacheGopath := UseCacheGopath i;
     useGopath := UseGopath i |}.

(** [Update], path by path. *)
Lemma Update_cases (i : Installer) (conf : Config) (w : World FS) :
  match NewResolver "." (w_fs w) with
  | inr e =>
      Update i conf w =
        (with_events w [EvMsg LError "Failed to create a resolver: %s" [e]], Died)
  | inl res =>
      match allPackages (Imports conf) res (update_handler i)
              (with_events w [EvMsg LInfo "Resolving imports" []]) with
      | (w1, Returned (packages, Some e)) =>
          Update i conf w =
            (with_events w1
               [EvMsg LError "Failed to retrieve a list of dependencies: %s" [e]],
             Died)
      | (w1, Returned (packages, None)) =>
          let deps := depsFromPackages NormalizeName packages in
          match ConcurrentUpdate deps "." i
                  (with_events w1 [EvMsg LWarn "devImports not resolved." []]) with
          | (w3, Returned _) =>
              Update i conf w =
                (w3, Returned (match Hash conf with
                               | (_, Some e) => (None, Some e)
                               | (hash, None) => (Some (NewLockfile deps hash), None)
                               end))
          | (w3, Died) => Update i conf w = (w3, Died)
          | (w3, Deadlocked) => Update i conf w = (w3, Deadlocked)
          end
      | (w1, Died) => Update i conf w = (w1, Died)
      | (w1, Deadlocked) => Update i conf w = (w1, Deadlocked)
      end
  end.
Proof.
  unfold Update, bind, call_NewResolver, ret, msg_Info, msg_Warn, emit, msg_Die.
  destruct (NewResolver "." (w_fs w)) as [res|e]; [|done].
  destruct (allPackages _ _ _ _) as [w1 [[packages [e|]]| |]]; try done.
  simpl.
  destruct (ConcurrentUpdate _ _ _ _) as [w3 [[]| |]]; try done.
  by destruct (Hash conf) as [hash [e|]].
Qed.

(** C9. A failure in the resolution phase of [Update] is fatal: if the
    resolver cannot be constructed, or [allPackages] (the resolver's walk)
    fails, [Update] ends in [msg.Die] with that error; a failing walk makes
    [allPackages] fail; and whenever [Update] dies, no dependency has been
    updated, the scheduler has not been involved (the worker pool never
    ran), and there is no lock record. *)
Theorem Update_resolution_failure_is_fatal
    (i : Installer) (conf : Config) (w : World FS) :
  (∀ e, NewResolver "." (w_fs w) = inr e →
     Update i conf w =
       (with_events w [EvMsg LError "Failed to create a resolver: %s" [e]], Died)) ∧
  (∀ res w1 packages e,
     NewResolver "." (w_fs w) = inl res →
     allPackages (Imports conf) res (update_handler i)
       (with_events w [EvMsg LInfo "Resolving imports" []])
       = (w1, Returned (packages, Some e)) →
     Update i conf w =
       (with_events w1
          [EvMsg LError "Failed to retrieve a list of dependencies: %s" [e]],
        Died)) ∧
  (∀ res w1 vdir ll e,
     Imports conf ≠ [] → gpath_Vendor (w_fs w) = (vdir, None) →
     call_ResolveAll res (update_handler i) (Imports conf)
       (with_events w [EvMsg LInfo "Resolving imports" []])
       = (w1, Returned (ll, Some e)) →
     allPackages (Imports conf) res (update_handler i)
       (with_events w [EvMsg LInfo "Resolving imports" []])
       = (w1, Returned ([], Some e))) ∧
  (∀ w', Update i conf w = (w', Died) →
     updates_of (w_trace w') = updates_of (w_trace w) ∧
     w_sched w' = w_sched w).
Proof.
  pose proof (Update_cases i conf w) as Hc.
  split; [|split; [|split]].
  - intros e He. by rewrite He in Hc.
  - intros res w1 packages e Hres Hall. by rewrite Hres, Hall in Hc.
  - intros res w1 vdir ll e Hne Hv Hwalk.
    by eapply allPackages_walk_error.
  - intros w' Hdied.
    destruct (NewResolver "." (w_fs w)) as [res|e].
    + destruct (allPackages_spec (Imports conf) res (update_handler i)
                  (with_events w [EvMsg LInfo "Resolving imports" []]))
        as (fs1 & evs & [packages err] & Hall & Hu).
      rewrite Hall in Hc. destruct err as [e|].
      * rewrite Hc in Hdied. injection Hdied as <-. simpl.
        rewrite <- !app_assoc, !updates_of_app, Hu. simpl.
        by rewrite app_nil_r.
      * cbv zeta in Hc.
        match type of Hc with
        | context [ConcurrentUpdate ?d ?c ?ii ?ww] =>
            destruct (ConcurrentUpdate_spec d c ii ww)
              as (fs3 & evs3 & sched3 & o & Hcu & _ & [->| ->] & _);
            rewrite Hcu in Hc
        end; rewrite Hc in Hdied; discriminate Hdied.
    + rewrite Hc in Hdied. injection Hdied as <-. simpl.
      rewrite updates_of_app. simpl. by rewrite app_nil_r.
Qed.

(** C10. Every Dependency the aggregator synthesizes has the empty
    reference; the lock record [Update] returns is made by cfg.NewLockfile
    from such dependencies only, so every entry of it has the empty
    version. *)
Theorem synthesized_dependencies_are_unresolved
    (i : Installer) (conf : Config) (w w' : World FS)
    (lock : Lockfile) (err : option error) (pkgs : list string) :
  Forall (λ d, Reference d = "") (depsFromPackages NormalizeName pkgs) ∧
  (Update i conf w = (w', Returned (Some lock, err)) →
   (∃ deps hash, lock = NewLockfile deps hash ∧
                 Forall (λ d, Reference d = "") deps) ∧
   Forall (λ l, LVersion l = "") (LImports lock)).
Proof.
  split; [apply depsFromPackages_reference|].
  intros Hret. pose proof (Update_cases i conf w) as Hc.
  destruct (NewResolver "." (w_fs w)) as [res|e]; [|congruence].
  destruct (allPackages _ _ _ _) as [w1 [[packages [e|]]| |]]; try congruence.
  simpl in Hc.
  destruct (ConcurrentUpdate _ _ _ _) as [w3 [[]| |]]; try congruence.
  rewrite Hc in Hret. destruct (Hash conf) as [hash [e|]]; [congruence|].
  injection Hret as _ <- _. simpl. split.
  - eexists _, hash. split; [done|]. apply depsFromPackages_reference.
  - apply Forall_fmap. eapply Forall_impl; [apply depsFromPackages_reference|].
    by intros d Hd.
Qed.
End UpdateProofs.

(** C9 on the sample world: a tree where the base directory does not
    resolve, and a project whose import cannot be fetched during the walk. *)
Lemma Update_resolution_failure_is_fatal_witness :
  (Update (E := Sample.env) Sample.inst
     {| CName := "proj"; Imports := [Sample.dep_a]; DevImports := [] |}
     Sample.nowhere).2 = Died ∧
  (Update (E := Sample.env) Sample.inst
     {| CName := "proj"; Imports := [Sample.dep_a; Sample.dep_broken]; DevImports := [] |}
     Sample.fresh).2 = Died ∧
  updates_of (w_trace (Update (E := Sample.env) Sample.inst
     {| CName := "proj"; Imports := [Sample.dep_a; Sample.dep_broken]; DevImports := [] |}
     Sample.fresh).1) = [].
Proof.
  destruct (Update_resolution_failure_is_fatal (E := Sample.env) Sample.inst
              {| CName := "proj"; Imports := [Sample.dep_a]; DevImports := [] |}
              Sample.nowhere) as (H1 & _).
  destruct (Update_resolution_failure_is_fatal (E := Sample.env) Sample.inst
              {| CName := "proj"; Imports := [Sample.dep_a; Sample.dep_broken];
                 DevImports := [] |}
              Sample.fresh) as (_ & H2 & H3 & H4).
  split; [|split].
  - by rewrite (H1 "basedir does not exist" eq_refl).
  - erewrite (H2 tt _ _ "unable to get repository" eq_refl); [done|].
    eapply (H3 tt _ "vendor"); [done|reflexivity|]. vm_compute. reflexivity.
  - eapply (H4 _). vm_compute. reflexivity.
Defined.

(** C10 on the sample world: the lock record of a successful update. *)
Lemma synthesized_dependencies_are_unresolved_witness :
  ∃ lock,
    (Update (E := Sample.env) Sample.inst
       {| CName := "proj"; Imports := [Sample.dep_a; Sample.dep_b]; DevImports := [] |}
       Sample.fresh).2 = Returned (Some lock, None) ∧
    Forall (λ l, LVersion l = "") (LImports lock).
Proof.
  eexists. split; [vm_compute; reflexivity|].
  match goal with
  | |- Forall _ (LImports ?lock) =>
      destruct (synthesized_dependencies_are_unresolved (E := Sample.env)
                  Sample.inst
                  {| CName := "proj"; Imports := [Sample.dep_a; Sample.dep_b];
                     DevImports := [] |}
                  Sample.fresh
                  (Update (E := Sample.env) Sample.inst
                     {| CName := "proj"; Imports := [Sample.dep_a; Sample.dep_b];
                        DevImports := [] |} Sample.fresh).1
                  lock None []) as [_ Hlock]
  end.
  apply Hlock. vm_compute. reflexivity.
Defined.

(** ** [Checkout] *)

Section CheckoutProofs.
Context {E : Collaborators}.

(** When every target is in place, [checkoutImports] only writes debug
    messages. *)
Lemma checkoutImports_all_present (i : Installer) (deps : list Dependency)
    (dest : string) (w : World FS) :
  (∀ c, c ∈ deps → os_Stat (w_fs w) (filepath_Join dest (Name c)) = true) →
  ∃ evs,
    checkoutImports i deps dest w = (with_events w evs, Returned None) ∧
    gets_of evs = [].
Proof.
  revert w. induction deps as [|c deps IH]; intros w Hall; simpl.
  - exists []. unfold ret, with_events. rewrite app_nil_r. by destruct w.
  - unfold bind at 1, call_Stat. rewrite (Hall c) by (by left).
    unfold bind, msg_Debug, emit.
    destruct (IH (with_events w [EvMsg LDebug "Package %s already found." [Name c]]))
      as (evs & -> & Hg).
    { intros c' Hc'. simpl. apply Hall. by right. }
    exists (EvMsg LDebug "Package %s already found." [Name c] :: evs).
    split; [|done]. unfold with_events. simpl. by rewrite <- app_assoc.
Qed.

(** [checkoutImports] in general: it fetches only dependencies of the list
    whose target did not exist, each into its own target; it keeps what
    exists; and when it returns nil every target exists. *)
Lemma checkoutImports_spec (i : Installer) (deps : list Dependency)
    (dest : string) (w : World FS) :
  VcsGet_creates_target → VcsGet_keeps_paths →
  ∃ fs' evs r,
    checkoutImports i deps dest w =
      ({| w_fs := fs'; w_trace := w_trace w ++ evs; w_sched := w_sched w |},
       Returned r) ∧
    (∀ p, os_Stat (w_fs w) p = true → os_Stat fs' p = true) ∧
    (∀ d target, (d, target) ∈ gets_of evs →
       d ∈ deps ∧ target = filepath_Join dest (Name d) ∧
       os_Stat (w_fs w) target = false) ∧
    updates_of evs = [] ∧
    (r = None →
       ∀ c, c ∈ deps → os_Stat fs' (filepath_Join dest (Name c)) = true).
Proof.
  intros Hcreate Hkeep. revert w.
  induction deps as [|c deps IH]; intros w; simpl.
  - exists (w_fs w), [], None. unfold ret. rewrite app_nil_r.
    split; [by destruct w|]. split; [done|]. split; [|split; [done|]].
    + intros d target Hin. by apply elem_of_nil in Hin.
    + intros _ c Hc. by apply elem_of_nil in Hc.
  - unfold bind at 1, call_Stat.
    destruct (os_Stat (w_fs w) (filepath_Join dest (Name c))) eqn:Hstat.
    + (* already found *)
      unfold bind, msg_Debug, emit.
      destruct (IH (with_events w [EvMsg LDebug "Package %s already found." [Name c]]))
        as (fs' & evs & r & -> & Hk & Hg & Hu & Hok).
      exists fs', (EvMsg LDebug "Package %s already found." [Name c] :: evs), r.
      simpl in *. split; [by rewrite <- app_assoc|]. split; [done|].
      split; [|split; [done|]].
      * intros d target Hin. destruct (Hg d target Hin) as (? & ? & ?).
        split; [by right|done].
      * intros Hr c' [->|Hc']%elem_of_cons; [by apply Hk|by apply Hok].
    + (* fetch *)
      unfold bind at 1, msg_Info, emit. unfold bind at 1, call_VcsGet. simpl.
      destruct (VcsGet c (filepath_Join dest (Name c)) (Home i) (UseCache i)
                  (UseCacheGopath i) (UseGopath i) (w_fs w)) as [fs1 [e|]] eqn:Hget.
      * exists fs1, [EvMsg LInfo "Fetching %s into %s" [Name c; dest];
                     EvGet c (filepath_Join dest (Name c)) (Home i) (UseCache i)
                       (UseCacheGopath i) (UseGopath i)], (Some e).
        unfold ret. simpl. split; [by rewrite <- app_assoc|].
        split; [intros p Hp; by eapply Hkeep|]. split; [|split; [done|done]].
        intros d target [[= -> ->]|Hin]%elem_of_cons.
        -- split; [by left|done].
        -- by apply elem_of_nil in Hin.
      * match goal with
        | |- context [checkoutImports i deps dest ?w1] =>
            destruct (IH w1) as (fs' & evs & r & -> & Hk & Hg & Hu & Hok)
        end.
        simpl in *.
        exists fs', ([EvMsg LInfo "Fetching %s into %s" [Name c; dest];
                      EvGet c (filepath_Join dest (Name c)) (Home i) (UseCache i)
                        (UseCacheGopath i) (UseGopath i)] ++ evs), r.
        split; [by rewrite <- !app_assoc|].
        split; [intros p Hp; apply Hk; by eapply Hkeep|].
        split; [|split].
        -- intros d target. rewrite gets_of_app. simpl.
           intros [[= -> ->]|Hin]%elem_of_cons.
           ++ split; [by left|done].
           ++ destruct (Hg d target Hin) as (Hd & Ht & Hs).
              split; [by right|]. split; [done|].
              destruct (os_Stat (w_fs w) target) eqn:Hst; [|done].
              rewrite (Hkeep _ _ _ _ _ _ _ _ _ target Hget Hst) in Hs. done.
        -- rewrite updates_of_app. simpl. done.
        -- intros Hr c' [->|Hc']%elem_of_cons; [|by apply Hok].
           apply Hk. by eapply Hcreate.
Qed.

(** When every target is in place, [Checkout] fetches nothing and leaves
    the file system alone, whatever the VCS fetch would do. *)
Lemma Checkout_all_present (i : Installer) (conf : Config) (useDev : bool)
    (w : World FS) :
  (∀ c, c ∈ Imports conf ++ (if useDev then DevImports conf else []) →
        os_Stat (w_fs w) (filepath_Join "./vendor" (Name c)) = true) →
  ∃ evs,
    Checkout i conf useDev w = (with_events w evs, Returned None) ∧
    gets_of evs = [].
Proof.
  intros Hall. unfold Checkout.
  destruct (checkoutImports_all_present i (Imports conf) "./vendor" w)
    as (ev1 & Hrun1 & Hg1).
  { intros c Hc. apply Hall, elem_of_app. by left. }
  unfold bind at 1. rewrite Hrun1. destruct useDev.
  - destruct (checkoutImports_all_present i (DevImports conf) "./vendor"
                (with_events w ev1)) as (ev2 & Hrun2 & Hg2).
    { intros c Hc. simpl. apply Hall, elem_of_app. by right. }
    rewrite Hrun2. exists (ev1 ++ ev2). split.
    + unfold with_events. simpl. by rewrite <- app_assoc.
    + by rewrite gets_of_app, Hg1, Hg2.
  - by exists ev1.
Qed.

(** C6. [Checkout] skips every declared dependency whose target directory
    filepath.Join("./vendor", name) exists: when all targets exist it
    fetches nothing and leaves the file system as it is.  And provided the
    VCS fetch leaves its target in place when it succeeds and removes
    nothing that exists: [Checkout] fetches only declared dependencies
    whose target directory did not exist (os.Stat on it failed), each into
    that directory; every path that existed still exists afterwards; and a
    [Checkout] run right after one that returned nil returns nil again,
    fetches nothing and leaves the file system as it was. *)
Theorem Checkout_fetches_only_what_is_missing
    (i : Installer) (conf : Config) (useDev : bool) (w : World FS) :
  ((∀ c, c ∈ Imports conf ++ (if useDev then DevImports conf else []) →
         os_Stat (w_fs w) (filepath_Join "./vendor" (Name c)) = true) →
   ∃ evs,
     Checkout i conf useDev w = (with_events w evs, Returned None) ∧
     gets_of evs = []) ∧
  (VcsGet_creates_target → VcsGet_keeps_paths →
   ∃ w1 evs r,
     Checkout i conf useDev w = (w1, Returned r) ∧
     w_trace w1 = w_trace w ++ evs ∧
     (∀ d target, (d, target) ∈ gets_of evs →
        d ∈ Imports conf ++ (if useDev then DevImports conf else []) ∧
        target = filepath_Join "./vendor" (Name d) ∧
        os_Stat (w_fs w) target = false) ∧
     (∀ p, os_Stat (w_fs w) p = true → os_Stat (w_fs w1) p = true) ∧
     (r = None →
        ∃ evs2,
          Checkout i conf useDev w1 = (with_events w1 evs2, Returned None) ∧
          gets_of evs2 = [])).
Proof.
  split; [apply Checkout_all_present|].
  intros Hcreate Hkeep.
  destruct (checkoutImports_spec i (Imports conf) "./vendor" w Hcreate Hkeep)
    as (fs1 & evs1 & r1 & Hrun1 & Hk1 & Hg1 & _ & Hok1).
  assert (∃ w1 evs r,
    Checkout i conf useDev w = (w1, Returned r) ∧
    w_trace w1 = w_trace w ++ evs ∧
    (∀ d target, (d, target) ∈ gets_of evs →
       d ∈ Imports conf ++ (if useDev then DevImports conf else []) ∧
       target = filepath_Join "./vendor" (Name d) ∧
       os_Stat (w_fs w) target = false) ∧
    (∀ p, os_Stat (w_fs w) p = true → os_Stat (w_fs w1) p = true) ∧
    (r = None →
       ∀ c, c ∈ Imports conf ++ (if useDev then DevImports conf else []) →
            os_Stat (w_fs w1) (filepath_Join "./vendor" (Name c)) = true))
    as (w1 & evs & r & Hrun & Ht & Hg & Hk & Hok).
  { unfold Checkout. unfold bind at 1. rewrite Hrun1. destruct r1 as [e|].
    { (* the imports failed *)
      eexists _, evs1, (Some e). split; [done|]. split; [done|].
      split; [|split; [done|done]].
      intros d target Hin. destruct (Hg1 d target Hin) as (? & ? & ?).
      split; [|done]. apply elem_of_app. by left. }
    destruct useDev.
    - match goal with
      | |- context [checkoutImports i (DevImports conf) "./vendor" ?w1] =>
          destruct (checkoutImports_spec i (DevImports conf) "./vendor" w1
                      Hcreate Hkeep)
            as (fs2 & evs2 & r2 & Hrun2 & Hk2 & Hg2 & _ & Hok2)
      end.
      simpl in *. rewrite Hrun2.
      eexists _, (evs1 ++ evs2), r2. split; [done|]. simpl.
      split; [by rewrite app_assoc|]. split; [|split].
      + intros d target. rewrite gets_of_app.
        intros [Hin|Hin]%elem_of_app.
        * destruct (Hg1 d target Hin) as (? & ? & ?).
          split; [|done]. apply elem_of_app. by left.
        * destruct (Hg2 d target Hin) as (Hd & Ht & Hs).
          split; [apply elem_of_app; by right|]. split; [done|].
          destruct (os_Stat (w_fs w) target) eqn:Hst; [|done].
          by rewrite (Hk1 _ Hst) in Hs.
      + intros p Hp. by apply Hk2, Hk1.
      + intros -> c [Hc|Hc]%elem_of_app; [by apply Hk2, Hok1|by apply Hok2].
    - eexists _, evs1, None. unfold ret. split; [done|]. split; [done|].
      split; [|split; [done|]].
      + intros d target Hin. destruct (Hg1 d target Hin) as (? & ? & ?).
        split; [|done]. by rewrite app_nil_r.
      + intros _ c Hc. rewrite app_nil_r in Hc. simpl. by apply Hok1. }
  exists w1, evs, r. split; [done|]. split; [done|]. split; [done|].
  split; [done|]. intros Hr. apply Checkout_all_present. by apply Hok.
Qed.
End CheckoutProofs.

Lemma sample_get_creates_target : @VcsGet_creates_target Sample.env.
Proof.
  intros d dest hm c cg ug fs fs'. simpl. unfold Sample.get.
  case_decide; [done|]. intros [= <-]. apply bool_decide_eq_true. by left.
Qed.

Lemma sample_get_keeps_paths : @VcsGet_keeps_paths Sample.env.
Proof.
  intros d dest hm c cg ug fs fs' r p. simpl. unfold Sample.get.
  case_decide; intros [= <- <-]; [done|].
  rewrite !bool_decide_eq_true. by right.
Qed.

(** C6 on the sample world: a first checkout of two imports into an empty
    vendor directory, and the checkout that follows it. *)
Lemma Checkout_fetches_only_what_is_missing_witness :
  ∃ w1,
    Checkout (E := Sample.env) Sample.inst
      {| CName := "proj"; Imports := [Sample.dep_a; Sample.dep_b]; DevImports := [] |}
      true Sample.fresh = (w1, Returned None) ∧
    length (gets_of (w_trace w1)) = 2 ∧
    ∃ evs2,
      Checkout (E := Sample.env) Sample.inst
        {| CName := "proj"; Imports := [Sample.dep_a; Sample.dep_b]; DevImports := [] |}
        true w1 = (with_events w1 evs2, Returned None) ∧
      gets_of evs2 = [].
Proof.
  destruct (Checkout_fetches_only_what_is_missing (E := Sample.env) Sample.inst
              {| CName := "proj"; Imports := [Sample.dep_a; Sample.dep_b];
                 DevImports := [] |}
              true Sample.fresh) as [_ Hrun].
  destruct (Hrun sample_get_creates_target sample_get_keeps_paths)
    as (w1 & evs & r & Hrun1 & Ht & _ & _ & Hagain).
  rename Hrun1 into Hrun'.
  exists w1.
  assert (r = None ∧ length (gets_of (w_trace w1)) = 2) as [-> Hlen].
  { vm_compute in Hrun'. injection Hrun' as <- <-. split; reflexivity. }
  split; [exact Hrun'|]. split; [exact Hlen|]. by apply Hagain.
Defined.

(** ** [Install] *)

Section InstallProofs.
Context {E : Collaborators}.

(** [Install], path by path. *)
Lemma Install_cases (i : Installer) (lock : Lockfile) (conf : Config)
    (w : World FS) :
  let newConf := DeDupe (conf_of_lock lock conf) in
  match gpath_Vendor (w_fs w) with
  | (_, Some e) => Install i lock conf w = (w, Returned (conf, Some e))
  | (cwd, None) =>
      if decide (length (Imports newConf) = 0) then
        Install i lock conf w =
          (with_events w
             [EvMsg LInfo "No dependencies found. Nothing installed.\n" []],
           Returned (newConf, None))
      else
        match ConcurrentUpdate (Imports newConf) cwd i w with
        | (w1, Returned _) =>
            match ConcurrentUpdate (DevImports newConf) cwd i w1 with
            | (w2, Returned _) => Install i lock conf w = (w2, Returned (newConf, None))
            | (w2, Died) => Install i lock conf w = (w2, Died)
            | (w2, Deadlocked) => Install i lock conf w = (w2, Deadlocked)
            end
        | (w1, Died) => Install i lock conf w = (w1, Died)
        | (w1, Deadlocked) => Install i lock conf w = (w1, Deadlocked)
        end
  end.
Proof.
  intros newConf. unfold Install, bind, call_Vendor, ret, msg_Info, emit.
  fold newConf.
  destruct (gpath_Vendor (w_fs w)) as [cwd [e|]]; [done|].
  case_decide; [done|].
  destruct (ConcurrentUpdate (Imports newConf) cwd i w) as [w1 [[]| |]]; try done.
  destruct (ConcurrentUpdate (DevImports newConf) cwd i w1) as [w2 [[]| |]]; done.
Qed.

(** C7, as the code has it.  If gpath.Vendor() fails, [Install] returns
    the config it was given and that error, and does nothing else.
    Otherwise: when the import list derived from the lock file is empty
    after de-duplication, [Install] writes "No dependencies found. Nothing
    installed." and returns the new config and a nil error, with no fetch
    and no update, for imports or dev-imports; when it is not empty,
    [Install] runs the worker pool once on the imports and then once on the
    dev-imports, and (with at least one worker) returns the new config and
    a nil error after updating each import and each dev-import once and
    fetching nothing. *)
Theorem Install_nothing_to_install
    (i : Installer) (lock : Lockfile) (conf : Config) (w : World FS) :
  let newConf := DeDupe (conf_of_lock lock conf) in
  (∀ vdir e, gpath_Vendor (w_fs w) = (vdir, Some e) →
     Install i lock conf w = (w, Returned (conf, Some e))) ∧
  (∀ cwd, gpath_Vendor (w_fs w) = (cwd, None) →
     (Imports newConf = [] →
        Install i lock conf w =
          (with_events w
             [EvMsg LInfo "No dependencies found. Nothing installed.\n" []],
           Returned (newConf, None))) ∧
     (Imports newConf ≠ [] →
        Install i lock conf w =
          (ConcurrentUpdate (Imports newConf) cwd i ;;;
           ConcurrentUpdate (DevImports newConf) cwd i ;;;
           ret (newConf, None)) w ∧
        (0 < concurrentWorkers →
           ∃ w' evs1 evs2,
             Install i lock conf w = (w', Returned (newConf, None)) ∧
             w_trace w' = w_trace w ++ evs1 ++ evs2 ∧
             updates_of evs1 ≡ₚ Imports newConf ∧
             updates_of evs2 ≡ₚ DevImports newConf ∧
             gets_of (evs1 ++ evs2) = []))).
Proof.
  intros newConf. pose proof (Install_cases i lock conf w) as Hc.
  fold newConf in Hc. simpl in Hc. split.
  - intros vdir e Hv. by rewrite Hv in Hc.
  - intros cwd Hv. rewrite Hv in Hc. split.
    + intros Hnil. rewrite decide_True in Hc by (by rewrite Hnil). done.
    + intros Hne.
      rewrite decide_False in Hc by (by destruct (Imports newConf)).
      split.
      * unfold Install, bind at 1, call_Vendor. rewrite Hv. fold newConf.
        rewrite decide_False by (by destruct (Imports newConf)). done.
      * intros HW.
        destruct (ConcurrentUpdate_spec (Imports newConf) cwd i w)
          as (fs1 & evs1 & sched1 & o1 & Hcu1 & Hev1 & _ & Hup1 & Hret1).
        rewrite (Hret1 HW) in *. rewrite Hcu1 in Hc.
        match type of Hc with
        | context [ConcurrentUpdate _ _ _ ?w1] =>
            destruct (ConcurrentUpdate_spec (DevImports newConf) cwd i w1)
              as (fs2 & evs2 & sched2 & o2 & Hcu2 & Hev2 & _ & Hup2 & Hret2)
        end.
        rewrite (Hret2 HW) in *. rewrite Hcu2 in Hc. simpl in *.
        eexists _, evs1, evs2. split; [exact Hc|]. simpl.
        split; [by rewrite app_assoc|]. split; [by apply Hup1|].
        split; [by apply Hup2|].
        rewrite gets_of_app.
        rewrite (pool_events_no_gets _ _ _ Hev1), (pool_events_no_gets _ _ _ Hev2).
        done.
Qed.
End InstallProofs.

(** C7, as stated, fails: without a vendor directory [Install] returns the
    error of gpath.Vendor() even though the lock file has no imports. *)
Lemma Install_nothing_may_return_an_error :
  ¬ @Install_nothing_returns_nil Sample.env.
Proof.
  intros Hclaim.
  destruct (Hclaim Sample.inst
              {| LHash := "sha256:proj"; LImports := []; LDevImports := [] |}
              {| CName := "proj"; Imports := []; DevImports := [] |}
              Sample.bare eq_refl) as (w' & c & Hrun).
  vm_compute in Hrun. discriminate Hrun.
Qed.

(** C7 on the sample world: a lock file with one import and one
    dev-import; a lock file with a dev-import only; and a directory
    without a vendor directory. *)
Lemma Install_nothing_to_install_witness :
  (∃ w',
     Install (E := Sample.env) Sample.inst
       {| LHash := "sha256:proj"; LImports := [Sample.lock_a];
          LDevImports := [Sample.lock_a] |}
       {| CName := "proj"; Imports := []; DevImports := [] |}
       Sample.fresh
     = (w', Returned ({| CName := "proj"; Imports := [Sample.dep_a];
                         DevImports := [Sample.dep_a] |}, None)) ∧
     updates_of (w_trace w') ≡ₚ [Sample.dep_a; Sample.dep_a]) ∧
  Install (E := Sample.env) Sample.inst
    {| LHash := "sha256:proj"; LImports := []; LDevImports := [Sample.lock_a] |}
    {| CName := "proj"; Imports := []; DevImports := [] |}
    Sample.fresh
  = (with_events Sample.fresh
       [EvMsg LInfo "No dependencies found. Nothing installed.\n" []],
     Returned ({| CName := "proj"; Imports := [];
                  DevImports := [Sample.dep_a] |}, None)) ∧
  Install (E := Sample.env) Sample.inst
    {| LHash := "sha256:proj"; LImports := []; LDevImports := [] |}
    {| CName := "proj"; Imports := []; DevImports := [] |}
    Sample.bare
  = (Sample.bare,
     Returned ({| CName := "proj"; Imports := []; DevImports := [] |},
               Some "no vendor directory")).
Proof.
  split; [|split].
  - destruct (Install_nothing_to_install (E := Sample.env) Sample.inst
                {| LHash := "sha256:proj"; LImports := [Sample.lock_a];
                   LDevImports := [Sample.lock_a] |}
                {| CName := "proj"; Imports := []; DevImports := [] |}
                Sample.fresh) as [_ Hok].
    destruct (Hok "vendor" eq_refl) as [_ Hrun].
    destruct Hrun as [_ Hrun]; [done|].
    destruct Hrun as (w' & evs1 & evs2 & Hrun & Ht & Hu1 & Hu2 & _); [simpl; lia|].
    exists w'. split; [exact Hrun|].
    rewrite Ht. simpl. rewrite updates_of_app, Hu1, Hu2. done.
  - destruct (Install_nothing_to_install (E := Sample.env) Sample.inst
                {| LHash := "sha256:proj"; LImports := [];
                   LDevImports := [Sample.lock_a] |}
                {| CName := "proj"; Imports := []; DevImports := [] |}
                Sample.fresh) as [_ Hok].
    destruct (Hok "vendor" eq_refl) as [Hnothing _].
    apply Hnothing. reflexivity.
  - destruct (Install_nothing_to_install (E := Sample.env) Sample.inst
                {| LHash := "sha256:proj"; LImports := []; LDevImports := [] |}
                {| CName := "proj"; Imports := []; DevImports := [] |}
                Sample.bare) as [Hfail _].
    apply (Hfail EmptyString "no vendor directory"). reflexivity.
Defined.

(** ** Failures of single updates *)

Section AbsorbProofs.
Context (E : Collaborators).
Variable u : Dependency → string → Installer → @FS E → @FS E * option error.

Lemma Install_absorbs (i : Installer) (lock : Lockfile) (conf : Config)
    (w : World (@FS E)) :
  (@Install (with_VcsUpdate E u) i lock conf w).2 = (@Install E i lock conf w).2.
Proof.
  pose proof (@Install_cases E i lock conf w) as H1.
  pose proof (@Install_cases (with_VcsUpdate E u) i lock conf w) as H2.
  simpl in H1, H2.
  change (@gpath_Vendor (with_VcsUpdate E u)) with (@gpath_Vendor E) in H2.
  change (@DeDupe (with_VcsUpdate E u)) with (@DeDupe E) in H2.
  destruct (@gpath_Vendor E (w_fs w)) as [cwd [e|]]; [by rewrite H1, H2|].
  case_decide; [by rewrite H1, H2|].
  destruct (ConcurrentUpdate_absorbs E u
              (Imports (@DeDupe E (conf_of_lock lock conf))) cwd i w w eq_refl)
    as [Ho Hs].
  destruct (@ConcurrentUpdate E _ cwd i w) as [w1 o1].
  destruct (@ConcurrentUpdate (with_VcsUpdate E u) _ cwd i w) as [w1' o1'].
  simpl in Ho, Hs. subst o1'.
  destruct o1 as [[]| |]; try by rewrite H1, H2.
  destruct (ConcurrentUpdate_absorbs E u
              (DevImports (@DeDupe E (conf_of_lock lock conf))) cwd i w1 w1' Hs)
    as [Ho2 _].
  destruct (@ConcurrentUpdate E _ cwd i w1) as [w2 o2].
  destruct (@ConcurrentUpdate (with_VcsUpdate E u) _ cwd i w1') as [w2' o2'].
  simpl in Ho2. subst o2'.
  destruct o2 as [[]| |]; by rewrite H1, H2.
Qed.

Lemma Update_absorbs (i : Installer) (conf : Config) (w : World (@FS E)) :
  (@Update (with_VcsUpdate E u) i conf w).2 = (@Update E i conf w).2.
Proof.
  pose proof (@Update_cases E i conf w) as H1.
  pose proof (@Update_cases (with_VcsUpdate E u) i conf w) as H2.
  change (@allPackages (with_VcsUpdate E u)) with (@allPackages E) in H2.
  simpl in H1, H2.
  destruct (@NewResolver E "." (w_fs w)) as [res|e]; [|by rewrite H1, H2].
  destruct (@allPackages E _ _ _ _) as [w1 [[packages [e|]]| |]];
    try by rewrite H1, H2.
  match type of H1 with
  | context [@ConcurrentUpdate E ?d ?c i ?ww] =>
      destruct (ConcurrentUpdate_absorbs E u d c i ww ww eq_refl) as [Ho _];
      destruct (@ConcurrentUpdate E d c i ww) as [w3 o3];
      destruct (@ConcurrentUpdate (with_VcsUpdate E u) d c i ww) as [w3' o3']
  end.
  simpl in Ho. subst o3'.
  destruct o3 as [[]| |]; by rewrite H1, H2.
Qed.

(** C8. A failing update of a single dependency is recorded as a warning
    and nothing more: the worker writes the warning and goes on to
    [wg.Done()] as after a successful update; [ConcurrentUpdate] writes
    only update calls and warnings, and ends by returning (it has no error
    value to return; the only other end is a deadlock, which needs a pool
    without workers); and whatever [VcsUpdate] is put in place of the given
    one, failing for any number of dependencies, [ConcurrentUpdate],
    [Install] and [Update] end the same way with the same results. *)
Theorem update_failures_are_only_warnings
    (i : Installer) (lock : Lockfile) (conf : Config)
    (deps : list Dependency) (cwd : string) (w : World (@FS E)) :
  (∀ (s : pool (@FS E)) k dep fs' err,
     p_workers s !! k = Some (WUpdate dep) →
     @VcsUpdate E dep cwd i (p_fs s) = (fs', Some err) →
     @step E deps cwd i (AWork k) s =
       Some (mkPool (p_main s) (<[k := WDone]> (p_workers s)) (p_in s)
               (p_done s) (p_wg s) (p_sent s) fs'
               (p_trace s ++
                  [EvUpdate dep cwd i;
                   EvMsg LWarn "Update failed for %s: %s\n" [Name dep; err]]))) ∧
  (∃ fs' evs sched' o,
     @ConcurrentUpdate E deps cwd i w =
       ({| w_fs := fs'; w_trace := w_trace w ++ evs; w_sched := sched' |}, o) ∧
     Forall (pool_event cwd i) evs ∧
     (o = Returned tt ∨ o = Deadlocked) ∧
     (0 < @concurrentWorkers E → o = Returned tt)) ∧
  (@ConcurrentUpdate (with_VcsUpdate E u) deps cwd i w).2 =
    (@ConcurrentUpdate E deps cwd i w).2 ∧
  (@Install (with_VcsUpdate E u) i lock conf w).2 = (@Install E i lock conf w).2 ∧
  (@Update (with_VcsUpdate E u) i conf w).2 = (@Update E i conf w).2.
Proof.
  split; [|split; [|split; [|split]]].
  - intros s k dep fs' err Hk Hu. unfold step. by rewrite Hk, Hu.
  - destruct (@ConcurrentUpdate_spec E deps cwd i w)
      as (fs' & evs & sched' & o & Hcu & Hev & Ho & _ & Hret).
    by exists fs', evs, sched', o.
  - symmetry. by apply ConcurrentUpdate_absorbs.
  - apply Install_absorbs.
  - apply Update_absorbs.
Qed.
End AbsorbProofs.

(** C8 on the sample world: a worker about to update the repository that
    cannot be updated; and the pool of two workers, and [Install], with a
    [VcsUpdate] that fails for every dependency. *)
Lemma update_failures_are_only_warnings_witness :
  step (E := Sample.env) [Sample.dep_broken] "vendor" Sample.inst (AWork 0)
    (mkPool MWait [WUpdate Sample.dep_broken; WSelect] [] 0 1 0 ["."; "vendor"] [])
  = Some (mkPool MWait [WDone; WSelect] [] 0 1 0 ["."; "vendor"]
            [EvUpdate Sample.dep_broken "vendor" Sample.inst;
             EvMsg LWarn "Update failed for %s: %s\n"
               ["example.com/broken"; "unable to update repository"]]) ∧
  (ConcurrentUpdate
     (E := with_VcsUpdate Sample.env (λ _ _ _ fs, (fs, Some "network down")))
     [Sample.dep_a; Sample.dep_b] "vendor" Sample.inst Sample.fresh).2
  = Returned tt ∧
  (Install
     (E := with_VcsUpdate Sample.env (λ _ _ _ fs, (fs, Some "network down")))
     Sample.inst
     {| LHash := "sha256:proj"; LImports := [Sample.lock_a]; LDevImports := [] |}
     {| CName := "proj"; Imports := []; DevImports := [] |}
     Sample.fresh).2
  = Returned ({| CName := "proj"; Imports := [Sample.dep_a]; DevImports := [] |},
              None).
Proof.
  destruct (update_failures_are_only_warnings Sample.env
              (λ _ _ _ fs, (fs, Some "network down")) Sample.inst
              {| LHash := "sha256:proj"; LImports := [Sample.lock_a];
                 LDevImports := [] |}
              {| CName := "proj"; Imports := []; DevImports := [] |}
              [Sample.dep_a; Sample.dep_b] "vendor" Sample.fresh)
    as (_ & (fs' & evs & sched' & o & Hcu & _ & _ & Hret) & Hsame & Hinst & _).
  destruct (update_failures_are_only_warnings Sample.env
              (λ _ _ _ fs, (fs, Some "network down")) Sample.inst
              {| LHash := "sha256:proj"; LImports := []; LDevImports := [] |}
              {| CName := "proj"; Imports := []; DevImports := [] |}
              [Sample.dep_broken] "vendor" Sample.fresh)
    as (Hwarn & _).
  split; [|split].
  - apply (Hwarn
      (mkPool MWait [WUpdate Sample.dep_broken; WSelect] [] 0 1 0 ["."; "vendor"] [])
      0 Sample.dep_broken ["."; "vendor"] "unable to update repository");
      reflexivity.
  - rewrite Hsame, Hcu. simpl. apply Hret. simpl. lia.
  - rewrite Hinst. vm_compute. reflexivity.
Defined.

(** * Further properties of installer.go *)

(** ** The aggregator under longer inputs *)

Lemma first_seen_app_prefix (l1 l2 : list string) :
  first_seen l1 `prefix_of` first_seen (l1 ++ l2).
Proof.
  induction l2 as [|x l2 IH] using rev_ind.
  - by rewrite app_nil_r.
  - rewrite app_assoc, first_seen_snoc. case_decide; [done|].
    by apply prefix_app_r.
Qed.

Lemma first_seen_length (l : list string) : length (first_seen l) ≤ length l.
Proof.
  induction l as [|x l IH] using rev_ind; [done|].
  rewrite first_seen_snoc, length_app. simpl.
  case_decide; [lia|]. rewrite length_app. simpl. lia.
Qed.

Lemma first_seen_NoDup_id (l : list string) : NoDup l → first_seen l = l.
Proof.
  induction l as [|x l IH] using rev_ind; [done|].
  intros [Hl [Hx _]]%NoDup_app. rewrite first_seen_snoc.
  rewrite decide_False.
  - by rewrite IH.
  - intros Hin. apply (Hx x Hin). by left.
Qed.

Lemma suffixes_for_app (N : string → string * string) (r : string)
    (l1 l2 : list string) :
  suffixes_for N r (l1 ++ l2) = suffixes_for N r l1 ++ suffixes_for N r l2.
Proof. apply omap_app. Qed.

(** X1. Feeding more paths to the aggregator never removes or reorders the
    dependencies it had: the Dependency at each earlier position keeps its
    name, and its sub-package list only grows at the end, by the suffixes
    the new paths contribute to its root. *)
Theorem depsFromPackages_extension
    (NormalizeName : string → string * string)
    (pkgs more : list string) (k : nat) (d : Dependency) :
  depsFromPackages NormalizeName pkgs !! k = Some d →
  depsFromPackages NormalizeName (pkgs ++ more) !! k =
    Some (new_dep (Name d)
            (Subpackages d ++ suffixes_for NormalizeName (Name d) more)).
Proof.
  rewrite !depsFromPackages_closed_form, !list_lookup_fmap, fmap_app.
  destruct (first_seen (root_of NormalizeName <$> pkgs) !! k) as [r|] eqn:Hk;
    [|done].
  intros [= <-]. simpl.
  destruct (first_seen_app_prefix (root_of NormalizeName <$> pkgs)
              (root_of NormalizeName <$> more)) as [tl ->].
  rewrite lookup_app_l by (by eapply lookup_lt_Some).
  rewrite Hk. simpl. by rewrite suffixes_for_app.
Qed.

Lemma depsFromPackages_extension_witness :
  depsFromPackages Sample.normalize
    (["example.com/a/x"; "example.com/b"] ++ ["example.com/c"; "example.com/a/y"])
    !! 0
  = Some (new_dep "example.com/a" ["x"; "y"]).
Proof.
  apply (depsFromPackages_extension Sample.normalize
           ["example.com/a/x"; "example.com/b"]
           ["example.com/c"; "example.com/a/y"] 0
           (new_dep "example.com/a" ["x"])).
  reflexivity.
Defined.

Lemma indicator_sum_NoDup (x : string) (n : nat) (R : list string) :
  NoDup R → x ∈ R →
  sum_list_with (λ r, if decide (x = r) then n else 0) R = n.
Proof.
  induction 1 as [|r R Hr HR IH]; [by intros ?%elem_of_nil|].
  intros [->|Hin]%elem_of_cons; simpl.
  - rewrite decide_True by done.
    assert (sum_list_with (λ r0, if decide (r = r0) then n else 0) R = 0) as ->.
    { clear IH HR. induction R as [|y R IH]; [done|]. simpl.
      apply not_elem_of_cons in Hr as [Hne Hr].
      rewrite decide_False by done. by apply IH. }
    lia.
  - rewrite decide_False by (intros ->; done). by apply IH.
Qed.

Lemma suffixes_for_cons_length (N : string → string * string) (r p : string)
    (pkgs : list string) :
  length (suffixes_for N r (p :: pkgs)) =
  (if decide (root_of N p = r)
   then (if decide (suffix_of N p = "") then 0 else 1) else 0)
  + length (suffixes_for N r pkgs).
Proof.
  unfold suffixes_for. simpl.
  destruct (decide (root_of N p = r)); [|done].
  by destruct (decide (suffix_of N p = "")).
Qed.

Lemma suffix_count (N : string → string * string) (R pkgs : list string) :
  NoDup R → (∀ p, p ∈ pkgs → root_of N p ∈ R) →
  sum_list_with (λ r, length (suffixes_for N r pkgs)) R =
  length (filter (λ p, suffix_of N p ≠ "") pkgs).
Proof.
  intros HR. induction pkgs as [|p pkgs IH]; intros Hin.
  - simpl. clear. induction R as [|r R IH]; [done|]. simpl. by rewrite IH.
  - specialize (IH (λ q Hq, Hin q (list_elem_of_further _ _ _ Hq))).
    assert (sum_list_with (λ r, length (suffixes_for N r (p :: pkgs))) R =
            sum_list_with (λ r, if decide (root_of N p = r)
                                then (if decide (suffix_of N p = "") then 0 else 1)
                                else 0) R +
            sum_list_with (λ r, length (suffixes_for N r pkgs)) R) as ->.
    { clear. induction R as [|r R IHR]; [done|].
      cbn [sum_list_with]. rewrite IHR, suffixes_for_cons_length. lia. }
    rewrite indicator_sum_NoDup by (done || (apply Hin; by left)).
    rewrite IH. rewrite filter_cons.
    destruct (decide (suffix_of N p = "")) as [Heq|Hne].
    + rewrite decide_False by (intros Hc; by apply Hc). done.
    + rewrite decide_True by done. done.
Qed.

(** X2. The aggregator neither loses nor invents a sub-package: the
    sub-package lists of its output hold, in total, as many entries as the
    input has paths with a non-empty suffix; and it never returns more
    dependencies than it was given paths. *)
Theorem depsFromPackages_counts
    (NormalizeName : string → string * string) (pkgs : list string) :
  sum_list_with (λ d, length (Subpackages d))
    (depsFromPackages NormalizeName pkgs)
  = length (filter (λ p, suffix_of NormalizeName p ≠ "") pkgs) ∧
  length (depsFromPackages NormalizeName pkgs) ≤ length pkgs.
Proof.
  rewrite depsFromPackages_closed_form. split.
  - rewrite <- (suffix_count NormalizeName
                 (first_seen (root_of NormalizeName <$> pkgs)) pkgs).
    + generalize (first_seen (root_of NormalizeName <$> pkgs)). intros R.
      induction R as [|r R IH]; [done|]. csimpl. by rewrite IH.
    + apply first_seen_NoDup.
    + intros p Hp. apply first_seen_elem_of. by apply list_elem_of_fmap_2.
  - rewrite length_fmap. etrans; [apply first_seen_length|].
    by rewrite length_fmap.
Qed.

Lemma suffixes_for_no_suffix (N : string → string * string) (r : string)
    (l : list string) :
  (∀ q, q ∈ l → suffix_of N q = "") → suffixes_for N r l = [].
Proof.
  induction l as [|q l IH]; intros Hl; [done|].
  unfold suffixes_for in *. simpl.
  destruct (decide (root_of N q = r)).
  - destruct (decide (suffix_of N q = "")) as [_|Hne].
    + apply IH. intros q' Hq'. apply Hl. by right.
    + exfalso. apply Hne, Hl. by left.
  - apply IH. intros q' Hq'. apply Hl. by right.
Qed.

(** X3. Aggregating the names of an aggregate changes nothing but the
    sub-packages: when the normalizer takes every root to itself with an
    empty suffix, the names of the output, aggregated again, give the same
    dependencies in the same order, without sub-packages. *)
Theorem depsFromPackages_of_names
    (NormalizeName : string → string * string) (pkgs : list string) :
  (∀ p, p ∈ pkgs →
        NormalizeName (root_of NormalizeName p) = (root_of NormalizeName p, "")) →
  depsFromPackages NormalizeName (Name <$> depsFromPackages NormalizeName pkgs)
  = (λ d, new_dep (Name d) []) <$> depsFromPackages NormalizeName pkgs.
Proof.
  intros Hfix.
  assert (Name <$> depsFromPackages NormalizeName pkgs
          = first_seen (root_of NormalizeName <$> pkgs)) as Hnames.
  { rewrite depsFromPackages_closed_form, <- list_fmap_compose.
    apply list_fmap_id. }
  rewrite Hnames.
  assert (∀ r, r ∈ first_seen (root_of NormalizeName <$> pkgs) →
               NormalizeName r = (r, "")) as Hr.
  { intros r [p [-> Hp]]%first_seen_elem_of%list_elem_of_fmap. by apply Hfix. }
  rewrite (depsFromPackages_closed_form _ (first_seen _)).
  assert (root_of NormalizeName <$> first_seen (root_of NormalizeName <$> pkgs)
          = first_seen (root_of NormalizeName <$> pkgs)) as Hroots.
  { rewrite <- (list_fmap_id (first_seen _)) at 2.
    apply list_fmap_ext. intros _ r Hin%list_elem_of_lookup_2.
    unfold root_of. by rewrite (Hr r Hin). }
  rewrite Hroots, (first_seen_NoDup_id _ (first_seen_NoDup _)).
  rewrite depsFromPackages_closed_form, <- list_fmap_compose.
  apply list_fmap_ext. intros _ r Hin%list_elem_of_lookup_2. simpl. f_equal.
  apply suffixes_for_no_suffix. intros q Hq. unfold suffix_of.
  by rewrite (Hr q Hq).
Qed.

Lemma depsFromPackages_of_names_witness :
  depsFromPackages Sample.normalize
    (Name <$> depsFromPackages Sample.normalize
                ["example.com/a/x"; "example.com/b"; "example.com/a/y"])
  = [new_dep "example.com/a" []; new_dep "example.com/b" []].
Proof.
  rewrite (depsFromPackages_of_names Sample.normalize
             ["example.com/a/x"; "example.com/b"; "example.com/a/y"]).
  - reflexivity.
  - intros p Hp. repeat (apply elem_of_cons in Hp as [->|Hp]; [reflexivity|]).
    by apply elem_of_nil in Hp.
Defined.

(** ** The pool as a sequence of updates *)

Section PoolFurther.
Context {E : Collaborators}.
Variable deps : list Dependency.
Variable cwd : string.
Variable i : Installer.

Lemma sequential_update_snoc (ds : list Dependency) (d : Dependency) (fs : FS) :
  sequential_update cwd i (ds ++ [d]) fs =
  let '(fs1, evs) := sequential_update cwd i ds fs in
  let '(fs2, r) := VcsUpdate d cwd i fs1 in
  (fs2, evs ++ update_events cwd i d r).
Proof.
  revert fs. induction ds as [|d0 ds IH]; intros fs; simpl.
  - destruct (VcsUpdate d cwd i fs) as [fs2 r]. by rewrite app_nil_r.
  - destruct (VcsUpdate d0 cwd i fs) as [fs1 r0]. rewrite IH.
    destruct (sequential_update cwd i ds fs1) as [fs2 evs].
    destruct (VcsUpdate d cwd i fs2) as [fs3 r]. by rewrite app_assoc.
Qed.

(** Whatever the interleaving, the file system and the trace of a pool are
    those of the updates it has made so far, made one after the other. *)
Lemma step_sequential (fs0 : FS) (t0 : list Event) (a : action)
    (s s' : pool FS) :
  (∃ evs, p_trace s = t0 ++ evs ∧
          sequential_update cwd i (updates_of evs) fs0 = (p_fs s, evs)) →
  step deps cwd i a s = Some s' →
  ∃ evs, p_trace s' = t0 ++ evs ∧
         sequential_update cwd i (updates_of evs) fs0 = (p_fs s', evs).
Proof.
  intros (evs & Ht & Hseq). destruct s as [pc ws inq dn wg sent fs t].
  simpl in *. destruct a as [|w|w|w]; unfold step, main_step; simpl.
  - destruct pc as [ii|[|dep rest]|dep rest| |ii|]; simpl;
      repeat case_decide; intros; simplify_eq/=; by exists evs.
  - destruct (ws !! w) as [[| | |]|]; try done.
    destruct inq; [done|]. intros; simplify_eq/=. by exists evs.
  - destruct (ws !! w) as [[| | |]|]; try done.
    destruct dn; [done|]. intros; simplify_eq/=. by exists evs.
  - destruct (ws !! w) as [[|dep| |]|]; try done.
    + destruct (VcsUpdate dep cwd i fs) as [fs' r] eqn:Hu.
      intros; simplify_eq/=. exists (evs ++ update_events cwd i dep r).
      split; [by rewrite app_assoc|].
      rewrite updates_of_app, update_events_updates, sequential_update_snoc.
      by rewrite Hseq, Hu.
    + destruct wg; [done|]. intros; simplify_eq/=. by exists evs.
Qed.

Lemma exec_sequential (fs0 : FS) (t0 : list Event) (acts : list action)
    (s : pool FS) :
  exec deps cwd i acts (pool_init fs0 t0) = Some s →
  ∃ evs, p_trace s = t0 ++ evs ∧
         sequential_update cwd i (updates_of evs) fs0 = (p_fs s, evs).
Proof.
  assert (∀ s0,
    (∃ evs, p_trace s0 = t0 ++ evs ∧
            sequential_update cwd i (updates_of evs) fs0 = (p_fs s0, evs)) →
    exec deps cwd i acts s0 = Some s →
    ∃ evs, p_trace s = t0 ++ evs ∧
           sequential_update cwd i (updates_of evs) fs0 = (p_fs s, evs)) as Hgen.
  { induction acts as [|a acts IH]; intros s0 H0; simpl.
    - by intros [= <-].
    - destruct (step deps cwd i a s0) as [s1|] eqn:Hs; [|done].
      apply IH. by eapply step_sequential. }
  apply Hgen. exists []. simpl. by rewrite app_nil_r.
Qed.

(** The buffered work channel never holds more than its capacity. *)
Lemma exec_in_bound (acts : list action) (s0 s : pool FS) :
  length (p_in s0) ≤ concurrentWorkers →
  exec deps cwd i acts s0 = Some s →
  length (p_in s) ≤ concurrentWorkers.
Proof.
  revert s0. induction acts as [|a acts IH]; intros s0 H0; simpl.
  - by intros [= <-].
  - destruct (step deps cwd i a s0) as [s1|] eqn:Hs; [|done].
    apply IH. clear IH. destruct s0 as [pc ws inq dn wg sent fs t].
    simpl in *. destruct a as [|w|w|w]; unfold step, main_step in Hs; simpl in Hs.
    + destruct pc as [ii|[|dep rest]|dep rest| |ii|]; simpl in Hs;
        repeat case_decide; simplify_eq/=; try done.
      rewrite length_app. simpl. lia.
    + destruct (ws !! w) as [[| | |]|]; try done.
      destruct inq; [done|]. simplify_eq/=. lia.
    + destruct (ws !! w) as [[| | |]|]; try done.
      destruct dn; [done|]. by simplify_eq/=.
    + destruct (ws !! w) as [[|dep| |]|]; try done.
      * destruct (VcsUpdate dep cwd i fs) as [fs' r]. by simplify_eq/=.
      * destruct wg; [done|]. by simplify_eq/=.
Qed.

(** With nothing to update, the caller always gets through. *)
Lemma stuck_returned_of_nil (t0 : list Event) (s : pool FS) :
  deps = [] → pool_inv deps cwd i t0 s →
  enabled deps cwd i s = [] → p_main s = MReturned.
Proof.
  intros Hnil Hinv Hen.
  assert (∀ a, ¬ is_Some (step deps cwd i a s)) as Hno.
  { intros a Ha. apply enabled_spec in Ha. rewrite Hen in Ha.
    by apply elem_of_nil in Ha. }
  pose proof Hinv as [(evs & Ht & Hev & Hperm) Hwg Hdone Hws Hph].
  rewrite Hnil in Hperm. apply Permutation_nil_r in Hperm.
  apply app_eq_nil in Hperm as [_ Hperm].
  apply app_eq_nil in Hperm as [Hheld Hperm].
  apply app_eq_nil in Hperm as [Hin Hrest].
  destruct s as [pc ws inq dn wg sent fs t]. unfold main_phase in Hph.
  simpl in *. subst inq.
  destruct pc as [ii|[|dep rest]|dep rest| |ii|]; simpl in *; try done.
  - exfalso. apply (Hno AMain). unfold step, main_step. simpl. by case_decide.
  - exfalso. destruct (decide (wg = 0)) as [Hz|Hnz].
    { apply (Hno AMain). unfold step, main_step. simpl. by rewrite decide_True. }
    assert (0 < n_busy ws) as Hb by lia.
    apply sum_list_pos_lookup in Hb as (w & wpc & Hw & Hpos).
    apply (Hno (AWork w)). unfold step. simpl. rewrite Hw.
    destruct wpc as [|d1| |]; simpl in Hpos; try lia.
    + by destruct (VcsUpdate d1 cwd i fs).
    + by destruct wg.
  - exfalso. apply (Hno AMain). unfold step, main_step. simpl.
    destruct (decide (ii < concurrentWorkers)); [|done].
    by rewrite decide_True by lia.
Qed.
End PoolFurther.

Section PoolFurtherTheorems.
Context {E : Collaborators}.

Lemma n_busy_le_length (ws : list worker_pc) : n_busy ws ≤ length ws.
Proof.
  unfold n_busy. induction ws as [|pc ws IH]; [done|].
  destruct pc; simpl; lia.
Qed.

(** The runs of the pool, where a call of [VcsUpdate] together with the
    warning that follows a failure is one action, replayed as the updates of
    some list [order] made one after the other. *)
Lemma ConcurrentUpdate_replay (deps : list Dependency) (cwd : string)
    (i : Installer) (w : World FS) :
  ∃ order sched' o,
    ConcurrentUpdate deps cwd i w =
      ({| w_fs := (sequential_update cwd i order (w_fs w)).1;
          w_trace := w_trace w ++ (sequential_update cwd i order (w_fs w)).2;
          w_sched := sched' |}, o) ∧
    order ⊆+ deps ∧
    (o = Returned tt ∨ o = Deadlocked) ∧
    (o = Returned tt → order ≡ₚ deps) ∧
    (0 < concurrentWorkers ∨ deps = [] → o = Returned tt).
Proof.
  unfold ConcurrentUpdate.
  destruct (run_spec deps cwd i (pool_fuel deps) (w_sched w)
              (pool_init (w_fs w) (w_trace w))) as (acts & Hex & Hen).
  destruct (run deps cwd i (pool_fuel deps) (w_sched w)
              (pool_init (w_fs w) (w_trace w))) as [sched' s].
  simpl in *.
  pose proof (exec_inv deps cwd i _ _ _ _ (pool_inv_init deps cwd i _ _) Hex) as Hinv.
  pose proof Hinv as [(evs & Ht & Hev & Hperm) Hwg Hdone Hws Hph].
  destruct (exec_sequential deps cwd i _ _ _ _ Hex) as (evs' & Ht' & Hseq).
  assert (evs' = evs) as -> by (rewrite Ht in Ht'; by apply app_inv_head in Ht').
  exists (updates_of evs), sched',
    (match p_main s with MReturned => Returned tt | _ => Deadlocked end).
  rewrite Hseq, Ht. simpl. split; [done|]. split.
  { etrans; [|apply Permutation_submseteq, Hperm]. by apply submseteq_inserts_r. }
  split; [by destruct (p_main s); auto|]. split.
  - intros Hret. destruct (p_main s) eqn:Hpc; try done.
    unfold main_phase in Hph. rewrite Hpc in Hph. destruct Hph as [_ Hz].
    destruct (inv_after_wait deps cwd i _ _ Hinv Hz) as (Hin & _ & Hheld & _).
    rewrite Hin, Hheld in Hperm. simpl in Hperm. by rewrite app_nil_r in Hperm.
  - specialize (Hen ltac:(by rewrite pool_fuel_measure)).
    intros [HW|Hnil].
    + destruct (progress deps cwd i _ _ HW Hinv) as [[Hq _]|[a Ha]].
      * by rewrite Hq.
      * apply enabled_spec in Ha. rewrite Hen in Ha. by apply elem_of_nil in Ha.
    + by rewrite (stuck_returned_of_nil deps cwd i _ _ Hnil Hinv Hen).
Qed.

(** X5. In every state a run of the pool can reach: the work channel and
    the stop channel hold at most [concurrentWorkers] values, at most
    [concurrentWorkers] workers exist, so at most that many updates are in
    progress; a worker that has finished an update can always call
    [wg.Done()] (the counter never falls below zero), and the caller is
    never blocked when it sends a stop signal. *)
Theorem pool_stays_within_bounds
    (deps : list Dependency) (cwd : string) (i : Installer)
    (fs : FS) (t0 : list Event) (acts : list action) (s : pool FS) :
  exec deps cwd i acts (pool_init fs t0) = Some s →
  length (p_in s) ≤ concurrentWorkers ∧
  p_done s ≤ concurrentWorkers ∧
  length (p_workers s) ≤ concurrentWorkers ∧
  n_busy (p_workers s) ≤ concurrentWorkers ∧
  (∀ k, p_workers s !! k = Some WDone → is_Some (step deps cwd i (AWork k) s)) ∧
  (∀ ii, p_main s = MStop ii → is_Some (step deps cwd i AMain s)).
Proof.
  intros Hex.
  pose proof (exec_inv deps cwd i _ _ _ _ (pool_inv_init deps cwd i _ _) Hex) as Hinv.
  pose proof Hinv as [_ Hwg Hdone Hws Hph].
  assert (length (p_in s) ≤ concurrentWorkers) as Hin.
  { eapply (exec_in_bound deps cwd i acts); [|exact Hex]. simpl. lia. }
  assert (length (p_workers s) ≤ concurrentWorkers) as Hlen.
  { rewrite Hws. unfold main_phase in Hph.
    destruct (p_main s); simpl in *; lia. }
  assert (p_done s ≤ concurrentWorkers) as Hd.
  { unfold main_phase in Hph. destruct (p_main s); simpl in *; lia. }
  split; [done|]. split; [done|]. split; [done|].
  split; [pose proof (n_busy_le_length (p_workers s)); lia|]. split.
  - intros k Hk. unfold step. rewrite Hk.
    pose proof (sum_list_lookup_le busy1 _ _ _ Hk) as Hb. unfold n_busy in Hwg.
    simpl in Hb. destruct (p_wg s); [lia|done].
  - intros ii Hpc. unfold step, main_step. rewrite Hpc.
    unfold main_phase in Hph. rewrite Hpc in Hph.
    destruct (decide (ii < concurrentWorkers)); [|done].
    rewrite decide_True by lia. done.
Qed.

(** X6. With an empty list [ConcurrentUpdate] returns, whatever the number
    of workers, and changes neither the file system nor the trace. *)
Theorem ConcurrentUpdate_nothing_to_do
    (cwd : string) (i : Installer) (w : World FS) :
  ∃ sched',
    ConcurrentUpdate [] cwd i w =
      ({| w_fs := w_fs w; w_trace := w_trace w; w_sched := sched' |},
       Returned tt).
Proof.
  destruct (ConcurrentUpdate_replay [] cwd i w)
    as (order & sched' & o & Hrun & Hsub & _ & _ & Hret).
  apply submseteq_nil_r in Hsub. subst order. simpl in Hrun.
  rewrite app_nil_r in Hrun. rewrite (Hret (or_intror eq_refl)) in Hrun.
  by exists sched'.
Qed.

Lemma sequential_update_no_failure (cwd : string) (i : Installer)
    (ds : list Dependency) (fs : FS) :
  (∀ d fs', d ∈ ds → (VcsUpdate d cwd i fs').2 = None) →
  (sequential_update cwd i ds fs).2 = (λ d, EvUpdate d cwd i) <$> ds.
Proof.
  revert fs. induction ds as [|d ds IH]; intros fs Hok; [done|]. simpl.
  pose proof (Hok d fs ltac:(by left)) as Hd.
  destruct (VcsUpdate d cwd i fs) as [fs1 r]. simpl in Hd. subst r.
  specialize (IH fs1 (λ d' fs' Hd', Hok d' fs' ltac:(by right))).
  destruct (sequential_update cwd i ds fs1) as [fs2 evs]. simpl in *.
  by rewrite IH.
Qed.

(** X7. When no update of a dependency of the list can fail,
    [ConcurrentUpdate] writes no message at all: the trace gains one update
    call for each dependency it updated, and nothing else. *)
Theorem ConcurrentUpdate_silent_without_failures
    (deps : list Dependency) (cwd : string) (i : Installer) (w : World FS) :
  (∀ d fs, d ∈ deps → (VcsUpdate d cwd i fs).2 = None) →
  ∃ order o,
    w_trace (ConcurrentUpdate deps cwd i w).1 =
      w_trace w ++ ((λ d, EvUpdate d cwd i) <$> order) ∧
    (ConcurrentUpdate deps cwd i w).2 = o ∧
    order ⊆+ deps ∧
    (o = Returned tt → order ≡ₚ deps).
Proof.
  intros Hok.
  destruct (ConcurrentUpdate_replay deps cwd i w)
    as (order & sched' & o & Hrun & Hsub & _ & Hperm & _).
  exists order, o. rewrite Hrun. simpl.
  rewrite sequential_update_no_failure; [done|].
  intros d fs' Hd. apply Hok. by eapply elem_of_submseteq.
Qed.
End PoolFurtherTheorems.

Lemma pool_stays_within_bounds_witness :
  ∃ s,
    exec (E := Sample.env) [Sample.dep_a; Sample.dep_b] "vendor" Sample.inst
      [AMain; AMain; AMain; AMain; AMain; ARecv 0; AMain; AMain; ARecv 1;
       AWork 1; AWork 0]
      (pool_init (E := Sample.env) (w_fs Sample.fresh) []) = Some s ∧
    n_busy (p_workers s) ≤ 2 ∧
    is_Some (step (E := Sample.env) [Sample.dep_a; Sample.dep_b] "vendor"
               Sample.inst (AWork 0) s).
Proof.
  eexists. split; [vm_compute; reflexivity|].
  match goal with
  | |- n_busy (p_workers ?s) ≤ _ ∧ _ =>
      destruct (pool_stays_within_bounds (E := Sample.env)
        [Sample.dep_a; Sample.dep_b] "vendor" Sample.inst
        (w_fs Sample.fresh) []
        [AMain; AMain; AMain; AMain; AMain; ARecv 0; AMain; AMain; ARecv 1;
         AWork 1; AWork 0] s eq_refl)
        as (_ & _ & _ & Hbusy & Hdone & _)
  end.
  split; [exact Hbusy|]. apply Hdone. reflexivity.
Defined.

Lemma ConcurrentUpdate_silent_without_failures_witness :
  w_trace (ConcurrentUpdate (E := Sample.env) [Sample.dep_a] "vendor"
             Sample.inst Sample.fresh).1
  = [EvUpdate Sample.dep_a "vendor" Sample.inst].
Proof.
  destruct (ConcurrentUpdate_silent_without_failures (E := Sample.env)
              [Sample.dep_a] "vendor" Sample.inst Sample.fresh)
    as (order & o & Ht & Ho & _ & Hperm).
  - intros d fs [->|Hd%elem_of_nil]%elem_of_cons; [reflexivity|done].
  - assert (o = Returned tt) as Hret by (rewrite <- Ho; vm_compute; reflexivity).
    apply Hperm, Permutation_singleton_r in Hret. subst order. exact Ht.
Defined.

(** ** A pool without workers *)

Section NoWorkers.
Context {E : Collaborators}.
Variable deps : list Dependency.
Variable cwd : string.
Variable i : Installer.

Lemma run_stuck (fuel : nat) (sched : list nat) (s : pool FS) :
  enabled deps cwd i s = [] → run deps cwd i fuel sched s = (sched, s).
Proof. intros Hen. destruct fuel; simpl; [done|]. by rewrite Hen. Qed.

Lemma run_single (fuel : nat) (sched : list nat) (s s' : pool FS) (a : action) :
  enabled deps cwd i s = [a] → step deps cwd i a s = Some s' →
  run deps cwd i (S fuel) sched s = run deps cwd i fuel (tl sched) s'.
Proof.
  intros Hen Hs. cbn [run]. rewrite Hen. cbn [length].
  rewrite Nat.mod_1_r. simpl. by rewrite Hs.
Qed.

Lemma enabled_no_workers (s : pool FS) :
  p_workers s = [] →
  enabled deps cwd i s =
    match main_step deps s with Some _ => [AMain] | None => [] end.
Proof.
  intros Hws. unfold enabled, candidates. rewrite Hws. simpl.
  rewrite filter_cons, filter_nil. simpl.
  destruct (main_step deps s) as [s'|]; case_decide as Hd; try done.
  all: first [exfalso; apply Hd; by eexists | by destruct Hd].
Qed.

(** X8. A pool of zero workers has two unbuffered channels and nobody to
    receive: given a non-empty list, the caller blocks at its first send
    and [ConcurrentUpdate] never returns; nothing has been updated and
    nothing written. *)
Theorem ConcurrentUpdate_without_workers (w : World FS) :
  concurrentWorkers = 0 → deps ≠ [] →
  ConcurrentUpdate deps cwd i w =
    ({| w_fs := w_fs w; w_trace := w_trace w; w_sched := tl (tl (w_sched w)) |},
     Deadlocked).
Proof.
  intros HW Hne. destruct deps as [|d rest] eqn:Hdeps; [done|].
  unfold ConcurrentUpdate, pool_fuel. rewrite HW. simpl length.
  replace (5 * S (length rest) + 3 * 0 + 4) with (S (S (5 * length rest + 7)))
    by lia.
  rewrite <- Hdeps.
  erewrite run_single; cycle 1.
  { rewrite enabled_no_workers by done. unfold main_step. simpl.
    rewrite HW. reflexivity. }
  { unfold step, main_step. simpl. rewrite HW. reflexivity. }
  erewrite run_single; cycle 1.
  { rewrite enabled_no_workers by done. unfold main_step. simpl.
    rewrite Hdeps. reflexivity. }
  { unfold step, main_step. simpl. rewrite Hdeps. reflexivity. }
  rewrite run_stuck.
  - reflexivity.
  - rewrite enabled_no_workers by done. unfold main_step. simpl.
    rewrite HW. reflexivity.
Qed.
End NoWorkers.

Lemma ConcurrentUpdate_without_workers_witness :
  ConcurrentUpdate (E := with_workers Sample.env 0) [Sample.dep_a] "vendor"
    Sample.inst Sample.fresh
  = (Sample.fresh, Deadlocked).
Proof.
  apply (ConcurrentUpdate_without_workers (E := with_workers Sample.env 0)
           [Sample.dep_a] "vendor" Sample.inst Sample.fresh); [reflexivity|done].
Defined.

(** ** [Checkout], whatever the VCS fetch does *)

Section CheckoutFurther.
Context {E : Collaborators}.

Lemma checkout_event_mono (i : Installer) (dest : string)
    (deps deps' : list Dependency) (e : Event) :
  deps ⊆ deps' → checkout_event i dest deps e → checkout_event i dest deps' e.
Proof.
  intros Hsub. destruct e as [lv f a|d target hm c cg ug|d v ii]; simpl; [done| |done].
  intros (Hd & ?). split; [by apply Hsub|done].
Qed.

Lemma found_of_app (t1 t2 : list Event) :
  found_of (t1 ++ t2) = found_of t1 ++ found_of t2.
Proof. apply omap_app. Qed.

(** [checkoutImports] always returns; it writes messages and fetches and
    nothing else; when it returns nil it has reported or fetched every
    dependency of the list; when it returns an error, that is the error of
    the fetch it made last. *)
Lemma checkoutImports_events (i : Installer) (deps : list Dependency)
    (dest : string) (w : World FS) :
  ∃ fs' evs r,
    checkoutImports i deps dest w =
      ({| w_fs := fs'; w_trace := w_trace w ++ evs; w_sched := w_sched w |},
       Returned r) ∧
    Forall (checkout_event i dest deps) evs ∧
    (r = None → length (found_of evs) + length (gets_of evs) = length deps) ∧
    (∀ e, r = Some e →
       ∃ evs' d fs0,
         evs = evs' ++ [EvGet d (filepath_Join dest (Name d)) (Home i)
                          (UseCache i) (UseCacheGopath i) (UseGopath i)] ∧
         VcsGet d (filepath_Join dest (Name d)) (Home i) (UseCache i)
           (UseCacheGopath i) (UseGopath i) fs0 = (fs', Some e)).
Proof.
  revert w. induction deps as [|c deps IH]; intros w; simpl.
  - exists (w_fs w), [], None. unfold ret. rewrite app_nil_r.
    split; [by destruct w|]. split; [constructor|]. split; [done|done].
  - unfold bind at 1, call_Stat.
    destruct (os_Stat (w_fs w) (filepath_Join dest (Name c))) eqn:Hstat.
    + unfold bind, msg_Debug, emit.
      destruct (IH (with_events w [EvMsg LDebug "Package %s already found." [Name c]]))
        as (fs' & evs & r & -> & Hev & Hcount & Herr).
      exists fs', (EvMsg LDebug "Package %s already found." [Name c] :: evs), r.
      simpl. split; [by rewrite <- app_assoc|]. split; [|split].
      * constructor; [simpl; auto|].
        eapply Forall_impl; [exact Hev|]. intros e.
        apply checkout_event_mono. set_solver.
      * intros Hr. specialize (Hcount Hr). simpl. lia.
      * intros e Hr. destruct (Herr e Hr) as (evs' & d & fs0 & -> & Hget).
        by exists (EvMsg LDebug "Package %s already found." [Name c] :: evs'), d, fs0.
    + unfold bind at 1, msg_Info, emit. unfold bind at 1, call_VcsGet. simpl.
      destruct (VcsGet c (filepath_Join dest (Name c)) (Home i) (UseCache i)
                  (UseCacheGopath i) (UseGopath i) (w_fs w)) as [fs1 [e|]] eqn:Hget.
      * exists fs1, [EvMsg LInfo "Fetching %s into %s" [Name c; dest];
                     EvGet c (filepath_Join dest (Name c)) (Home i) (UseCache i)
                       (UseCacheGopath i) (UseGopath i)], (Some e).
        unfold ret. simpl. split; [by rewrite <- app_assoc|].
        split; [|split; [done|]].
        -- repeat constructor; simpl; auto; try set_solver.
        -- intros e' [= <-].
           by exists [EvMsg LInfo "Fetching %s into %s" [Name c; dest]], c, (w_fs w).
      * match goal with
        | |- context [checkoutImports i deps dest ?w1] =>
            destruct (IH w1) as (fs' & evs & r & -> & Hev & Hcount & Herr)
        end.
        simpl.
        exists fs', ([EvMsg LInfo "Fetching %s into %s" [Name c; dest];
                      EvGet c (filepath_Join dest (Name c)) (Home i) (UseCache i)
                        (UseCacheGopath i) (UseGopath i)] ++ evs), r.
        split; [by rewrite <- !app_assoc|]. split; [|split].
        -- apply Forall_app. split.
           ++ repeat constructor; simpl; auto; try set_solver.
           ++ eapply Forall_impl; [exact Hev|]. intros e.
              apply checkout_event_mono. set_solver.
        -- intros Hr. specialize (Hcount Hr).
           rewrite found_of_app, gets_of_app, !length_app. simpl. lia.
        -- intros e Hr. destruct (Herr e Hr) as (evs' & d & fs0 & -> & Hget').
           exists ([EvMsg LInfo "Fetching %s into %s" [Name c; dest];
                    EvGet c (filepath_Join dest (Name c)) (Home i) (UseCache i)
                      (UseCacheGopath i) (UseGopath i)] ++ evs'), d, fs0.
           by rewrite <- app_assoc.
Qed.

Lemma handled_of_app (t1 t2 : list Event) :
  handled_of (t1 ++ t2) = handled_of t1 ++ handled_of t2.
Proof. apply omap_app. Qed.

Lemma fetch_results_app (fs : FS) (t1 t2 : list Event) :
  fetch_results fs (t1 ++ t2) =
  let '(fs1, r1) := fetch_results fs t1 in
  let '(fs2, r2) := fetch_results fs1 t2 in
  (fs2, r1 ++ r2).
Proof.
  revert fs. induction t1 as [|e t1 IH]; intros fs; simpl.
  - by destruct (fetch_results fs t2).
  - destruct e as [lv f a|d target hm c cg ug|d v ii]; [done| |done].
    destruct (VcsGet d target hm c cg ug fs) as [fs1 r]. rewrite IH.
    destruct (fetch_results fs1 t1) as [fs2 r1].
    by destruct (fetch_results fs2 t2).
Qed.

Lemma checkoutImports_course (i : Installer) (deps : list Dependency)
    (dest : string) (w : World FS) :
  ∃ fs' evs r,
    checkoutImports i deps dest w =
      ({| w_fs := fs'; w_trace := w_trace w ++ evs; w_sched := w_sched w |},
       Returned r) ∧
    checkout_course i dest deps (w_fs w) fs' evs r.
Proof.
  revert w. induction deps as [|c deps IH]; intros w; simpl.
  - exists (w_fs w), [], None. unfold ret. rewrite app_nil_r.
    split; [by destruct w|]. split; [constructor|]. by exists [].
  - unfold bind at 1, call_Stat.
    destruct (os_Stat (w_fs w) (filepath_Join dest (Name c))) eqn:Hstat.
    + unfold bind, msg_Debug, emit.
      destruct (IH (with_events w [EvMsg LDebug "Package %s already found." [Name c]]))
        as (fs' & evs & r & -> & Hc).
      exists fs', (EvMsg LDebug "Package %s already found." [Name c] :: evs), r.
      simpl. split; [by rewrite <- app_assoc|].
      destruct r as [e|]; simpl in *.
      * destruct Hc as (evs' & pre & d & post & fs0 & oks & -> & -> & Hh & Hf & Hok & Hst & Hget).
        exists (EvMsg LDebug "Package %s already found." [Name c] :: evs'),
          (c :: pre), d, post, fs0, oks.
        repeat split; try done. simpl. constructor; [by left|done].
      * destruct Hc as (Hh & oks & Hf & Hok). split; [|by exists oks].
        constructor; [by left|done].
    + unfold bind at 1, msg_Info, emit. unfold bind at 1, call_VcsGet. simpl.
      destruct (VcsGet c (filepath_Join dest (Name c)) (Home i) (UseCache i)
                  (UseCacheGopath i) (UseGopath i) (w_fs w)) as [fs1 [e|]] eqn:Hget.
      * exists fs1, [EvMsg LInfo "Fetching %s into %s" [Name c; dest];
                     EvGet c (filepath_Join dest (Name c)) (Home i) (UseCache i)
                       (UseCacheGopath i) (UseGopath i)], (Some e).
        unfold ret. simpl. split; [by rewrite <- app_assoc|].
        exists [EvMsg LInfo "Fetching %s into %s" [Name c; dest]], [], c, deps,
          (w_fs w), [].
        repeat split; try done.
      * match goal with
        | |- context [checkoutImports i deps dest ?w1] =>
            destruct (IH w1) as (fs' & evs & r & -> & Hc)
        end.
        simpl in *.
        exists fs', ([EvMsg LInfo "Fetching %s into %s" [Name c; dest];
                      EvGet c (filepath_Join dest (Name c)) (Home i) (UseCache i)
                        (UseCacheGopath i) (UseGopath i)] ++ evs), r.
        split; [by rewrite <- !app_assoc|].
        destruct r as [e|]; simpl in *.
        -- destruct Hc as (evs' & pre & d & post & fs0 & oks & -> & -> & Hh & Hf & Hok & Hst & Hget').
           exists ([EvMsg LInfo "Fetching %s into %s" [Name c; dest];
                    EvGet c (filepath_Join dest (Name c)) (Home i) (UseCache i)
                      (UseCacheGopath i) (UseGopath i)] ++ evs'),
             (c :: pre), d, post, fs0, (None :: oks).
           simpl. rewrite Hget, Hf.
           repeat split; try done; constructor; try done. by right.
        -- destruct Hc as (Hh & oks & Hf & Hok). rewrite Hget, Hf. split.
           ++ constructor; [by right|done].
           ++ exists (None :: oks). split; [done|]. by constructor.
Qed.

(** The course of [Checkout] over the declared dependencies, the imports
    followed by the dev-imports when these are asked for. *)
Lemma Checkout_course
    (i : Installer) (conf : Config) (useDev : bool) (w : World FS) :
  ∃ fs' evs r,
    Checkout i conf useDev w =
      ({| w_fs := fs'; w_trace := w_trace w ++ evs; w_sched := w_sched w |},
       Returned r) ∧
    checkout_course i "./vendor"
      (Imports conf ++ (if useDev then DevImports conf else []))
      (w_fs w) fs' evs r.
Proof.
  unfold Checkout.
  destruct (checkoutImports_course i (Imports conf) "./vendor" w)
    as (fs1 & evs1 & r1 & Hrun1 & Hc1).
  unfold bind at 1. rewrite Hrun1. destruct r1 as [e|].
  { exists fs1, evs1, (Some e). unfold ret. split; [done|]. simpl in *.
    destruct Hc1 as (evs' & pre & d & post & fs0 & oks & -> & -> & Hh & Hf & Hok & Hst & Hget).
    exists evs', pre, d, (post ++ (if useDev then DevImports conf else [])), fs0, oks.
    repeat split; try done. by rewrite <- app_assoc. }
  simpl in Hc1. destruct Hc1 as (Hh1 & oks1 & Hf1 & Hok1).
  destruct useDev.
  - match goal with
    | |- context [checkoutImports i (DevImports conf) "./vendor" ?w1] =>
        destruct (checkoutImports_course i (DevImports conf) "./vendor" w1)
          as (fs2 & evs2 & r2 & Hrun2 & Hc2)
    end.
    simpl in *. rewrite Hrun2.
    exists fs2, (evs1 ++ evs2), r2. split; [by rewrite app_assoc|].
    destruct r2 as [e|]; simpl in *.
    + destruct Hc2 as (evs' & pre & d & post & fs0 & oks & -> & Hdev & Hh & Hf & Hok & Hst & Hget).
      exists (evs1 ++ evs'), (Imports conf ++ pre), d, post, fs0, (oks1 ++ oks).
      rewrite Hdev, handled_of_app, fetch_results_app, Hf1, Hf.
      repeat split; try done.
      * by rewrite <- !app_assoc.
      * by rewrite <- app_assoc.
      * by apply Forall2_app.
      * by apply Forall_app.
    + destruct Hc2 as (Hh2 & oks2 & Hf2 & Hok2).
      rewrite handled_of_app, fetch_results_app, Hf1, Hf2. split.
      * by apply Forall2_app.
      * exists (oks1 ++ oks2). split; [done|]. by apply Forall_app.
  - exists fs1, evs1, None. unfold ret. split; [done|]. simpl.
    rewrite app_nil_r. split; [done|]. by exists oks1.
Qed.

(** X9. Whatever the VCS fetch does, [Checkout] returns: it never ends the
    process, never calls [VcsUpdate] and never involves the scheduler.  It
    writes only info and debug messages and fetches; every fetch is of a
    declared dependency (a dev-import only when asked for), into
    filepath.Join("./vendor", name), with the installer's home and cache
    settings.  When it returns nil, every declared dependency was either
    reported as found or fetched: the reports and fetches of the trace are
    for the declared dependencies one by one, in their order, each
    dependency reported by its name or fetched itself, so that there are as
    many reports and fetches as declared dependencies. *)
Theorem Checkout_only_fetches
    (i : Installer) (conf : Config) (useDev : bool) (w : World FS) :
  let declared := Imports conf ++ (if useDev then DevImports conf else []) in
  ∃ fs' evs r,
    Checkout i conf useDev w =
      ({| w_fs := fs'; w_trace := w_trace w ++ evs; w_sched := w_sched w |},
       Returned r) ∧
    Forall (checkout_event i "./vendor" declared) evs ∧
    updates_of evs = [] ∧
    (r = None →
       length (found_of evs) + length (gets_of evs) = length declared) ∧
    (r = None → Forall2 handles (handled_of evs) declared).
Proof.
  intros declared.
  destruct (Checkout_course i conf useDev w) as (fs0 & evs0 & r0 & Hrun0 & Hc0).
  assert (∀ evs, Forall (checkout_event i "./vendor" declared) evs →
                 updates_of evs = []) as Hnoup.
  { induction 1 as [|e evs He _ IH]; [done|]. by destruct e. }
  assert (∃ fs' evs r,
    Checkout i conf useDev w =
      ({| w_fs := fs'; w_trace := w_trace w ++ evs; w_sched := w_sched w |},
       Returned r) ∧
    Forall (checkout_event i "./vendor" declared) evs ∧
    updates_of evs = [] ∧
    (r = None →
       length (found_of evs) + length (gets_of evs) = length declared))
    as (fs' & evs & r & Hrun & Hev & Hup & Hcount).
  { unfold Checkout.
    destruct (checkoutImports_events i (Imports conf) "./vendor" w)
      as (fs1 & evs1 & r1 & Hrun1 & Hev1 & Hc1 & _).
    assert (Forall (checkout_event i "./vendor" declared) evs1) as Hev1'.
    { eapply Forall_impl; [exact Hev1|]. intros e.
      apply checkout_event_mono. unfold declared. set_solver. }
    unfold bind at 1. rewrite Hrun1. destruct r1 as [e|].
    { exists fs1, evs1, (Some e). unfold ret. split; [done|].
      split; [done|]. split; [by apply Hnoup|done]. }
    destruct useDev.
    - match goal with
      | |- context [checkoutImports i (DevImports conf) "./vendor" ?w1] =>
          destruct (checkoutImports_events i (DevImports conf) "./vendor" w1)
            as (fs2 & evs2 & r2 & Hrun2 & Hev2 & Hc2 & _)
      end.
      simpl in *. rewrite Hrun2.
      assert (Forall (checkout_event i "./vendor" declared) (evs1 ++ evs2)) as Hev.
      { apply Forall_app. split; [done|].
        eapply Forall_impl; [exact Hev2|]. intros e.
        apply checkout_event_mono. unfold declared. set_solver. }
      exists fs2, (evs1 ++ evs2), r2. split; [by rewrite app_assoc|].
      split; [done|]. split; [by apply Hnoup|].
      intros Hr. unfold declared.
      rewrite found_of_app, gets_of_app, !length_app.
      specialize (Hc1 eq_refl). specialize (Hc2 Hr). lia.
    - exists fs1, evs1, None. unfold ret. split; [done|]. split; [done|].
      split; [by apply Hnoup|]. intros _. unfold declared.
      rewrite app_nil_r. by apply Hc1. }
  exists fs', evs, r. split; [done|]. split; [done|]. split; [done|].
  split; [done|]. intros ->.
  rewrite Hrun in Hrun0. injection Hrun0 as <- Ht <-.
  apply app_inv_head in Ht as <-. simpl in Hc0. by destruct Hc0.
Qed.

(** X10. [Checkout] stops at the first fetch that fails, and only there.
    Making the fetches of its trace again from the file system it started
    on gives the file system it leaves.  When it returns nil, every fetch it
    made returned nil.  When it returns an error, the declared dependencies
    before some declared dependency [d] were each reported as found or
    fetched, every fetch for them returned nil, the target of [d] did not
    exist, the fetch of [d] is the last event of the trace and returned this
    error, and the file system is as that fetch left it: no dependency
    declared after [d] was looked at.  So a fetch that fails is always the
    last thing [Checkout] does, and its error is what [Checkout] returns. *)
Theorem Checkout_stops_at_first_failure
    (i : Installer) (conf : Config) (useDev : bool) (w : World FS) :
  let declared := Imports conf ++ (if useDev then DevImports conf else []) in
  ∃ fs' evs r,
    Checkout i conf useDev w =
      ({| w_fs := fs'; w_trace := w_trace w ++ evs; w_sched := w_sched w |},
       Returned r) ∧
    match r with
    | None =>
        ∃ oks, fetch_results (w_fs w) evs = (fs', oks) ∧
               Forall (λ x, x = None) oks
    | Some e =>
        ∃ evs' pre d post fs0 oks,
          evs = evs' ++ [EvGet d (filepath_Join "./vendor" (Name d)) (Home i)
                           (UseCache i) (UseCacheGopath i) (UseGopath i)] ∧
          declared = pre ++ d :: post ∧
          Forall2 handles (handled_of evs') pre ∧
          fetch_results (w_fs w) evs' = (fs0, oks) ∧
          Forall (λ x, x = None) oks ∧
          os_Stat fs0 (filepath_Join "./vendor" (Name d)) = false ∧
          VcsGet d (filepath_Join "./vendor" (Name d)) (Home i) (UseCache i)
            (UseCacheGopath i) (UseGopath i) fs0 = (fs', Some e)
    end.
Proof.
  intros declared.
  destruct (Checkout_course i conf useDev w) as (fs' & evs & r & Hrun & Hc).
  exists fs', evs, r. split; [done|].
  destruct r as [e|]; simpl in Hc; [done|]. by destruct Hc.
Qed.
End CheckoutFurther.

Lemma Checkout_stops_at_first_failure_witness :
  ∃ evs' fs0,
    Checkout (E := Sample.env) Sample.inst
      {| CName := "proj";
         Imports := [Sample.dep_a; Sample.dep_broken; Sample.dep_b];
         DevImports := [] |} false Sample.fresh
    = ({| w_fs := fs0;
          w_trace := evs' ++ [EvGet Sample.dep_broken "vendor/example.com/broken"
                                "/home/user/.glide" false false false];
          w_sched := [] |},
       Returned (Some "unable to get repository")) ∧
    Forall2 handles (handled_of evs') [Sample.dep_a] ∧
    fetch_results (E := Sample.env) (w_fs Sample.fresh) evs' = (fs0, [None]).
Proof.
  destruct (Checkout_stops_at_first_failure (E := Sample.env) Sample.inst
              {| CName := "proj";
                 Imports := [Sample.dep_a; Sample.dep_broken; Sample.dep_b];
                 DevImports := [] |} false Sample.fresh)
    as (fs' & evs & r & Hrun & Hc).
  assert (r = Some "unable to get repository") as ->
    by (vm_compute in Hrun; by injection Hrun as _ _ <-).
  destruct Hc as (evs' & pre & d & post & fs0 & oks & -> & Hdecl & Hh & Hf & _ & _ & Hget).
  assert (evs' = [EvMsg LInfo "Fetching %s into %s" ["example.com/a"; "./vendor"];
                  EvGet Sample.dep_a "vendor/example.com/a" "/home/user/.glide"
                    false false false;
                  EvMsg LInfo "Fetching %s into %s" ["example.com/broken"; "./vendor"]]
          ∧ d = Sample.dep_broken) as [-> ->].
  { vm_compute in Hrun. injection Hrun as _ Ht.
    change (?a :: ?b :: ?c :: [?x]) with ([a; b; c] ++ [x]) in Ht.
    apply app_inj_tail in Ht as [<- Hd]. split; [reflexivity|].
    destruct d. vm_compute in Hd. by injection Hd as <- <- <- <- <- <- <-. }
  exists [EvMsg LInfo "Fetching %s into %s" ["example.com/a"; "./vendor"];
          EvGet Sample.dep_a "vendor/example.com/a" "/home/user/.glide"
            false false false;
          EvMsg LInfo "Fetching %s into %s" ["example.com/broken"; "./vendor"]],
    fs0.
  assert (pre = [Sample.dep_a]) as ->.
  { simpl in Hdecl. destruct pre as [|p1 [|p2 pre]]; simpl in Hdecl.
    - by injection Hdecl.
    - by injection Hdecl as <- _.
    - injection Hdecl as _ _ Hrest. vm_compute in Hh.
      apply Forall2_length in Hh. simpl in Hh. lia. }
  split; [|split; [exact Hh|]].
  - rewrite Hrun. vm_compute in Hget. vm_compute in Hf.
    injection Hf as <- _. by injection Hget as <-.
  - transitivity (fs0, oks); [exact Hf|]. f_equal.
    vm_compute in Hf. by injection Hf as _ <-.
Defined.

(** ** [allPackages] and the paths it returns *)

Lemma strip_prefix_app (p s : string) : strip_prefix p (p +:+ s) = Some s.
Proof.
  induction p as [|c p IH]; [done|]. simpl. by rewrite Ascii.eqb_refl.
Qed.

Lemma strip_prefix_Some (p s s' : string) :
  strip_prefix p s = Some s' → s = p +:+ s'.
Proof.
  revert s. induction p as [|c p IH]; intros s; simpl; [by intros [= ->]|].
  destruct s as [|c' s]; [done|].
  destruct (Ascii.eqb c c') eqn:Hc; [|done].
  apply Ascii.eqb_eq in Hc as ->. intros Hs. by rewrite (IH _ Hs).
Qed.

Lemma TrimPrefix_cases (s p : string) :
  s = p +:+ strings_TrimPrefix s p ∨
  (strings_TrimPrefix s p = s ∧ strip_prefix p s = None).
Proof.
  unfold strings_TrimPrefix. destruct (strip_prefix p s) as [s'|] eqn:Hs.
  - left. simpl. by apply strip_prefix_Some.
  - by right.
Qed.

Section AllPackagesFurther.
Context {E : Collaborators}.

(** X11. What [allPackages] returns.  For an empty list it returns no
    packages and no error, and does nothing.  With an error it never
    returns packages.  If the vendor directory cannot be located, it
    returns that error without consulting the resolver.  And when it
    succeeds, it returns the resolver's paths one for one: a path below the
    vendor directory without the prefix "vendor directory, separator", any
    other path as it is. *)
Theorem allPackages_results
    (deps : list Dependency) (res : Resolver) (m : MissingPackageHandler)
    (w w1 : World FS) (pkgs : list string) (err : option error) :
  allPackages deps res m w = (w1, Returned (pkgs, err)) →
  (deps = [] → pkgs = [] ∧ err = None ∧ w1 = w) ∧
  (err ≠ None → pkgs = []) ∧
  (∀ e, deps ≠ [] → (gpath_Vendor (w_fs w)).2 = Some e →
        err = Some e ∧ w1 = w) ∧
  (deps ≠ [] → err = None →
     ∃ ll,
       call_ResolveAll res m deps w = (w1, Returned (ll, None)) ∧
       Forall2 (λ p q,
                  p = ((gpath_Vendor (w_fs w)).1 +:+ os_PathSeparator) +:+ q ∨
                  (q = p ∧
                   strip_prefix ((gpath_Vendor (w_fs w)).1 +:+ os_PathSeparator) p
                     = None))
               ll pkgs).
Proof.
  unfold allPackages. case_decide as Hlen.
  { unfold ret. intros [= <- <- <-].
    assert (deps = []) as -> by (by destruct deps).
    split; [done|]. split; [done|]. split; done. }
  assert (deps ≠ []) as Hne by (by destruct deps).
  unfold bind at 1, call_Vendor.
  destruct (gpath_Vendor (w_fs w)) as [vdir [e|]] eqn:Hv; simpl.
  { unfold ret. intros [= <- <- <-].
    split; [done|]. split; [done|]. split; [|done].
    intros e' _ [= <-]. done. }
  unfold bind at 1.
  destruct (call_ResolveAll res m deps w) as [w2 [[ll [e|]]| |]] eqn:Hwalk;
    try done.
  { unfold ret. intros [= <- <- <-].
    split; [done|]. split; [done|]. split; done. }
  unfold ret. intros [= <- <- <-].
  split; [done|]. split; [done|]. split; [done|].
  intros _ _. exists ll. split; [done|].
  apply Forall2_fmap_r, Forall_Forall2_diag, Forall_forall.
  intros p _. destruct (TrimPrefix_cases p (vdir +:+ os_PathSeparator)) as [H|[H1 H2]].
  - by left.
  - right. done.
Qed.
End AllPackagesFurther.

Lemma allPackages_results_witness :
  ∃ w1,
    allPackages (E := Sample.env) [Sample.dep_a] tt Sample.handler Sample.fresh
    = (w1, Returned (["example.com/a/pkg"], None)) ∧
    call_ResolveAll (E := Sample.env) tt Sample.handler [Sample.dep_a] Sample.fresh
    = (w1, Returned (["vendor/example.com/a/pkg"], None)).
Proof.
  eexists. split; [vm_compute; reflexivity|].
  match goal with
  | |- _ = (?w1, _) =>
      destruct (allPackages_results (E := Sample.env) [Sample.dep_a] tt
                  Sample.handler Sample.fresh w1 ["example.com/a/pkg"] None)
        as (_ & _ & _ & Hok)
  end.
  - vm_compute. reflexivity.
  - destruct (Hok ltac:(done) eq_refl) as (ll & Hwalk & Hll).
    rewrite Hwalk. vm_compute in Hwalk. injection Hwalk as <-. reflexivity.
Defined.

(** ** The phases of [Update] *)

Section UpdateFurther.
Context {E : Collaborators}.

Abbreviation update_handler i :=
  {| destination := filepath_Join "." "vendor"; home := Home i;
     cache := UseCache i; cacheGopath := UseCacheGopath i;
     useGopath := UseGopath i |}.

Lemma run_walk_events (m : MissingPackageHandler) (t : Walk FS) (w : World FS) :
  ∃ fs' evs r,
    run_walk m t w =
      ({| w_fs := fs'; w_trace := w_trace w ++ evs; w_sched := w_sched w |},
       Returned r) ∧
    Forall (walk_event m) evs.
Proof.
  revert w. induction t as [pkgs err|pkg k IH|pkg k IH]; intros w; simpl.
  - exists (w_fs w), [], (pkgs, err). rewrite app_nil_r.
    split; [by destruct w|constructor].
  - rewrite NotFound_eq.
    match goal with
    | |- context [run_walk m (k ?r ?fs) ?w1] =>
        destruct (IH r fs w1) as (fs' & evs & r' & -> & Hev)
    end.
    simpl. eexists fs', (_ ++ evs), r'. rewrite <- app_assoc. split; [done|].
    apply Forall_app. split; [|done]. repeat constructor.
  - unfold OnGopath, bind, msg_Info, emit, ret, with_events. simpl.
    match goal with
    | |- context [run_walk m (k ?r ?fs) ?w1] =>
        destruct (IH r fs w1) as (fs' & evs & r' & -> & Hev)
    end.
    simpl. eexists fs', (_ ++ evs), r'. rewrite <- app_assoc. split; [done|].
    apply Forall_app. split; [|done]. repeat constructor.
Qed.

Lemma allPackages_events (deps : list Dependency) (res : Resolver)
    (m : MissingPackageHandler) (w : World FS) :
  ∃ fs' evs r,
    allPackages deps res m w =
      ({| w_fs := fs'; w_trace := w_trace w ++ evs; w_sched := w_sched w |},
       Returned r) ∧
    Forall (walk_event m) evs.
Proof.
  unfold allPackages. case_decide.
  - exists (w_fs w), [], ([], None). rewrite app_nil_r. split; [by destruct w|constructor].
  - unfold bind, call_Vendor, call_ResolveAll, ret.
    destruct (gpath_Vendor (w_fs w)) as [vdir [e|]].
    + exists (w_fs w), [], ([], Some e). rewrite app_nil_r.
      split; [by destruct w|constructor].
    + destruct (run_walk_events m (ResolveAll res deps (w_fs w)) w)
        as (fs' & evs & [ll [e|]] & -> & Hev); by eexists fs', evs, _.
Qed.

Lemma walk_events_no_updates (m : MissingPackageHandler) (evs : list Event) :
  Forall (walk_event m) evs → updates_of evs = [].
Proof. induction 1 as [|e evs He _ IH]; [done|]. by destruct e. Qed.

(** X12. [Update] works in two phases that do not mix.  Its trace is that
    of the resolution followed by that of the worker pool: in the first
    part there is no update, and every fetch is of a bare Dependency into
    its own directory under filepath.Join(".", "vendor") with the
    installer's home and cache settings; in the second part there is no
    fetch, and every update is made relative to the base directory "." with
    the installer itself.  The scheduler is involved only in the second
    phase. *)
Theorem Update_resolves_then_updates
    (i : Installer) (conf : Config) (w : World FS) :
  ∃ evs1 evs2,
    w_trace (Update i conf w).1 = w_trace w ++ evs1 ++ evs2 ∧
    Forall (walk_event (update_handler i)) evs1 ∧
    updates_of evs1 = [] ∧
    Forall (pool_event "." i) evs2 ∧
    gets_of evs2 = [] ∧
    (evs2 = [] ∨ (Update i conf w).2 ≠ Died).
Proof.
  pose proof (Update_cases i conf w) as Hc.
  destruct (NewResolver "." (w_fs w)) as [res|e].
  2:{ rewrite Hc. simpl. eexists [_], []. rewrite app_nil_r.
      split; [done|]. split; [repeat constructor|]. split; [done|].
      split; [constructor|]. split; [done|by left]. }
  destruct (allPackages_events (Imports conf) res (update_handler i)
              (with_events w [EvMsg LInfo "Resolving imports" []]))
    as (fs1 & evs & [packages err] & Hall & Hev).
  rewrite Hall in Hc. destruct err as [e|].
  { rewrite Hc. simpl.
    eexists ([EvMsg LInfo "Resolving imports" []] ++ evs ++ [_]), [].
    rewrite app_nil_r, <- !app_assoc. split; [done|].
    assert (Forall (walk_event (update_handler i))
              ([EvMsg LInfo "Resolving imports" []] ++ evs ++
               [EvMsg LError "Failed to retrieve a list of dependencies: %s" [e]]))
      as Hall1.
    { apply Forall_app. split; [repeat constructor|].
      apply Forall_app. split; [done|repeat constructor]. }
    split; [done|]. split; [by eapply walk_events_no_updates|].
    split; [constructor|]. split; [done|by left]. }
  cbv zeta in Hc.
  match type of Hc with
  | context [ConcurrentUpdate ?d ?c ?ii ?ww] =>
      destruct (ConcurrentUpdate_spec d c ii ww)
        as (fs3 & evs3 & sched3 & o & Hcu & Hev3 & Ho & _);
      rewrite Hcu in Hc
  end.
  assert (Forall (walk_event (update_handler i))
            ([EvMsg LInfo "Resolving imports" []] ++ evs ++
             [EvMsg LWarn "devImports not resolved." []])) as Hall1.
  { apply Forall_app. split; [repeat constructor|].
    apply Forall_app. split; [done|repeat constructor]. }
  exists ([EvMsg LInfo "Resolving imports" []] ++ evs ++
          [EvMsg LWarn "devImports not resolved." []]), evs3.
  assert (w_trace (Update i conf w).1 =
          w_trace w ++
          ([EvMsg LInfo "Resolving imports" []] ++ evs ++
           [EvMsg LWarn "devImports not resolved." []]) ++ evs3 ∧
          (Update i conf w).2 ≠ Died) as [Ht Hd].
  { destruct Ho as [-> | ->]; rewrite Hc; simpl;
      (split; [by rewrite <- !app_assoc|done]). }
  split; [done|]. split; [done|].
  split; [by eapply walk_events_no_updates|]. split; [done|].
  split; [by eapply pool_events_no_gets|by right].
Qed.

(** X13. What [Update] returns, when it returns.  Either conf.Hash()
    failed, and the result is a nil lock record with that error; or the
    lock record is the one cfg.NewLockfile makes from the hash conf.Hash()
    returned and the aggregate of the packages [allPackages] found, in
    which no repository is named twice, and the error is nil. *)
Theorem Update_result
    (i : Installer) (conf : Config) (w w' : World FS)
    (lock : option Lockfile) (err : option error) :
  Update i conf w = (w', Returned (lock, err)) →
  (∃ e, lock = None ∧ err = Some e ∧ (Hash conf).2 = Some e) ∨
  (∃ res w1 packages hash,
     NewResolver "." (w_fs w) = inl res ∧
     allPackages (Imports conf) res (update_handler i)
       (with_events w [EvMsg LInfo "Resolving imports" []])
       = (w1, Returned (packages, None)) ∧
     Hash conf = (hash, None) ∧
     lock = Some (NewLockfile (depsFromPackages NormalizeName packages) hash) ∧
     err = None ∧
     NoDup (Name <$> depsFromPackages NormalizeName packages)).
Proof.
  intros Hret. pose proof (Update_cases i conf w) as Hc.
  destruct (NewResolver "." (w_fs w)) as [res|e]; [|congruence].
  destruct (allPackages _ _ _ _) as [w1 [[packages [e|]]| |]] eqn:Hall;
    try congruence.
  cbv zeta in Hc.
  destruct (ConcurrentUpdate _ _ _ _) as [w3 [[]| |]]; try congruence.
  rewrite Hc in Hret. destruct (Hash conf) as [hash [e|]] eqn:Hh.
  - left. exists e. by injection Hret as _ <- <-.
  - right. injection Hret as _ <- <-.
    exists res, w1, packages, hash. repeat split; try done.
    assert (Name <$> depsFromPackages NormalizeName packages
            = first_seen (root_of NormalizeName <$> packages)) as ->.
    { rewrite depsFromPackages_closed_form, <- list_fmap_compose.
      apply list_fmap_id. }
    apply first_seen_NoDup.
Qed.

(** X14. [Update] of a config without imports: once the resolver has been
    constructed, nothing is walked, fetched or updated, not even the vendor
    directory is looked up; [Update] writes its two messages and returns a
    lock record without entries (or the error of conf.Hash()), whatever the
    number of workers. *)
Theorem Update_without_imports
    (i : Installer) (conf : Config) (w : World FS) (res : Resolver) :
  Imports conf = [] →
  NewResolver "." (w_fs w) = inl res →
  ∃ sched',
    Update i conf w =
      ({| w_fs := w_fs w;
          w_trace := w_trace w ++
            [EvMsg LInfo "Resolving imports" [];
             EvMsg LWarn "devImports not resolved." []];
          w_sched := sched' |},
       Returned (match Hash conf with
                 | (_, Some e) => (None, Some e)
                 | (hash, None) => (Some (NewLockfile [] hash), None)
                 end)).
Proof.
  intros Hnil Hres. pose proof (Update_cases i conf w) as Hc.
  rewrite Hres, Hnil in Hc. unfold allPackages in Hc. simpl in Hc.
  unfold ret in Hc. cbv zeta in Hc.
  change (depsFromPackages NormalizeName []) with (@nil Dependency) in Hc.
  match type of Hc with
  | context [ConcurrentUpdate [] ?c ?ii ?ww] =>
      destruct (ConcurrentUpdate_replay [] c ii ww)
        as (order & sched' & o & Hrun & Hsub & _ & _ & Hret);
      rewrite Hrun in Hc
  end.
  apply submseteq_nil_r in Hsub. subst order.
  rewrite (Hret (or_intror eq_refl)) in Hc. simpl in Hc.
  rewrite app_nil_r, <- app_assoc in Hc. by exists sched'.
Qed.
End UpdateFurther.

Lemma Update_result_witness :
  ∃ hash,
    (Update (E := Sample.env) Sample.inst
       {| CName := "proj"; Imports := [Sample.dep_a; Sample.dep_b]; DevImports := [] |}
       Sample.fresh).2
    = Returned (Some (NewLockfile
                        [new_dep "example.com/a" ["pkg"];
                         new_dep "example.com/b" ["pkg"]] hash), None).
Proof.
  destruct (Update_result (E := Sample.env) Sample.inst
              {| CName := "proj"; Imports := [Sample.dep_a; Sample.dep_b];
                 DevImports := [] |}
              Sample.fresh
              (Update (E := Sample.env) Sample.inst
                 {| CName := "proj"; Imports := [Sample.dep_a; Sample.dep_b];
                    DevImports := [] |} Sample.fresh).1
              (Some (NewLockfile
                       [new_dep "example.com/a" ["pkg"];
                        new_dep "example.com/b" ["pkg"]] "sha256:proj"))
              None)
    as [(e & Hl & _)|(res & w1 & packages & hash & _ & _ & _ & Hl & _)].
  - vm_compute. reflexivity.
  - discriminate Hl.
  - exists "sha256:proj". vm_compute. reflexivity.
Defined.

Lemma Update_without_imports_witness :
  (Update (E := Sample.env) Sample.inst
     {| CName := "proj"; Imports := []; DevImports := [Sample.dep_a] |}
     Sample.fresh).2
  = Returned (Some (NewLockfile [] "sha256:proj"), None).
Proof.
  destruct (Update_without_imports (E := Sample.env) Sample.inst
              {| CName := "proj"; Imports := []; DevImports := [Sample.dep_a] |}
              Sample.fresh tt eq_refl eq_refl) as (sched' & ->).
  reflexivity.
Defined.

(** ** [Install]: imports first, then dev-imports *)

Section InstallFurther.
Context {E : Collaborators}.

Lemma sequential_update_updates (cwd : string) (i : Installer)
    (ds : list Dependency) (fs : FS) :
  updates_of (sequential_update cwd i ds fs).2 = ds ∧
  Forall (pool_event cwd i) (sequential_update cwd i ds fs).2.
Proof.
  revert fs. induction ds as [|d ds IH]; intros fs; simpl; [by split|].
  destruct (VcsUpdate d cwd i fs) as [fs1 r].
  destruct (IH fs1) as [Hu Hev].
  destruct (sequential_update cwd i ds fs1) as [fs2 evs]. simpl in *.
  split.
  - destruct r; simpl; by rewrite Hu.
  - destruct r; repeat constructor; done.
Qed.

(** X15. [Install] never fetches and never ends the process.  Apart from
    its one message when there is nothing to install, it writes only
    update calls and their warnings; every update is made in the vendor
    directory that gpath.Vendor() reported, with the installer itself.
    Imports come first: the updates fall into those of imports followed by
    those of dev-imports, none made more often than the dependency occurs
    in its list, and a dev-import is updated only after every import has
    been.  If gpath.Vendor() fails, nothing is done at all. *)
Theorem Install_updates_imports_first
    (i : Installer) (lock : Lockfile) (conf : Config) (w : World FS) :
  let newConf := DeDupe (conf_of_lock lock conf) in
  let cwd := (gpath_Vendor (w_fs w)).1 in
  ∃ evs0 evs1 evs2,
    w_trace (Install i lock conf w).1 = w_trace w ++ evs0 ++ evs1 ++ evs2 ∧
    (Install i lock conf w).2 ≠ Died ∧
    (evs0 = [] ∨
     evs0 = [EvMsg LInfo "No dependencies found. Nothing installed.\n" []] ∧
     Imports newConf = [] ∧ evs1 = [] ∧ evs2 = []) ∧
    Forall (pool_event cwd i) (evs1 ++ evs2) ∧
    gets_of (evs0 ++ evs1 ++ evs2) = [] ∧
    updates_of evs1 ⊆+ Imports newConf ∧
    updates_of evs2 ⊆+ DevImports newConf ∧
    (evs2 ≠ [] → updates_of evs1 ≡ₚ Imports newConf) ∧
    ((gpath_Vendor (w_fs w)).2 ≠ None →
       Install i lock conf w = (w, Returned (conf, (gpath_Vendor (w_fs w)).2))).
Proof.
  intros newConf cwd. pose proof (Install_cases i lock conf w) as Hc.
  fold newConf in Hc. simpl in Hc. unfold cwd.
  destruct (gpath_Vendor (w_fs w)) as [vdir [e|]] eqn:Hv; simpl.
  { rewrite Hc. simpl. exists [], [], []. rewrite !app_nil_r.
    repeat split; try done; try apply submseteq_nil_l; try constructor; auto. }
  case_decide as Hlen.
  { rewrite Hc. simpl.
    exists [EvMsg LInfo "No dependencies found. Nothing installed.\n" []], [], [].
    rewrite !app_nil_r. split; [done|]. split; [done|].
    split; [right; repeat split; try done; by destruct (Imports newConf)|].
    repeat split; try done; try apply submseteq_nil_l; try constructor. }
  destruct (ConcurrentUpdate_replay (Imports newConf) vdir i w)
    as (o1 & sched1 & out1 & Hrun1 & Hsub1 & Hout1 & Hperm1 & _).
  rewrite Hrun1 in Hc.
  destruct (sequential_update_updates vdir i o1 (w_fs w)) as [Hu1 Hev1].
  destruct out1 as [[]| |].
  2:{ destruct Hout1 as [?|?]; done. }
  2:{ rewrite Hc. simpl.
      exists [], (sequential_update vdir i o1 (w_fs w)).2, [].
      rewrite !app_nil_r. simpl. rewrite Hu1.
      split; [done|]. split; [done|]. split; [by left|].
      split; [done|]. split; [by eapply pool_events_no_gets|].
      split; [done|]. split; [apply submseteq_nil_l|]. split; done. }
  match type of Hc with
  | context [ConcurrentUpdate _ _ _ ?w1] =>
      destruct (ConcurrentUpdate_replay (DevImports newConf) vdir i w1)
        as (o2 & sched2 & out2 & Hrun2 & Hsub2 & Hout2 & _ & _);
      destruct (sequential_update_updates vdir i o2 (w_fs w1)) as [Hu2 Hev2]
  end.
  rewrite Hrun2 in Hc. simpl in *.
  exists [], (sequential_update vdir i o1 (w_fs w)).2,
    (sequential_update vdir i o2 (sequential_update vdir i o1 (w_fs w)).1).2.
  simpl. rewrite Hu1, Hu2.
  assert (w_trace (Install i lock conf w).1 =
          w_trace w ++ (sequential_update vdir i o1 (w_fs w)).2 ++
          (sequential_update vdir i o2 (sequential_update vdir i o1 (w_fs w)).1).2
          ∧ (Install i lock conf w).2 ≠ Died) as [Ht Hd].
  { destruct Hout2 as [-> | ->]; rewrite Hc; simpl;
      (split; [by rewrite <- app_assoc|done]). }
  split; [done|]. split; [done|]. split; [by left|].
  assert (Forall (pool_event vdir i)
            ((sequential_update vdir i o1 (w_fs w)).2 ++
             (sequential_update vdir i o2
                (sequential_update vdir i o1 (w_fs w)).1).2)) as Hall
    by (apply Forall_app; by split).
  split; [done|]. split; [by eapply pool_events_no_gets|].
  split; [done|]. split; [done|]. split; [|done].
  intros _. by apply Hperm1.
Qed.
End InstallFurther.

Lemma Checkout_only_fetches_witness :
  ∃ evs,
    w_trace (Checkout (E := Sample.env) Sample.inst
               {| CName := "proj"; Imports := [Sample.dep_a];
                  DevImports := [Sample.dep_b] |} true
               {| w_fs := ["vendor/example.com/b"; "."; "vendor"];
                  w_trace := []; w_sched := [] |}).1 = evs ∧
    length (found_of evs) + length (gets_of evs) = 2 ∧
    Forall2 handles (handled_of evs) [Sample.dep_a; Sample.dep_b].
Proof.
  destruct (Checkout_only_fetches (E := Sample.env) Sample.inst
              {| CName := "proj"; Imports := [Sample.dep_a];
                 DevImports := [Sample.dep_b] |} true
              {| w_fs := ["vendor/example.com/b"; "."; "vendor"];
                 w_trace := []; w_sched := [] |})
    as (fs' & evs & r & Hrun & _ & _ & Hcount & Hhandled).
  exists evs. rewrite Hrun. split; [reflexivity|].
  assert (r = None) as Hr by (vm_compute in Hrun; by injection Hrun as _ _ <-).
  split; [by apply Hcount|by apply Hhandled].
Defined.

Lemma Install_updates_imports_first_witness :
  Install (E := Sample.env) Sample.inst
    {| LHash := "sha256:proj"; LImports := [Sample.lock_a]; LDevImports := [] |}
    {| CName := "proj"; Imports := []; DevImports := [] |}
    Sample.bare
  = (Sample.bare,
     Returned ({| CName := "proj"; Imports := []; DevImports := [] |},
               Some "no vendor directory")).
Proof.
  destruct (Install_updates_imports_first (E := Sample.env) Sample.inst
              {| LHash := "sha256:proj"; LImports := [Sample.lock_a];
                 LDevImports := [] |}
              {| CName := "proj"; Imports := []; DevImports := [] |}
              Sample.bare)
    as (evs0 & evs1 & evs2 & _ & _ & _ & _ & _ & _ & _ & _ & Hfail).
  apply Hfail. discriminate.
Defined.

(** ** How [Update] ends *)

Section UpdateEnds.
Context {E : Collaborators}.

Abbreviation update_handler i :=
  {| destination := filepath_Join "." "vendor"; home := Home i;
     cache := UseCache i; cacheGopath := UseCacheGopath i;
     useGopath := UseGopath i |}.

(** X16. [Update] ends the process only for a failure of the resolution
    phase: it dies exactly when dependency.NewResolver fails or
    [allPackages] returns an error.  In every other case, with at least one
    worker in the pool, it returns. *)
Theorem Update_dies_only_in_resolution
    (i : Installer) (conf : Config) (w : World FS) :
  ((Update i conf w).2 = Died ↔
   (∃ e, NewResolver "." (w_fs w) = inr e) ∨
   (∃ res w1 packages e,
      NewResolver "." (w_fs w) = inl res ∧
      allPackages (Imports conf) res (update_handler i)
        (with_events w [EvMsg LInfo "Resolving imports" []])
        = (w1, Returned (packages, Some e)))) ∧
  (0 < concurrentWorkers →
   (Update i conf w).2 = Died ∨ ∃ r, (Update i conf w).2 = Returned r).
Proof.
  pose proof (Update_cases i conf w) as Hc.
  destruct (NewResolver "." (w_fs w)) as [res|e].
  2:{ rewrite Hc. simpl. split; [|by left]. split; [|done].
      intros _. left. by exists e. }
  destruct (allPackages_spec (Imports conf) res (update_handler i)
              (with_events w [EvMsg LInfo "Resolving imports" []]))
    as (fs1 & evs & [packages err] & Hall & _).
  rewrite Hall in Hc. destruct err as [e|].
  { rewrite Hc. simpl. split; [|by left]. split; [|done].
    intros _. right. eexists res, _, packages, e. by split. }
  cbv zeta in Hc.
  match type of Hc with
  | context [ConcurrentUpdate ?d ?c ?ii ?ww] =>
      destruct (ConcurrentUpdate_spec d c ii ww)
        as (fs3 & evs3 & sched3 & o & Hcu & _ & Ho & _ & Hret);
      rewrite Hcu in Hc
  end.
  split.
  - split.
    + destruct Ho as [-> | ->]; rewrite Hc; done.
    + intros [(e & He)|(res' & w1 & pk & e & Hres & Hall')]; [done|].
      injection Hres as <-. rewrite Hall in Hall'. done.
  - intros HW. right. rewrite (Hret HW) in Hc. rewrite Hc. simpl. by eexists.
Qed.
End UpdateEnds.

Lemma Update_dies_only_in_resolution_witness :
  ∃ r,
    (Update (E := Sample.env) Sample.inst
       {| CName := "proj"; Imports := [Sample.dep_a]; DevImports := [] |}
       Sample.fresh).2 = Returned r.
Proof.
  destruct (Update_dies_only_in_resolution (E := Sample.env) Sample.inst
              {| CName := "proj"; Imports := [Sample.dep_a]; DevImports := [] |}
              Sample.fresh) as [_ Hends].
  destruct Hends as [Hdied|Hret]; [simpl; lia| |exact Hret].
  vm_compute in Hdied. discriminate Hdied.
Defined.
